(** * SocialRobotics: clause segmentation, confidence resolution, decision
      parsing and the turn orchestrator, embedded from the Python sources.

    Part I holds the embedding (one module per source class or file),
    Part II the lemmas and the theorems about it. *)

From Stdlib Require Import List NArith ZArith QArith Bool Lia Lqa Ascii.
From Stdlib Require String.
Import String.StringSyntax.
Close Scope Q_scope.
Import ListNotations.

(* ================================================================== *)
(** * Part I. The embedding                                            *)
(* ================================================================== *)

(** ** Python text

    A Python [str] is a sequence of Unicode code points; a code point is an
    [N].  Only the [str] methods the program calls are modelled. *)
Module Py.

Local Open Scope N_scope.

Definition char := N.
Definition str := list char.

(** A literal of the source, written as a Rocq string (one code point per
    character; the literals used below are ASCII). *)
Definition lit (s : String.string) : str :=
  List.map N_of_ascii (String.list_ascii_of_string s).

Fixpoint str_eqb (a b : str) : bool :=
  match a, b with
  | [], [] => true
  | x :: a', y :: b' => N.eqb x y && str_eqb a' b'
  | _, _ => false
  end.

(** [c in chars] for a one-character [c]. *)
Definition char_in (c : char) (chars : str) : bool :=
  existsb (N.eqb c) chars.

(** [str.isspace] on one code point: the Unicode white-space code points. *)
Definition isspace (c : char) : bool :=
  ((9 <=? c) && (c <=? 13)) || ((28 <=? c) && (c <=? 32))
  || (c =? 133) || (c =? 160) || (c =? 5760)
  || ((8192 <=? c) && (c <=? 8202))
  || (c =? 8232) || (c =? 8233) || (c =? 8239) || (c =? 8287)
  || (c =? 12288).

(** Drop the longest prefix whose characters satisfy [p]. *)
Fixpoint lstrip_by (p : char -> bool) (s : str) : str :=
  match s with
  | [] => []
  | c :: t => if p c then lstrip_by p t else s
  end.

Definition rstrip_by (p : char -> bool) (s : str) : str :=
  rev (lstrip_by p (rev s)).

Definition strip_by (p : char -> bool) (s : str) : str :=
  rstrip_by p (lstrip_by p s).

(** [s.strip()] *)
Definition strip (s : str) : str := strip_by isspace s.

(** [s.strip(chars)] *)
Definition strip_chars (chars s : str) : str :=
  strip_by (fun c => char_in c chars) s.

(** [s.split()]: the maximal runs of non-space characters, in order.
    [cur] is the run being read. *)
Fixpoint split_from (cur s : str) : list str :=
  match s with
  | [] => match cur with [] => [] | _ => [cur] end
  | c :: t =>
      if isspace c
      then match cur with
           | [] => split_from [] t
           | _ => cur :: split_from [] t
           end
      else split_from (cur ++ [c]) t
  end.

Definition split (s : str) : list str := split_from [] s.

(** [s.lower()] on one code point.  Exact on U+0000..U+00FF; beyond that
    block the two code points whose lower-case form contains an ASCII
    letter (U+212A KELVIN SIGN and U+0130) are mapped as Python maps them,
    and the others are left unchanged: their lower-case forms contain no
    ASCII letter, and the program only compares lowered text with ASCII
    literals. *)
Definition lower_char (c : char) : str :=
  if (65 <=? c) && (c <=? 90) then [c + 32]
  else if (192 <=? c) && (c <=? 222) && negb (c =? 215) then [c + 32]
  else if c =? 8490 then [107]
  else if c =? 304 then [105; 775]
  else [c].

Definition lower (s : str) : str := flat_map lower_char s.

(** The text with the characters that satisfy [p] deleted, and the text
    with every white-space character deleted. *)
Definition keep (p : char -> bool) (s : str) : str :=
  filter (fun c => negb (p c)) s.

Definition squeeze (s : str) : str := keep isspace s.

(** [s.startswith(prefix)] *)
Fixpoint startswith (s prefix : str) {struct prefix} : bool :=
  match prefix, s with
  | [], _ => true
  | p :: prefix', c :: s' => N.eqb c p && startswith s' prefix'
  | _ :: _, [] => false
  end.

(** [s[start:stop]] for [0 <= start] and [0 <= stop]. *)
Definition slice (s : str) (start stop : nat) : str :=
  firstn (stop - start)%nat (skipn start s).

(** [s[start:]] *)
Definition slice_from (s : str) (start : nat) : str := skipn start s.

Arguments lit s%_string_scope.

(** [bool(s)] *)
Definition truthy (s : str) : bool :=
  match s with [] => false | _ => true end.

(** [sep.join(parts)], and the join with the empty separator. *)
Definition concat (parts : list str) : str := List.concat parts.

Fixpoint join (sep : str) (parts : list str) : str :=
  match parts with
  | [] => []
  | [p] => p
  | p :: rest => p ++ sep ++ join sep rest
  end.

(** [sub in s], for texts. *)
Fixpoint contains (s sub : str) : bool :=
  startswith s sub
  || match s with
     | [] => false
     | _ :: t => contains t sub
     end.

(** A [dict] with [str] keys, in insertion order: [key in d], [d.get(key)]. *)
Definition dict (V : Type) := list (str * V).

Fixpoint dict_get {V : Type} (d : dict V) (key : str) : option V :=
  match d with
  | [] => None
  | (k, v) :: d' => if str_eqb k key then Some v else dict_get d' key
  end.

Definition dict_mem {V : Type} (d : dict V) (key : str) : bool :=
  match dict_get d key with Some _ => true | None => false end.

(** An object of any type, as far as the program looks at it: a string,
    or something else, with its truth value and its [str()]. *)
Inductive object :=
| Str (s : str)
| Other (truth : bool) (shown : str).

Definition bool_of (x : object) : bool :=
  match x with
  | Str s => truthy s
  | Other truth _ => truth
  end.

Definition str_of (x : object) : str :=
  match x with
  | Str s => s
  | Other _ shown => shown
  end.

(** [d[key] = v] *)
Fixpoint dict_set {V : Type} (d : dict V) (key : str) (v : V) : dict V :=
  match d with
  | [] => [(key, v)]
  | (k, x) :: d' =>
      if str_eqb k key then (k, v) :: d' else (k, x) :: dict_set d' key v
  end.


End Py.

(** ** [ChatGPTSentenceStreamer] (main.py): the clause segmenter *)
Module ChatGPTSentenceStreamer.
Import Py.

(** [char in ".?!"] *)
Definition is_terminal (c : char) : bool := char_in c (lit ".?!").

(** The [for idx, char in enumerate(text)] loop of [_pop_ready_clauses]:
    [rest] is the part of [text] still to be enumerated, [idx] the index of
    its head, [start] and [clauses] the loop variables. *)
Fixpoint pop_loop (text rest : str) (idx start : nat) (clauses : list str)
  : list str * nat :=
  match rest with
  | [] => (clauses, start)
  | ch :: rest' =>
      if is_terminal ch then
        let clause := strip (slice text start (idx + 1)) in
        let clauses' := if truthy clause then clauses ++ [clause] else clauses in
        pop_loop text rest' (idx + 1) (idx + 1) clauses'
      else pop_loop text rest' (idx + 1) start clauses
  end.

(** A clause as the segmenter emits them: not empty, with no white space
    at either end. *)
Definition well_trimmed (c : str) : Prop := c <> [] /\ strip c = c.

Definition _pop_ready_clauses (text : str) : list str * str :=
  let (clauses, start) := pop_loop text text 0 0 [] in
  (clauses, slice_from text start).

(** What one run of the generator [_generate_clauses] leaves behind: the
    clauses it yielded, in order, and the values [self.word_count] took,
    one per token (oldest first). *)
Record generated := {
  clauses : list str;
  word_counts : list nat
}.

(** The [for token in self._token_stream()] loop, then the flush. *)
Fixpoint generate_loop (tokens : list str) (buffer : str) : generated :=
  match tokens with
  | [] =>
      {| clauses := if truthy (strip buffer) then [strip buffer] else [];
         word_counts := [] |}
  | token :: tokens' =>
      let buffer := buffer ++ token in
      let word_count := length (split buffer) in
      let (ready, buffer) := _pop_ready_clauses buffer in
      let g := generate_loop tokens' buffer in
      {| clauses := ready ++ clauses g;
         word_counts := word_count :: word_counts g |}
  end.

Definition _generate_clauses (tokens : list str) : generated :=
  generate_loop tokens [].

(** [self.word_count] once the generator is exhausted (0 at construction). *)
Definition final_word_count (tokens : list str) : nat :=
  last (word_counts (_generate_clauses tokens)) 0.

(** The spec's losslessness, in its words: the trimmed concatenation of
    the emitted clauses is the trimmed concatenation of the fragments. *)
Definition lossless (tokens : list str) : Prop :=
  strip (concat (clauses (_generate_clauses tokens))) = strip (concat tokens).

(** A text made of terminal punctuation only. *)
Definition solely_terminal (c : str) : bool := forallb is_terminal c.

(** The spec's clause: not empty once trimmed, and not punctuation only. *)
Definition proper_clause (c : str) : Prop :=
  strip c <> [] /\ solely_terminal c = false.

(** The scan of [_pop_ready_clauses] told without indices: [cur] is the
    span read since the last cut, [rest] what is still to be read. *)
Fixpoint scan (cur rest : str) : list str * str :=
  match rest with
  | [] => ([], cur)
  | ch :: rest' =>
      if is_terminal ch then
        let clause := strip (cur ++ [ch]) in
        let (more, remainder) := scan [] rest' in
        ((if truthy clause then [clause] else []) ++ more, remainder)
      else scan (cur ++ [ch]) rest'
  end.

(** A text without terminal punctuation. *)
Definition unterminated (s : str) : Prop :=
  forallb (fun c => negb (is_terminal c)) s = true.

(** A sentence: an unterminated body closed by one terminal character. *)
Definition sentence (c : str) : Prop :=
  exists body ch,
    c = body ++ [ch] /\ is_terminal ch = true /\ unterminated body.

(** The number of terminal characters of a text. *)
Definition terminals (s : str) : nat := length (filter is_terminal s).

(** A text of white space only. *)
Definition blank (s : str) : Prop := forallb isspace s = true.

(** Clauses laid out in a text: each one behind its gap, and [last] behind
    them all. *)
Fixpoint with_gaps (gaps cs : list str) (last : str) : str :=
  match gaps, cs with
  | gap :: gaps', c :: cs' => gap ++ c ++ with_gaps gaps' cs' last
  | _, _ => last
  end.

(** *** [_token_stream]: the lines of the streamed response

    [json.loads] and the subscripts that follow it are taken as one
    parameter, [delta_content]: [None] when any of them raises,
    [Some None] when the delta carries no content.  [status_ok] tells
    whether [requests.post] and [raise_for_status] went through, and
    [broken] whether [iter_lines] raises once the lines are read. *)

(** [s.split(sep, 1)[1]]: what follows the first occurrence of [sep];
    [None], an [IndexError], when there is none. *)
Fixpoint after_first (sep s : str) : option str :=
  match s with
  | [] => if startswith [] sep then Some [] else None
  | _ :: t =>
      if startswith s sep then Some (skipn (length sep) s)
      else after_first sep t
  end.

(** The [data] of a non-empty line. *)
Definition data_of (line : str) : option str :=
  if startswith line (lit "data:")
  then option_map strip (after_first (lit "data:") line)
  else Some (strip line).

Section TokenStream.
Variable delta_content : str -> option (option str).

(** The [for line in resp.iter_lines(...)] loop: the tokens yielded, and
    whether the generator ends by raising. *)
Fixpoint token_lines (lines : list str) (broken : bool) : list str * bool :=
  match lines with
  | [] => ([], broken)
  | line :: rest =>
      if negb (truthy line) then token_lines rest broken
      else
        match data_of line with
        | None => ([], true)
        | Some data =>
            if negb (truthy data) then token_lines rest broken
            else if str_eqb data (lit "[DONE]") then ([], false)
            else
              match delta_content data with
              | None => ([], true)
              | Some delta =>
                  let (tokens, fails) := token_lines rest broken in
                  (match delta with
                   | Some d => if truthy d then d :: tokens else tokens
                   | None => tokens
                   end, fails)
              end
        end
  end.

Definition _token_stream (status_ok : bool) (lines : list str)
    (broken : bool) : list str * bool :=
  if status_ok then token_lines lines broken else ([], true).

End TokenStream.

End ChatGPTSentenceStreamer.

(** ** [BehaviorGenerator] (plan/behavior_generator.py) *)
Module BehaviorGenerator.
Import Py.

Definition behavior : Type := str * str * str * str.

Definition CONFIDENCE_BEHAVIORS : dict behavior :=
  [ (lit "low",
     (lit "I'm not entirely sure, but", lit "slight head shake", lit "Oh", lit "yellow"));
    (lit "medium",
     (lit "Let me think", lit "look straight", lit "Thoughtful", lit "blue"));
    (lit "high",
     (lit "I'm confident that", lit "nod head", lit "BigSmile", lit "green")) ].

Definition _get_legacy_behavior (confidence : str) : str * str :=
  let full :=
    match dict_get CONFIDENCE_BEHAVIORS confidence with
    | Some b => b
    | None => (lit "Let me think", lit "look straight", lit "Oh", lit "blue")
    end in
  let '(prefix, gesture, _, _) := full in (prefix, gesture).

Definition get_confidence_behavior (confidence : str) : str * str :=
  let confidence :=
    if negb (dict_mem CONFIDENCE_BEHAVIORS confidence)
    then lit "medium" else confidence in
  _get_legacy_behavior confidence.

Definition _estimate_confidence_from_words (word_count : Z) : str :=
  if (word_count <? 25)%Z then lit "low"
  else if (word_count <? 60)%Z then lit "medium"
  else lit "high".

(** [hint] is [Optional[str]]: [None] is Python's [None]. *)
Definition resolve_confidence (hint : option str) (word_count : Z) : str :=
  match hint with
  | Some h =>
      if truthy h && dict_mem CONFIDENCE_BEHAVIORS (lower (strip h))
      then lower (strip h)
      else _estimate_confidence_from_words word_count
  | None => _estimate_confidence_from_words word_count
  end.

(** [get_full_confidence_behavior]; [None] stands for the [KeyError] of
    [self.CONFIDENCE_BEHAVIORS[confidence]]. *)
Definition get_full_confidence_behavior (confidence : str) : option behavior :=
  let confidence :=
    if negb (dict_mem CONFIDENCE_BEHAVIORS confidence)
    then lit "medium" else confidence in
  dict_get CONFIDENCE_BEHAVIORS confidence.

Definition infer_confidence_from_text (text : str) : str :=
  let text_lower := lower text in
  if contains text_lower (lit "i'm not entirely sure")
     || contains text_lower (lit "i'm not sure")
  then lit "low"
  else if contains text_lower (lit "i'm confident")
          || contains text_lower (lit "i'm certain")
  then lit "high"
  else if contains text_lower (lit "let me think")
          || contains text_lower (lit "i think")
  then lit "medium"
  else lit "medium".

(** The order of the tiers: low, medium, high. *)
Definition tier_rank (tier : str) : nat :=
  if str_eqb tier (lit "low") then 0
  else if str_eqb tier (lit "medium") then 1
  else 2.

(** *** The requests sent to the robot

    A method returns at once when no client is attached ([furhat] false);
    otherwise it sends the requests listed (a failing request is caught and
    logged, and nothing else is sent for it). *)
Inductive request :=
| GestureStart (name : str) (intensity duration : Q)
| AttendUser
| LedSet (color : str).

Definition _shake_head_slightly : list request :=
  [GestureStart (lit "Shake") (1 # 2)%Q (4 # 5)%Q].

Definition _look_straight : list request := [AttendUser].

Definition _nod_head : list request :=
  [GestureStart (lit "Nod") (7 # 10)%Q (3 # 5)%Q].

(** [gesture_map] of [execute_gesture]. *)
Definition gesture_map : dict (list request) :=
  [ (lit "slight head shake", _shake_head_slightly);
    ([36731; 24494; 25671; 22836]%N, _shake_head_slightly);
    (lit "look straight", _look_straight);
    ([24179; 35270; 20957; 31070]%N, _look_straight);
    (lit "nod head", _nod_head);
    ([28857; 22836; 31034; 24847]%N, _nod_head) ].

Definition execute_gesture (furhat : bool) (gesture_description : str)
  : list request :=
  if negb furhat then []
  else match dict_get gesture_map gesture_description with
       | Some gesture_func => gesture_func
       | None => []
       end.

Definition execute_gesture_expression (furhat : bool) (expression : str)
  : list request :=
  if negb furhat then []
  else [GestureStart expression (7 # 10)%Q 1%Q].

(** [color_map] of [execute_led_color]. *)
Definition color_map : dict str :=
  [ (lit "red", lit "#FF0000"); (lit "green", lit "#00FF00");
    (lit "blue", lit "#0066FF"); (lit "yellow", lit "#FFC800");
    (lit "purple", lit "#9600FF"); (lit "white", lit "#FFFFFF") ].

Definition execute_led_color (furhat : bool) (color : str) : list request :=
  if negb furhat then []
  else
    let hex_color :=
      match dict_get color_map (lower color) with
      | Some hex => hex
      | None => lit "#0066FF"
      end in
    [LedSet hex_color].

Definition execute_led_color_hex (furhat : bool) (hex_color : str)
  : list request :=
  if negb furhat then [] else [LedSet hex_color].

(** [execute_multimodal_behavior]: the requests of the three gathered
    calls, in the order the calls are made. *)
Definition execute_multimodal_behavior (furhat : bool) (confidence : str)
  : list request :=
  if negb furhat then []
  else
    match get_full_confidence_behavior confidence with
    | None => []
    | Some (_, gesture, expression, led_color) =>
        execute_gesture furhat gesture
        ++ execute_gesture_expression furhat expression
        ++ execute_led_color furhat led_color
    end.

(** [perform_thinking_behavior]. *)
Definition perform_thinking_behavior (furhat : bool) (sequence_index : nat)
  : list request :=
  if negb furhat then []
  else
    let gesture_cycle := [lit "look straight"; lit "slight head shake"] in
    let expression_cycle := [lit "Thoughtful"; lit "Oh"] in
    let led_color := lit "#FFA500" in
    let gesture :=
      nth (sequence_index mod length gesture_cycle) gesture_cycle [] in
    let expression :=
      nth (sequence_index mod length expression_cycle) expression_cycle [] in
    execute_gesture furhat gesture
    ++ execute_gesture_expression furhat expression
    ++ execute_led_color_hex furhat led_color.

End BehaviorGenerator.

(** ** Module-level functions of main.py *)
Module Main.
Import Py.

Definition CONFIDENCE_BEHAVIORS : dict (str * str) :=
  [ (lit "low", (lit "I'm not entirely sure, but ", lit "gentle head shake"));
    (lit "medium", (lit "It seems that ", lit "steady gaze"));
    (lit "high", (lit "I'm confident that ", lit "affirmative nod")) ].

Definition estimate_confidence_from_words (word_count : Z) : str :=
  if (word_count <? 25)%Z then lit "low"
  else if (word_count <? 60)%Z then lit "medium"
  else lit "high".

Definition resolve_confidence (hint : option str) (word_count : Z) : str :=
  match hint with
  | Some h =>
      if truthy h then
        let key := lower (strip h) in
        if dict_mem CONFIDENCE_BEHAVIORS key then key
        else estimate_confidence_from_words word_count
      else estimate_confidence_from_words word_count
  | None => estimate_confidence_from_words word_count
  end.

(** [Orchestrator._respond_directly] of main.py: the lines it prints.
    [answer] is [self.decision.get("answer")]. *)
Definition apology : str := lit "Sorry, I don't have a confident answer yet.".

Definition _respond_directly (answer confidence_hint : option str) : list str :=
  let answer :=
    strip (match answer with
           | Some a => if truthy a then a else []
           | None => []
           end) in
  let answer := if negb (truthy answer) then apology else answer in
  let confidence :=
    match confidence_hint with
    | Some h => if dict_mem CONFIDENCE_BEHAVIORS h then h else lit "medium"
    | None => lit "medium"
    end in
  let gesture :=
    match dict_get CONFIDENCE_BEHAVIORS confidence with
    | Some (_, gesture) => gesture
    | None => []
    end in
  [ lit "Robot switches directly to answer mode (confidence=" ++ confidence
      ++ lit ", gesture=" ++ gesture ++ lit ")";
    lit "Robot: " ++ answer;
    lit "Robot (nonverbal): " ++ gesture ].


(** [is_meaningful_cue] of main.py.  The characters it strips are the six
    of its literal: the full stop, the exclamation mark, the question mark,
    and U+00E2, U+20AC, U+00A6. *)
Definition is_meaningful_cue (text : str) : bool :=
  let stripped := strip text in
  let stripped := strip_chars (lit ".!?" ++ [226%N; 8364%N; 166%N]) stripped in
  truthy stripped.


(** *** The thinking notes and the thinking prompt *)

(** The [notes] of [normalize_thinking_notes]: a list, a string, or
    anything else. *)
Inductive notes_value :=
| NotesList (items : list object)
| NotesStr (s : str)
| NotesOther.

Definition normalize_thinking_notes (notes : notes_value) : list str :=
  match notes with
  | NotesList items => map str_of (filter bool_of items)
  | NotesStr s => if truthy (strip s) then [strip s] else []
  | NotesOther => []
  end.

Definition build_thinking_prompt (question : str) (notes : list str) : str :=
  let filtered := filter truthy notes in
  let joined :=
    let bullets :=
      join [10%N] (map (fun note => lit "- " ++ note) filtered) in
    if truthy bullets then bullets else lit "- Reviewing possible answers" in
  lit "User question: " ++ question ++ [10%N]
  ++ lit "Preliminary thoughts:" ++ [10%N] ++ joined ++ [10%N]
  ++ lit "Generate visible-thinking phrases following the system instructions.".

(** *** [load_api_settings_from_files]

    [config_json] is what reading config.json gives, [api_key_txt] the
    lines of api_key.txt when the file exists.  The result is the error
    raised, if any, and the two globals as the call leaves them. *)
Inductive config_file :=
| NoFile
| DecodeError                  (* json.JSONDecodeError *)
| NotADict
| ADict (data : dict object).

Inductive load_error :=
| ConfigUnreadable   (* "Failed to parse config.json: ..." *)
| NoApiKey.          (* "API key not found. ..." *)

Definition SETTING_FIELDS : list str :=
  [ lit "api_key"; lit "base_url"; lit "controller_model";
    lit "controller_temperature"; lit "reasoning_model";
    lit "reasoning_temperature"; lit "thinking_model";
    lit "thinking_temperature" ].

(** The [for field in [...]] loop. *)
Definition override (config_data settings : dict object) : dict object :=
  fold_left (fun settings field =>
               match dict_get config_data field with
               | Some v =>
                   if bool_of v then dict_set settings field v else settings
               | None => settings
               end) SETTING_FIELDS settings.

(** The [for line in file] loop over api_key.txt; the empty text when no
    line is taken. *)
Fixpoint first_key (lines : list str) : str :=
  match lines with
  | [] => []
  | line :: rest =>
      let line := strip line in
      if truthy line && negb (startswith line (lit "#")) then line
      else first_key rest
  end.

Definition load_api_settings_from_files (SETTINGS_LOADED : bool)
    (OPENAI_SETTINGS : dict object) (config_json : config_file)
    (api_key_txt : option (list str))
  : option load_error * bool * dict object :=
  if SETTINGS_LOADED then (None, true, OPENAI_SETTINGS) else
  match config_json with
  | DecodeError => (Some ConfigUnreadable, false, OPENAI_SETTINGS)
  | _ =>
      let config_data :=
        match config_json with ADict data => data | _ => [] end in
      let (settings, api_key) :=
        match config_data with
        | [] => (OPENAI_SETTINGS, [])
        | _ =>
            (override config_data OPENAI_SETTINGS,
             strip (str_of (match dict_get config_data (lit "api_key") with
                            | Some v => v
                            | None => Str []
                            end)))
        end in
      let api_key :=
        if negb (truthy api_key) then
          match api_key_txt with
          | Some lines => first_key lines
          | None => api_key
          end
        else api_key in
      if negb (truthy api_key) then (Some NoApiKey, false, settings)
      else (None, true, dict_set settings (lit "api_key") (Str api_key))
  end.

End Main.

(** ** [json.loads] (Python's standard library)

    [_parse_json] hands its candidate text to [json.loads] with the default
    decoder.  The library is not part of the repository; it is modelled
    here as its scanner reads a text: the JSON grammar of RFC 8259 and,
    besides, the three constants [NaN], [Infinity] and [-Infinity]; white
    space (space, tab, line feed, carriage return) before and after the
    value and between tokens; nothing else after the value.  A decoded
    value is the Python object the decoder builds.  A [float] is kept as
    the numeral that denotes it.  The limits of the interpreter (the depth
    of nesting, the number of digits of an [int]) are not modelled. *)
Module Json.
Import Py.
Local Open Scope N_scope.

#[local] Set Warnings "-register-all".

Inductive value :=
| JNone
| JBool (b : bool)
| JInt (n : Z)
| JFloat (numeral : str)
| JStr (s : str)
| JList (items : list value)
| JDict (members : dict value).

(** [WHITESPACE]: the characters of " \t\n\r". *)
Definition is_ws (c : char) : bool :=
  (c =? 32) || (c =? 9) || (c =? 10) || (c =? 13).

Definition skip_ws (s : str) : str := lstrip_by is_ws s.

Definition is_digit (c : char) : bool := (48 <=? c) && (c <=? 57).

(** The longest prefix whose characters satisfy [p], and what follows. *)
Fixpoint span (p : char -> bool) (s : str) : str * str :=
  match s with
  | [] => ([], [])
  | c :: t =>
      if p c then let (taken, rest) := span p t in (c :: taken, rest)
      else ([], s)
  end.

(** [int(numeral)] for an optional minus sign and decimal digits. *)
Definition int_of (negative : bool) (digits : str) : Z :=
  let n := fold_left (fun acc d => (acc * 10 + Z.of_N (d - 48))%Z) digits 0%Z in
  if negative then (- n)%Z else n.

(** The fraction of a numeral: a point and at least one digit. *)
Definition fraction (s : str) : str * str :=
  match s with
  | c :: t =>
      if c =? 46 then
        match span is_digit t with
        | ([], _) => ([], s)
        | (digits, rest) => (c :: digits, rest)
        end
      else ([], s)
  | [] => ([], s)
  end.

(** The exponent of a numeral: [e] or [E], an optional sign and at least
    one digit. *)
Definition exponent (s : str) : str * str :=
  match s with
  | c :: t =>
      if (c =? 101) || (c =? 69) then
        let (sign, t') :=
          match t with
          | x :: t' => if (x =? 43) || (x =? 45) then ([x], t') else ([], t)
          | [] => ([], t)
          end in
        match span is_digit t' with
        | ([], _) => ([], s)
        | (digits, rest) => (c :: sign ++ digits, rest)
        end
      else ([], s)
  | [] => ([], s)
  end.

(** [NUMBER_RE]: an optional minus sign, then 0 or a digit from 1 to 9
    followed by digits, then an optional fraction and an optional
    exponent.  Without fraction and exponent the numeral is an [int]. *)
Definition match_number (s : str) : option (value * str) :=
  let (negative, s1) :=
    match s with
    | c :: t => if c =? 45 then (true, t) else (false, s)
    | [] => (false, s)
    end in
  match s1 with
  | c :: t =>
      if is_digit c then
        let (integer, s2) := if c =? 48 then ([c], t) else span is_digit s1 in
        let (frac, s3) := fraction s2 in
        let (exp, s4) := exponent s3 in
        match frac, exp with
        | [], [] => Some (JInt (int_of negative integer), s4)
        | _, _ =>
            Some (JFloat ((if negative then [45] else [])
                          ++ integer ++ frac ++ exp), s4)
        end
      else None
  | [] => None
  end.

Definition hex_digit (c : char) : option N :=
  if (48 <=? c) && (c <=? 57) then Some (c - 48)
  else if (97 <=? c) && (c <=? 102) then Some (c - 87)
  else if (65 <=? c) && (c <=? 70) then Some (c - 55)
  else None.

(** The code point of the four hexadecimal digits of a [\uXXXX] escape. *)
Definition decode_uXXXX (a b c d : char) : option N :=
  match hex_digit a, hex_digit b, hex_digit c, hex_digit d with
  | Some a, Some b, Some c, Some d => Some (((a * 16 + b) * 16 + c) * 16 + d)
  | _, _, _, _ => None
  end.

(** [BACKSLASH]: the one-letter escapes. *)
Definition backslash (esc : char) : option char :=
  if esc =? 34 then Some 34
  else if esc =? 92 then Some 92
  else if esc =? 47 then Some 47
  else if esc =? 98 then Some 8
  else if esc =? 102 then Some 12
  else if esc =? 110 then Some 10
  else if esc =? 114 then Some 13
  else if esc =? 116 then Some 9
  else None.

Definition high_surrogate (uni : N) : bool := (55296 <=? uni) && (uni <=? 56319).
Definition low_surrogate (uni : N) : bool := (56320 <=? uni) && (uni <=? 57343).

(** The low surrogate that a second escape, right behind a high one,
    stands for. *)
Definition second_escape (b u a2 b2 c2 d2 : char) : option N :=
  if (b =? 92) && (u =? 117) then
    match decode_uXXXX a2 b2 c2 d2 with
    | Some uni2 => if low_surrogate uni2 then Some uni2 else None
    | None => None
    end
  else None.

Definition join_surrogates (uni uni2 : N) : N :=
  65536 + ((uni - 55296) * 1024 + (uni2 - 56320)).

Definition chunk (c : char) (r : option (str * str)) : option (str * str) :=
  match r with
  | Some (text, rest) => Some (c :: text, rest)
  | None => None
  end.

(** [scanstring], from behind the opening quote: the text of the string
    and what follows its closing quote.  Control characters are not
    allowed in a string (the decoder is strict). *)
Fixpoint scanstring (s : str) : option (str * str) :=
  match s with
  | [] => None
  | c :: rest =>
      if c =? 34 then Some ([], rest)
      else if c <? 32 then None
      else if c =? 92 then
        match rest with
        | [] => None
        | esc :: rest1 =>
            if esc =? 117 then
              match rest1 with
              | a :: b :: c' :: d :: rest5 =>
                  match decode_uXXXX a b c' d with
                  | None => None
                  | Some uni =>
                      match rest5 with
                      | b1 :: u1 :: a2 :: b2 :: c2 :: d2 :: rest11 =>
                          match (if high_surrogate uni
                                 then second_escape b1 u1 a2 b2 c2 d2
                                 else None) with
                          | Some uni2 =>
                              chunk (join_surrogates uni uni2)
                                (scanstring rest11)
                          | None => chunk uni (scanstring rest5)
                          end
                      | _ => chunk uni (scanstring rest5)
                      end
                  end
              | _ => None
              end
            else
              match backslash esc with
              | Some c' => chunk c' (scanstring rest1)
              | None => None
              end
        end
      else chunk c (scanstring rest)
  end.

(** [dict(pairs)]: a later pair with the same key replaces the value of
    the earlier one. *)
Definition dict_of (pairs : list (str * value)) : dict value :=
  fold_left (fun d kv => dict_set d (fst kv) (snd kv)) pairs [].

(** The values that are one token: [null], [true], [false], a numeral,
    and the constants [NaN], [Infinity] and [-Infinity]. *)
Definition atom (s : str) : option (value * str) :=
  if startswith s (lit "null") then Some (JNone, skipn 4 s)
  else if startswith s (lit "true") then Some (JBool true, skipn 4 s)
  else if startswith s (lit "false") then Some (JBool false, skipn 5 s)
  else
    match match_number s with
    | Some r => Some r
    | None =>
        if startswith s (lit "NaN")
        then Some (JFloat (lit "NaN"), skipn 3 s)
        else if startswith s (lit "Infinity")
        then Some (JFloat (lit "Infinity"), skipn 8 s)
        else if startswith s (lit "-Infinity")
        then Some (JFloat (lit "-Infinity"), skipn 9 s)
        else None
    end.

(** [scan_once], [JSONObject] from the first key on and [JSONArray] from
    the first item on.  [fuel] bounds the calls in progress. *)
Fixpoint scan_once (fuel : nat) (s : str) : option (value * str) :=
  match fuel with
  | O => None
  | S fuel =>
      match s with
      | [] => None
      | c :: rest =>
          if c =? 34 then
            match scanstring rest with
            | Some (text, rest) => Some (JStr text, rest)
            | None => None
            end
          else if c =? 123 then
            match skip_ws rest with
            | c' :: rest' =>
                if c' =? 125 then Some (JDict [], rest')
                else
                  match members fuel (skip_ws rest) with
                  | Some (pairs, rest) => Some (JDict (dict_of pairs), rest)
                  | None => None
                  end
            | [] => None
            end
          else if c =? 91 then
            match skip_ws rest with
            | c' :: rest' =>
                if c' =? 93 then Some (JList [], rest')
                else
                  match elements fuel (skip_ws rest) with
                  | Some (items, rest) => Some (JList items, rest)
                  | None => None
                  end
            | [] => None
            end
          else atom s
      end
  end
with members (fuel : nat) (s : str) : option (list (str * value) * str) :=
  match fuel with
  | O => None
  | S fuel =>
      match s with
      | [] => None
      | q :: rest =>
          if q =? 34 then
            match scanstring rest with
            | None => None
            | Some (key, rest) =>
                match skip_ws rest with
                | [] => None
                | colon :: rest =>
                    if colon =? 58 then
                      match scan_once fuel (skip_ws rest) with
                      | None => None
                      | Some (v, rest) =>
                          match skip_ws rest with
                          | [] => None
                          | d :: rest =>
                              if d =? 125 then Some ([(key, v)], rest)
                              else if d =? 44 then
                                match members fuel (skip_ws rest) with
                                | Some (more, rest) =>
                                    Some ((key, v) :: more, rest)
                                | None => None
                                end
                              else None
                          end
                      end
                    else None
                end
            end
          else None
      end
  end
with elements (fuel : nat) (s : str) : option (list value * str) :=
  match fuel with
  | O => None
  | S fuel =>
      match scan_once fuel s with
      | None => None
      | Some (v, rest) =>
          match skip_ws rest with
          | [] => None
          | d :: rest =>
              if d =? 93 then Some ([v], rest)
              else if d =? 44 then
                match elements fuel (skip_ws rest) with
                | Some (more, rest) => Some (v :: more, rest)
                | None => None
                end
              else None
          end
      end
  end.

(** [JSONDecoder.decode]: one value, with white space around it and
    nothing else; [None] stands for [JSONDecodeError]. *)
Definition decode (fuel : nat) (s : str) : option value :=
  match scan_once fuel (skip_ws s) with
  | Some (v, rest) =>
      match skip_ws rest with
      | [] => Some v
      | _ :: _ => None
      end
  | None => None
  end.

(** [json.loads(s)] for a [str].  Twice as much fuel as the text has
    characters is enough, whatever the text. *)
Definition loads (s : str) : option value := decode (2 * length s) s.




End Json.

(** ** [ControllerModel] (main.py): the decision service

    [json.loads] and the HTTP exchange belong to libraries: the decoder is
    a parameter ([None] stands for [json.JSONDecodeError]), and the
    exchange is given by its outcome. *)
Module ControllerModel.
Import Py.

Inductive error :=
| RuntimeError (message : str)
| HTTPError.

Inductive result (A : Type) :=
| Return (value : A)
| Raise (e : error).
Arguments Return {A} value.
Arguments Raise {A} e.

(** What [requests.post] and [raise_for_status] leave: an HTTP failure, or
    the text at [choices[0].message.content] of the response. *)
Inductive response :=
| Failed
| Content (content : str).

(** The text handed to [json.loads]: trimmed, then without the optional
    code fence. *)
Definition candidate_of (text : str) : str :=
  let candidate := strip text in
  if startswith candidate (lit "```") then
    let candidate := strip_chars (lit "`") candidate in
    if startswith (lower candidate) (lit "json")
    then slice_from candidate 4
    else candidate
  else candidate.

Section Decoder.
Variable json : Type.
Variable json_loads : str -> option json.

Definition _parse_json (text : str) : result json :=
  let candidate := candidate_of text in
  match json_loads candidate with
  | Some value => Return value
  | None =>
      Raise (RuntimeError
               (lit "Controller response is not valid JSON: " ++ candidate))
  end.

Definition decide (resp : response) : result json :=
  match resp with
  | Failed => Raise HTTPError
  | Content content => _parse_json (strip content)
  end.

End Decoder.




End ControllerModel.

(** ** The prompts (plan/prompts.py) *)
Module Prompts.
Import Py.

Definition build_thinking_prompt (question : str) (notes : list str) : str :=
  let filtered := filter truthy notes in
  let joined :=
    let bullets :=
      join [10%N] (map (fun note => lit "- " ++ note) filtered) in
    if truthy bullets then bullets else lit "- Organizing possible answers" in
  lit "User question: " ++ question ++ [10%N]
  ++ lit "Preliminary thoughts:" ++ [10%N] ++ joined ++ [10%N]
  ++ lit "Follow the system prompt to generate visible thinking phrases.".

End Prompts.

(** ** [Orchestrator] (plan/orchestrator.py)

    The two relays are coroutines: each is a state with a program point,
    the place where it is suspended, and a function that runs it from one
    suspension to the next, given what the awaited call delivers.  The
    turn is the event loop's interleaving of the two relays with the two
    producer threads of the streamers and with the passing of time.

    The file imports [ChatGPTSentenceStreamer] from [utils.streamer]; the
    class of that name in main.py is the one embedded above and run
    here. *)
Module Orchestrator.
Import Py.

Definition MAX_THINKING_CUES : nat := 12.
Definition THINKING_DURATION_SECONDS : Q := 10%Q.
Definition THINKING_PAUSE_SECONDS : Q := (1 # 2)%Q.
Definition THINKING_FALLBACK_LINES : list str :=
  [ lit "Let me think this through.";
    lit "I'm weighing a couple of options.";
    lit "Checking what I already know.";
    lit "Almost ready with an answer.";
    lit "Considering how this fits your question." ].

(** [normalize_thinking_notes], the same function as in main.py. *)
Definition normalize_thinking_notes (notes : Main.notes_value) : list str :=
  match notes with
  | Main.NotesList items => map str_of (filter bool_of items)
  | Main.NotesStr s => if truthy (strip s) then [strip s] else []
  | Main.NotesOther => []
  end.

Definition _is_meaningful_thinking_cue (text : str) : bool :=
  let stripped := strip text in
  let stripped := strip_chars (lit ".!?" ++ [8230%N]) stripped in
  truthy stripped.

(** What the turn does to the outside, and to the objects the relays
    share. *)
Inductive event :=
| Print (line : str)              (* cprint(line) *)
| Speak (text : str)              (* furhat_client.request_speak_text(text) *)
| ThinkingBehavior (index : nat)  (* behavior_generator.perform_thinking_behavior(index) *)
| ThinkingMode (active : bool)    (* behavior_generator.set_thinking_mode(active) *)
| BarrierClear                    (* thinking_window_done.clear() *)
| BarrierSet.                     (* thinking_window_done.set() *)

(** The decision of the controller, as [run] and [_respond_directly] read
    it with [dict.get]: [None] is a missing key or a JSON null. *)
Record decision := {
  need_thinking : bool;
  confidence : option str;
  answer : option str;
  thinking_notes : list str;
  reasoning_hint : str
}.

Definition apology : str :=
  lit "I'm sorry, I can't provide an answer at the moment.".

(** [confidence_hint if confidence_hint in CONFIDENCE_BEHAVIORS else "medium"] *)
Definition direct_confidence (confidence_hint : option str) : str :=
  match confidence_hint with
  | Some h =>
      if dict_mem BehaviorGenerator.CONFIDENCE_BEHAVIORS h then h
      else lit "medium"
  | None => lit "medium"
  end.

(** [_respond_directly]: the events, and [self.current_answer_text].
    [furhat_client] tells whether a client is attached. *)
Definition _respond_directly (furhat_client : bool) (d : decision)
    (confidence_hint : option str) : list event * str :=
  let answer :=
    strip (match answer d with
           | Some a => if truthy a then a else []
           | None => []
           end) in
  let answer := if negb (truthy answer) then apology else answer in
  let confidence := direct_confidence confidence_hint in
  let (prefix, gesture_description) :=
    BehaviorGenerator.get_confidence_behavior confidence in
  let full_answer := strip (prefix ++ lit " " ++ answer) in
  ([ Print (lit "Robot directly responds (confidence=" ++ confidence
            ++ lit ", gesture=" ++ gesture_description ++ lit ")");
     Print (lit "Robot: " ++ full_answer) ]
   ++ (if furhat_client then [Speak full_answer] else []),
   full_answer).

(** *** Coroutines *)

(** How a coroutine leaves: it returns, an exception propagates out of it,
    or it is cancelled. *)
Inductive outcome := Completed | Failed | Cancelled.

(** What resumes a suspended coroutine. *)
Inductive resumption :=
| Yields (item : str)   (* the stream yields a clause *)
| Exhausted             (* the stream is exhausted *)
| Returns               (* the awaited call returns *)
| Raises                (* the awaited call raises *)
| Cancel.               (* CancelledError is thrown in *)

(** *** [_relay_thinking] *)

(** Where the thinking relay is suspended; [in_stream] tells the
    [async for] loop from the [while] loop of fallback lines. *)
Inductive thinking_pc :=
| TCreated
| TNext                                   (* async for cue in thinking_model.stream() *)
| TSpeak (in_stream : bool)               (* await furhat_client.request_speak_text(text) *)
| TBehave (in_stream : bool)              (* await perform_thinking_behavior(index) *)
| TSleep (in_stream : bool) (wake : Q)    (* await asyncio.sleep(THINKING_PAUSE_SECONDS) *)
| TDone (o : outcome) (exit_time : Q).

Record thinking := {
  t_pc : thinking_pc;
  started : Q;
  deadline : Q;
  emitted : nat;
  fallback_idx : nat
}.

Definition thinking_created : thinking :=
  {| t_pc := TCreated; started := 0%Q; deadline := 0%Q; emitted := 0;
     fallback_idx := 0 |}.

Definition t_goto (pc : thinking_pc) (st : thinking) : thinking :=
  {| t_pc := pc; started := started st; deadline := deadline st;
     emitted := emitted st; fallback_idx := fallback_idx st |}.

(** [loop.time() >= deadline or emitted >= MAX_THINKING_CUES] *)
Definition window_closed (now : Q) (st : thinking) : bool :=
  Qle_bool (deadline st) now || (MAX_THINKING_CUES <=? emitted st)%nat.

(** The [finally] block, and the exit. *)
Definition t_finally (now : Q) (o : outcome) (st : thinking)
  : thinking * list event :=
  (t_goto (TDone o now) st, [ThinkingMode false; BarrierSet]).

(** [emit_line(text, index)] up to its first suspension. *)
Definition emit_line (furhat_client : bool) (in_stream : bool) (text : str)
    (st : thinking) : thinking * list event :=
  if furhat_client
  then (t_goto (TSpeak in_stream) st,
        [Print (lit "Robot (thinking): " ++ text); Speak text])
  else (t_goto (TBehave in_stream) st,
        [Print (lit "Robot (thinking): " ++ text);
         ThinkingBehavior (emitted st)]).

(** The [while] loop, from the evaluation of its condition. *)
Definition fallback_loop (furhat_client : bool) (now : Q) (st : thinking)
  : thinking * list event :=
  if negb (Qle_bool (deadline st) now)
     && (emitted st <? MAX_THINKING_CUES)%nat
  then
    let filler :=
      nth (fallback_idx st mod length THINKING_FALLBACK_LINES)
          THINKING_FALLBACK_LINES [] in
    emit_line furhat_client false filler
      {| t_pc := t_pc st; started := started st; deadline := deadline st;
         emitted := emitted st; fallback_idx := fallback_idx st + 1 |}
  else t_finally now Completed st.

(** After [emit_line] has returned, in either loop. *)
Definition after_emit (furhat_client : bool) (now : Q) (in_stream : bool)
    (st : thinking) : thinking * list event :=
  let st := {| t_pc := t_pc st; started := started st;
               deadline := deadline st; emitted := emitted st + 1;
               fallback_idx := fallback_idx st |} in
  if window_closed now st then
    if in_stream then fallback_loop furhat_client now st
    else t_finally now Completed st
  else (t_goto (TSleep in_stream (now + THINKING_PAUSE_SECONDS)%Q) st, []).

(** One run of the thinking relay from a suspension to the next, at clock
    reading [now].  [None]: the resumption does not fit the program
    point. *)
Definition _relay_thinking (furhat_client : bool) (now : Q) (r : resumption)
    (st : thinking) : option (thinking * list event) :=
  match t_pc st, r with
  | TCreated, Returns =>
      Some ({| t_pc := TNext; started := now;
               deadline := (now + THINKING_DURATION_SECONDS)%Q;
               emitted := 0; fallback_idx := 0 |}, [])
  | TNext, Yields cue =>
      if window_closed now st then Some (fallback_loop furhat_client now st)
      else if negb (_is_meaningful_thinking_cue cue) then Some (st, [])
      else Some (emit_line furhat_client true cue st)
  | TNext, Exhausted => Some (fallback_loop furhat_client now st)
  | TNext, Raises => Some (t_finally now Failed st)
  | TSpeak in_stream, Returns =>
      Some (t_goto (TBehave in_stream) st, [ThinkingBehavior (emitted st)])
  | TSpeak _, Raises => Some (t_finally now Failed st)
  | TBehave in_stream, Returns => Some (after_emit furhat_client now in_stream st)
  | TBehave _, Raises => Some (t_finally now Failed st)
  | TSleep in_stream wake, Returns =>
      if in_stream then Some (t_goto TNext st, [])
      else Some (fallback_loop furhat_client now st)
  | TNext, Cancel | TSpeak _, Cancel | TBehave _, Cancel | TSleep _ _, Cancel =>
      Some (t_finally now Cancelled st)
  | _, _ => None
  end.

(** *** [_relay_answer] *)

Inductive answer_pc :=
| ACreated
| ANext                   (* async for clause in reasoning_model.stream() *)
| AWait (clause : str)    (* await self.thinking_window_done.wait() *)
| ASpeak                  (* await furhat_client.request_speak_text(full_answer) *)
| ADone (o : outcome).

Record answering := {
  a_pc : answer_pc;
  prefix : str;
  gesture_description : str;
  first_clause : bool;
  answer_parts : list str;
  full_answer_parts : list str;
  current_answer_text : str
}.

Definition answering_created : answering :=
  {| a_pc := ACreated; prefix := []; gesture_description := [];
     first_clause := true; answer_parts := []; full_answer_parts := [];
     current_answer_text := [] |}.

Definition a_goto (pc : answer_pc) (st : answering) : answering :=
  {| a_pc := pc; prefix := prefix st;
     gesture_description := gesture_description st;
     first_clause := first_clause st; answer_parts := answer_parts st;
     full_answer_parts := full_answer_parts st;
     current_answer_text := current_answer_text st |}.

(** The loop body after the [if first_clause:] block. *)
Definition take_clause (clause : str) (st : answering)
  : answering * list event :=
  let full_clause :=
    if truthy (prefix st) then strip (prefix st ++ lit " " ++ clause)
    else clause in
  ({| a_pc := ANext; prefix := prefix st;
      gesture_description := gesture_description st;
      first_clause := first_clause st;
      answer_parts := answer_parts st ++ [clause];
      full_answer_parts := full_answer_parts st ++ [clause];
      current_answer_text := current_answer_text st |},
   [Print (lit "Robot: " ++ full_clause)]).

(** The [if first_clause:] block once the wait on the barrier is over,
    then the rest of the loop body. *)
Definition hand_off (confidence_hint : option str) (word_count : nat)
    (clause : str) (st : answering) : answering * list event :=
  let confidence_level :=
    BehaviorGenerator.resolve_confidence confidence_hint (Z.of_nat word_count) in
  let (prefix, gesture_description) :=
    BehaviorGenerator.get_confidence_behavior confidence_level in
  let st := {| a_pc := a_pc st; prefix := prefix;
               gesture_description := gesture_description;
               first_clause := false; answer_parts := answer_parts st;
               full_answer_parts := full_answer_parts st;
               current_answer_text := current_answer_text st |} in
  let (st, evs) := take_clause clause st in
  (st, Print (lit "Robot switches to answer mode (confidence="
              ++ confidence_level ++ lit ", gesture=" ++ gesture_description
              ++ lit ")") :: evs).

(** The last statement: [if gesture_description: cprint(...)]. *)
Definition show_gesture (st : answering) : answering * list event :=
  (a_goto (ADone Completed) st,
   if truthy (gesture_description st)
   then [Print (lit "Robot (non-verbal gesture): " ++ gesture_description st)]
   else []).

(** After the loop: [if full_answer_parts: ...]. *)
Definition send_answer (furhat_client : bool) (st : answering)
  : answering * list event :=
  match full_answer_parts st with
  | [] => show_gesture st
  | _ =>
      let full_answer :=
        if truthy (prefix st)
        then strip (prefix st ++ lit " " ++ join (lit " ") (full_answer_parts st))
        else join (lit " ") (full_answer_parts st) in
      let st := {| a_pc := a_pc st; prefix := prefix st;
                   gesture_description := gesture_description st;
                   first_clause := first_clause st;
                   answer_parts := answer_parts st;
                   full_answer_parts := full_answer_parts st;
                   current_answer_text := full_answer |} in
      if furhat_client then (a_goto ASpeak st, [Speak full_answer])
      else show_gesture st
  end.

(** One run of the answer relay from a suspension to the next.
    [barrier] is the flag of [thinking_window_done]: [Event.wait] returns
    only when it is set.  [word_count] is [reasoning_model.word_count] as
    the producer thread has left it at that moment. *)
Definition _relay_answer (furhat_client : bool) (confidence_hint : option str)
    (barrier : bool) (word_count : nat) (r : resumption) (st : answering)
  : option (answering * list event) :=
  match a_pc st, r with
  | ACreated, Returns => Some (a_goto ANext st, [])
  | ANext, Yields clause =>
      if first_clause st then Some (a_goto (AWait clause) st, [])
      else Some (take_clause clause st)
  | ANext, Exhausted => Some (send_answer furhat_client st)
  | ANext, Raises => Some (a_goto (ADone Failed) st, [])
  | AWait clause, Returns =>
      if barrier then Some (hand_off confidence_hint word_count clause st)
      else None
  | ASpeak, Returns => Some (show_gesture st)
  | ASpeak, Raises => Some (a_goto (ADone Failed) st, [])
  | ANext, Cancel | AWait _, Cancel | ASpeak, Cancel =>
      Some (a_goto (ADone Cancelled) st, [])
  | _, _ => None
  end.

(** *** A streamer at work: the producer thread and the queue of [stream] *)

Inductive queue_item :=
| Clause (clause : str)
| Exception
| EndOfStream.            (* the [None] that ends the stream *)

Record streamer := {
  token_stream : list str;      (* what [_token_stream] has still to yield *)
  token_stream_fails : bool;    (* whether it then raises *)
  thread_started : bool;
  thread_finished : bool;
  buffer : str;
  word_count : nat;
  ready : list str;             (* popped, not yet yielded *)
  queue : list queue_item
}.

Definition new_streamer (tokens : list str) (fails : bool) : streamer :=
  {| token_stream := tokens; token_stream_fails := fails;
     thread_started := false; thread_finished := false;
     buffer := []; word_count := 0; ready := []; queue := [] |}.

Definition start_thread (m : streamer) : streamer :=
  {| token_stream := token_stream m;
     token_stream_fails := token_stream_fails m;
     thread_started := true; thread_finished := thread_finished m;
     buffer := buffer m; word_count := word_count m; ready := ready m;
     queue := queue m |}.

(** One step of [producer]: yield a popped clause into the queue, else read
    a token, else end (flush and [None], or the exception and [None]). *)
Definition producer_step (m : streamer) : option streamer :=
  if negb (thread_started m) || thread_finished m then None else
  match ready m, token_stream m with
  | clause :: rest, _ =>
      Some {| token_stream := token_stream m;
              token_stream_fails := token_stream_fails m;
              thread_started := true; thread_finished := false;
              buffer := buffer m; word_count := word_count m;
              ready := rest; queue := queue m ++ [Clause clause] |}
  | [], token :: tokens =>
      let buffer := buffer m ++ token in
      let word_count := length (split buffer) in
      let (ready, buffer) := ChatGPTSentenceStreamer._pop_ready_clauses buffer in
      Some {| token_stream := tokens;
              token_stream_fails := token_stream_fails m;
              thread_started := true; thread_finished := false;
              buffer := buffer; word_count := word_count;
              ready := ready; queue := queue m |}
  | [], [] =>
      let last_items :=
        if token_stream_fails m then [Exception; EndOfStream]
        else (if truthy (strip (buffer m)) then [Clause (strip (buffer m))]
              else []) ++ [EndOfStream] in
      Some {| token_stream := []; token_stream_fails := token_stream_fails m;
              thread_started := true; thread_finished := true;
              buffer := buffer m; word_count := word_count m;
              ready := []; queue := queue m ++ last_items |}
  end.

(** The producer thread left to run for [n] steps, or to its end. *)
Fixpoint produce (n : nat) (m : streamer) : streamer :=
  match n with
  | 0 => m
  | S n' =>
      match producer_step m with
      | Some m' => produce n' m'
      | None => m
      end
  end.

(** A producer thread at work on a stream that does not fail. *)
Definition at_work (tokens : list str) (buffer : str) (word_count : nat)
    (ready : list str) (queue : list queue_item) : streamer :=
  {| token_stream := tokens; token_stream_fails := false;
     thread_started := true; thread_finished := false;
     buffer := buffer; word_count := word_count; ready := ready;
     queue := queue |}.

(** A producer thread at work, on a stream that fails or not. *)
Definition working (fails : bool) (tokens : list str) (buffer : str)
    (word_count : nat) (ready : list str) (queue : list queue_item)
  : streamer :=
  {| token_stream := tokens; token_stream_fails := fails;
     thread_started := true; thread_finished := false;
     buffer := buffer; word_count := word_count; ready := ready;
     queue := queue |}.

(** What the loop of [stream] makes of the items of the queue: the clauses
    it yields, and how it ends ([None]: it is left waiting). *)
Fixpoint received (items : list queue_item) : list str * option resumption :=
  match items with
  | [] => ([], None)
  | Clause clause :: rest =>
      let (more, ending) := received rest in (clause :: more, ending)
  | Exception :: _ => ([], Some Raises)
  | EndOfStream :: _ => ([], Some Exhausted)
  end.

(** [await queue.get()] and the dispatch on the item in [stream]. *)
Definition queue_get (m : streamer) : option (resumption * streamer) :=
  match queue m with
  | [] => None
  | item :: rest =>
      let m' := {| token_stream := token_stream m;
                   token_stream_fails := token_stream_fails m;
                   thread_started := thread_started m;
                   thread_finished := thread_finished m;
                   buffer := buffer m; word_count := word_count m;
                   ready := ready m; queue := rest |} in
      Some (match item with
            | Clause clause => Yields clause
            | Exception => Raises
            | EndOfStream => Exhausted
            end, m')
  end.

(** *** The turn *)

(** Who acts: the body of [run], or one of the relays. *)
Inductive actor := RunBody | ThinkingRelay | AnswerRelay.

(** The state of a ThinkingAndAnswering turn.  [thinking_window_done] is
    the flag of the [asyncio.Event]; [trace] lists what was done, oldest
    first, with the clock reading and the actor. *)
Record system := {
  furhat_client : bool;
  confidence_hint : option str;
  clock : Q;
  thinking_window_done : bool;
  thinking_task : thinking;
  thinking_model : streamer;
  answer_task : answering;
  reasoning_model : streamer;
  trace : list (Q * actor * event)
}.

(** The flag of the event after [evs]. *)
Definition barrier_after (flag : bool) (evs : list event) : bool :=
  fold_left (fun flag e =>
               match e with
               | BarrierSet => true
               | BarrierClear => false
               | _ => flag
               end) evs flag.

Definition stamp (now : Q) (who : actor) (evs : list event)
  : list (Q * actor * event) :=
  map (fun e => (now, who, e)) evs.

Definition set_clock (now : Q) (s : system) : system :=
  {| furhat_client := furhat_client s; confidence_hint := confidence_hint s;
     clock := now; thinking_window_done := thinking_window_done s;
     thinking_task := thinking_task s; thinking_model := thinking_model s;
     answer_task := answer_task s; reasoning_model := reasoning_model s;
     trace := trace s |}.

Definition set_thinking_model (m : streamer) (s : system) : system :=
  {| furhat_client := furhat_client s; confidence_hint := confidence_hint s;
     clock := clock s; thinking_window_done := thinking_window_done s;
     thinking_task := thinking_task s; thinking_model := m;
     answer_task := answer_task s; reasoning_model := reasoning_model s;
     trace := trace s |}.

Definition set_reasoning_model (m : streamer) (s : system) : system :=
  {| furhat_client := furhat_client s; confidence_hint := confidence_hint s;
     clock := clock s; thinking_window_done := thinking_window_done s;
     thinking_task := thinking_task s; thinking_model := thinking_model s;
     answer_task := answer_task s; reasoning_model := m;
     trace := trace s |}.

(** Resume the thinking relay with [r]. *)
Definition resume_thinking (r : resumption) (s : system) : option system :=
  match _relay_thinking (furhat_client s) (clock s) r (thinking_task s) with
  | None => None
  | Some (st, evs) =>
      Some {| furhat_client := furhat_client s;
              confidence_hint := confidence_hint s;
              clock := clock s;
              thinking_window_done := barrier_after (thinking_window_done s) evs;
              thinking_task := st; thinking_model := thinking_model s;
              answer_task := answer_task s;
              reasoning_model := reasoning_model s;
              trace := trace s ++ stamp (clock s) ThinkingRelay evs |}
  end.

(** Resume the answer relay with [r]. *)
Definition resume_answer (r : resumption) (s : system) : option system :=
  match _relay_answer (furhat_client s) (confidence_hint s)
          (thinking_window_done s) (word_count (reasoning_model s)) r
          (answer_task s) with
  | None => None
  | Some (st, evs) =>
      Some {| furhat_client := furhat_client s;
              confidence_hint := confidence_hint s;
              clock := clock s;
              thinking_window_done := barrier_after (thinking_window_done s) evs;
              thinking_task := thinking_task s;
              thinking_model := thinking_model s;
              answer_task := st; reasoning_model := reasoning_model s;
              trace := trace s ++ stamp (clock s) AnswerRelay evs |}
  end.

(** What the event loop, the producer threads and the clock can do next.
    A relay is cancelled only where it is suspended: [run] creates the
    thinking task and awaits it, and cancels nothing, so no task is
    cancelled before its first step. *)
Inductive label :=
| Tick (d : Q)          (* time passes *)
| Produce (who : actor) (* the producer thread of the relay's streamer steps *)
| Get (who : actor)     (* the relay's [queue.get()] returns the next item *)
| Go (who : actor)      (* the relay starts, or the call it awaits returns *)
| Fault (who : actor)   (* the actuation call it awaits raises *)
| Kill (who : actor).   (* it is cancelled where it is suspended *)

Definition step (l : label) (s : system) : option system :=
  match l with
  | Tick d =>
      if Qle_bool 0 d then Some (set_clock (clock s + d)%Q s) else None
  | Produce ThinkingRelay =>
      option_map (fun m => set_thinking_model m s)
                 (producer_step (thinking_model s))
  | Produce AnswerRelay =>
      option_map (fun m => set_reasoning_model m s)
                 (producer_step (reasoning_model s))
  | Get ThinkingRelay =>
      match t_pc (thinking_task s), queue_get (thinking_model s) with
      | TNext, Some (r, m) => resume_thinking r (set_thinking_model m s)
      | _, _ => None
      end
  | Get AnswerRelay =>
      match a_pc (answer_task s), queue_get (reasoning_model s) with
      | ANext, Some (r, m) => resume_answer r (set_reasoning_model m s)
      | _, _ => None
      end
  | Go ThinkingRelay =>
      match t_pc (thinking_task s) with
      | TCreated =>
          resume_thinking Returns
            (set_thinking_model (start_thread (thinking_model s)) s)
      | TSpeak _ | TBehave _ => resume_thinking Returns s
      | TSleep _ wake =>
          if Qle_bool wake (clock s) then resume_thinking Returns s else None
      | TNext | TDone _ _ => None
      end
  | Go AnswerRelay =>
      match a_pc (answer_task s) with
      | ACreated =>
          resume_answer Returns
            (set_reasoning_model (start_thread (reasoning_model s)) s)
      | AWait _ | ASpeak => resume_answer Returns s
      | ANext | ADone _ => None
      end
  | Fault ThinkingRelay =>
      match t_pc (thinking_task s) with
      | TSpeak _ | TBehave _ => resume_thinking Raises s
      | _ => None
      end
  | Fault AnswerRelay =>
      match a_pc (answer_task s) with
      | ASpeak => resume_answer Raises s
      | _ => None
      end
  | Kill ThinkingRelay => resume_thinking Cancel s
  | Kill AnswerRelay => resume_answer Cancel s
  | Produce RunBody | Get RunBody | Go RunBody | Fault RunBody | Kill RunBody =>
      None
  end.

(** A schedule, run from [s]. *)
Fixpoint exec (schedule : list label) (s : system) : option system :=
  match schedule with
  | [] => Some s
  | l :: schedule' =>
      match step l s with
      | Some s' => exec schedule' s'
      | None => None
      end
  end.

(** What the two models stream in this turn. *)
Record completions := {
  thinking_tokens : list str;
  thinking_fails : bool;
  answer_tokens : list str;
  answer_fails : bool
}.

(** [run], after [self.controller.decide()] has returned [d]: either the
    whole DirectAnswer path, or the start of the two relays. *)
Inductive turn :=
| DirectAnswer (evs : list event) (answer_text : str)
| ThinkingAndAnswering (s : system).

(** The state in which the thinking task has been created and the answer
    relay is about to be awaited. *)
Definition spawn (client : bool) (question : str) (hint : option str)
    (llm : completions) (now : Q) : system :=
  {| furhat_client := client; confidence_hint := hint; clock := now;
     thinking_window_done :=
       barrier_after false
         [Print (lit "User: " ++ question); BarrierClear; ThinkingMode true];
     thinking_task := thinking_created;
     thinking_model := new_streamer (thinking_tokens llm) (thinking_fails llm);
     answer_task := answering_created;
     reasoning_model := new_streamer (answer_tokens llm) (answer_fails llm);
     trace := stamp now RunBody
                [Print (lit "User: " ++ question); BarrierClear;
                 ThinkingMode true] |}.

Definition run (client : bool) (question : str) (d : decision)
    (llm : completions) (now : Q) : turn :=
  let need_thinking := need_thinking d in
  let confidence_hint := confidence d in
  if negb need_thinking then
    let (evs, text) := _respond_directly client d confidence_hint in
    DirectAnswer
      ([Print (lit "User: " ++ question); BarrierClear; BarrierSet] ++ evs)
      text
  else ThinkingAndAnswering (spawn client question confidence_hint llm now).

(** *** Reading a turn *)

(** The texts handed to [request_speak_text], in order. *)
Fixpoint speak_calls (evs : list event) : list str :=
  match evs with
  | [] => []
  | Speak text :: rest => text :: speak_calls rest
  | _ :: rest => speak_calls rest
  end.

(** An output of the thinking relay: a printed cue, or a thinking
    behaviour. *)
Definition thinking_output (e : event) : bool :=
  match e with
  | Print line => startswith line (lit "Robot (thinking): ")
  | ThinkingBehavior _ => true
  | _ => false
  end.

(** What the DirectAnswer path says: the trimmed answer of the decision,
    or the apology when there is none. *)
Definition direct_answer (d : decision) : str :=
  let given := strip (match answer d with Some a => a | None => [] end) in
  match given with [] => apology | _ => given end.


(** What [who] did, with the clock readings, and without them. *)
Definition is_actor (who other : actor) : bool :=
  match who, other with
  | RunBody, RunBody | ThinkingRelay, ThinkingRelay
  | AnswerRelay, AnswerRelay => true
  | _, _ => false
  end.

Fixpoint timed_events_of (who : actor) (tr : list (Q * actor * event))
  : list (Q * event) :=
  match tr with
  | [] => []
  | (t, a, e) :: rest =>
      if is_actor who a then (t, e) :: timed_events_of who rest
      else timed_events_of who rest
  end.

Definition events_of (who : actor) (tr : list (Q * actor * event))
  : list event :=
  map snd (timed_events_of who tr).

(** The cues the thinking relay has printed. *)
Fixpoint cues (evs : list (Q * event)) : nat :=
  match evs with
  | [] => 0
  | (_, Print _) :: rest => S (cues rest)
  | _ :: rest => cues rest
  end.

(** The ordering the barrier is there for: whatever the answer relay did
    comes after the thinking relay's [thinking_window_done.set()]. *)
Definition barrier_first (tr : list (Q * actor * event)) : Prop :=
  forall pre t e post,
    tr = pre ++ (t, AnswerRelay, e) :: post ->
    exists t', In (t', ThinkingRelay, BarrierSet) pre.

Definition thinking_exited (s : system) : Prop :=
  exists o t, t_pc (thinking_task s) = TDone o t.

(** How long the thinking relay ran, once it has exited. *)
Definition thinking_run_time (s : system) : option Q :=
  match t_pc (thinking_task s) with
  | TDone _ exit_time => Some (exit_time - started (thinking_task s))%Q
  | _ => None
  end.

(** The spec's time bound: the relay runs no longer than the deadline plus
    one pause interval. *)
Definition within_window (s : system) : Prop :=
  match thinking_run_time s with
  | Some t => (t <= THINKING_DURATION_SECONDS + THINKING_PAUSE_SECONDS)%Q
  | None => True
  end.

(** A cue in flight: printed, and not yet counted in [emitted]. *)
Definition pending (st : thinking) : nat :=
  match t_pc st with
  | TSpeak _ | TBehave _ => 1
  | _ => 0
  end.

(** What holds of the thinking relay between its steps: [evs] is what it
    did so far, [flag] the flag of [thinking_window_done]. *)
Record thinking_invariant (st : thinking) (evs : list (Q * event))
    (flag : bool) : Prop := {
  nothing_before_start : t_pc st = TCreated -> evs = [];
  barrier_at_exit :
    match t_pc st with
    | TDone _ _ =>
        flag = true
        /\ exists pre t, evs = pre ++ [(t, BarrierSet)]
                         /\ ~ In BarrierSet (map snd pre)
    | _ => flag = false /\ ~ In BarrierSet (map snd evs)
    end;
  cues_counted :
    match t_pc st with
    | TDone _ _ => True
    | _ => cues evs = emitted st + pending st
    end;
  cues_capped : cues evs <= MAX_THINKING_CUES;
  cues_in_window :
    forall t line, In (t, Print line) evs -> (t < deadline st)%Q;
  pauses_in_window :
    forall b wake, t_pc st = TSleep b wake ->
                   (wake < deadline st + THINKING_PAUSE_SECONDS)%Q
}.

(** The relay between two cues: nothing signalled, every cue counted. *)
Definition between_cues (st : thinking) (evs : list (Q * event))
    (flag : bool) : Prop :=
  flag = false /\ ~ In BarrierSet (map snd evs)
  /\ cues evs = emitted st /\ emitted st <= MAX_THINKING_CUES
  /\ (forall t line, In (t, Print line) evs -> (t < deadline st)%Q).

(** What holds of the answer relay between its steps. *)
Record answer_invariant (st : answering) (evs : list (Q * event))
    (flag : bool) : Prop := {
  silent_before_hand_off :
    first_clause st = true ->
    evs = [] /\ full_answer_parts st = [] /\ gesture_description st = []
    /\ a_pc st <> ASpeak;
  hand_off_after_barrier : first_clause st = false -> flag = true
}.

Record invariant (s : system) : Prop := {
  of_thinking :
    thinking_invariant (thinking_task s)
      (timed_events_of ThinkingRelay (trace s)) (thinking_window_done s);
  of_answer :
    answer_invariant (answer_task s)
      (timed_events_of AnswerRelay (trace s)) (thinking_window_done s);
  of_trace : barrier_first (trace s);
  of_deadline :
    t_pc (thinking_task s) <> TCreated ->
    deadline (thinking_task s)
    = (started (thinking_task s) + THINKING_DURATION_SECONDS)%Q
}.

(** The events of a turn, in order. *)
Definition turn_events (t : turn) : list event :=
  match t with
  | DirectAnswer evs _ => evs
  | ThinkingAndAnswering s => map snd (trace s)
  end.


(** *** Reading what the relays said *)

(** The lines printed, and the indices handed to
    [perform_thinking_behavior], in order. *)
Fixpoint printed (evs : list event) : list str :=
  match evs with
  | [] => []
  | Print line :: rest => line :: printed rest
  | _ :: rest => printed rest
  end.

Fixpoint behaviours (evs : list event) : list nat :=
  match evs with
  | [] => []
  | ThinkingBehavior index :: rest => index :: behaviours rest
  | _ :: rest => behaviours rest
  end.

(** The flag of [set_thinking_mode] after [evs]. *)
Definition thinking_mode_after (mode : bool) (evs : list event) : bool :=
  fold_left (fun mode e =>
               match e with
               | ThinkingMode active => active
               | _ => mode
               end) evs mode.

Definition cue_line (text : str) : str := lit "Robot (thinking): " ++ text.

(** The filler of the [while] loop when [fallback_idx] is [i]. *)
Definition fallback_line (i : nat) : str :=
  nth (i mod length THINKING_FALLBACK_LINES) THINKING_FALLBACK_LINES [].

(** Whether the relay is still in its [async for] loop. *)
Definition in_the_stream (st : thinking) : bool :=
  match t_pc st with
  | TCreated | TNext => true
  | TSpeak in_stream | TBehave in_stream | TSleep in_stream _ => in_stream
  | TDone _ _ => false
  end.

(** The thinking relay has printed the cues [texts], the last [idx] of
    them fallback lines, and handed the indices below [shown] to
    [perform_thinking_behavior]. *)
Definition thought_so_far (client : bool) (idx : nat) (evs : list event)
    (texts : list str) (shown : nat) : Prop :=
  printed evs = map cue_line texts
  /\ speak_calls evs = (if client then texts else [])
  /\ behaviours evs = seq 0 shown
  /\ exists cues,
       texts = cues ++ map fallback_line (seq 0 idx)
       /\ Forall (fun cue => _is_meaningful_thinking_cue cue = true) cues.

(** What holds of the output of the thinking relay between its steps. *)
Definition said_in_thought (client : bool) (st : thinking) (evs : list event)
  : Prop :=
  (in_the_stream st = true -> fallback_idx st = 0)
  /\ match t_pc st with
     | TCreated => evs = []
     | TNext | TSleep _ _ =>
         exists texts,
           thought_so_far client (fallback_idx st) evs texts (emitted st)
           /\ length texts = emitted st
     | TSpeak _ =>
         exists texts,
           thought_so_far client (fallback_idx st) evs texts (emitted st)
           /\ length texts = emitted st + 1
     | TBehave _ =>
         exists texts,
           thought_so_far client (fallback_idx st) evs texts (emitted st + 1)
           /\ length texts = emitted st + 1
     | TDone _ _ =>
         exists texts shown,
           thought_so_far client (fallback_idx st) evs texts shown
           /\ (shown <= length texts <= shown + 1)%nat
     end.

(** The lines of the answer relay. *)
Definition hand_off_line (level gesture : str) : str :=
  lit "Robot switches to answer mode (confidence=" ++ level
  ++ lit ", gesture=" ++ gesture ++ lit ")".

Definition clause_line (pre clause : str) : str :=
  lit "Robot: " ++ strip (pre ++ lit " " ++ clause).

Definition gesture_line (gesture : str) : str :=
  lit "Robot (non-verbal gesture): " ++ gesture.

Definition spoken_answer (pre : str) (parts : list str) : str :=
  strip (pre ++ lit " " ++ join (lit " ") parts).

(** What the answer relay has done once it has handed off at confidence
    [level] and taken the clauses [parts]. *)
Definition answer_lines (level : str) (parts : list str) : list event :=
  let (pre, gesture) := BehaviorGenerator.get_confidence_behavior level in
  Print (hand_off_line level gesture)
  :: map (fun clause => Print (clause_line pre clause)) parts.

Definition answer_end (client : bool) (level : str) (parts : list str)
  : list event :=
  let (pre, gesture) := BehaviorGenerator.get_confidence_behavior level in
  (if client then [Speak (spoken_answer pre parts)] else [])
  ++ [Print (gesture_line gesture)].

(** What holds of the output of the answer relay between its steps. *)
Definition said_in_answer (client : bool) (hint : option str)
    (st : answering) (evs : list event) : Prop :=
  full_answer_parts st = answer_parts st
  /\ if first_clause st
     then evs = [] /\ answer_parts st = [] /\ gesture_description st = []
          /\ a_pc st <> ASpeak
     else exists wc,
       let level :=
         BehaviorGenerator.resolve_confidence hint (Z.of_nat wc) in
       let (pre, gesture) := BehaviorGenerator.get_confidence_behavior level in
       prefix st = pre /\ gesture_description st = gesture
       /\ answer_parts st <> []
       /\ match a_pc st with
          | ANext => evs = answer_lines level (answer_parts st)
          | ASpeak =>
              client = true
              /\ evs = answer_lines level (answer_parts st)
                       ++ [Speak (spoken_answer pre (answer_parts st))]
              /\ current_answer_text st
                 = spoken_answer pre (answer_parts st)
          | ADone Completed =>
              evs = answer_lines level (answer_parts st)
                    ++ answer_end client level (answer_parts st)
              /\ current_answer_text st
                 = spoken_answer pre (answer_parts st)
          | ADone _ =>
              evs = answer_lines level (answer_parts st)
              \/ evs = answer_lines level (answer_parts st)
                       ++ [Speak (spoken_answer pre (answer_parts st))]
          | ACreated | AWait _ => False
          end.


(** What holds of the output of the two relays between the steps of the
    turn. *)
Definition output_invariant (client : bool) (hint : option str) (s : system)
  : Prop :=
  furhat_client s = client /\ confidence_hint s = hint
  /\ said_in_thought client (thinking_task s)
       (events_of ThinkingRelay (trace s))
  /\ said_in_answer client hint (answer_task s)
       (events_of AnswerRelay (trace s)).


(** *** Relating the answer relay to its stream *)

(** What the producer thread of a stream that does not fail has still to
    put in the queue. *)
Definition still_to_come (m : streamer) : list queue_item :=
  if thread_finished m then []
  else map Clause (ready m)
       ++ map Clause
            (ChatGPTSentenceStreamer.clauses
               (ChatGPTSentenceStreamer.generate_loop (token_stream m)
                  (buffer m)))
       ++ [EndOfStream].

(** What the answer relay has taken from the queue. *)
Definition taken (st : answering) : list queue_item :=
  map Clause (answer_parts st)
  ++ match a_pc st with
     | AWait clause => [Clause clause]
     | ASpeak | ADone Completed => [EndOfStream]
     | _ => []
     end.

(** Unless the relay failed or was cancelled, what it has taken, what
    waits in the queue and what is still to come make up the clauses of
    the stream and the end marker. *)
Definition relayed (tokens : list str) (st : answering) (m : streamer)
  : Prop :=
  match a_pc st with
  | ADone Failed | ADone Cancelled => True
  | _ =>
      token_stream_fails m = false
      /\ taken st ++ queue m ++ still_to_come m
         = map Clause
             (ChatGPTSentenceStreamer.clauses
                (ChatGPTSentenceStreamer._generate_clauses tokens))
           ++ [EndOfStream]
  end.


(** *** Going on to the end *)

(** [k] steps of the producer thread, each of which it can take. *)
Fixpoint run_producer (k : nat) (m : streamer) : option streamer :=
  match k with
  | 0 => Some m
  | S k' =>
      match producer_step m with
      | Some m' => run_producer k' m'
      | None => None
      end
  end.


(** A step in which nothing fails and nothing is cancelled. *)
Definition undisturbed (l : label) : bool :=
  match l with
  | Fault _ | Kill _ => false
  | _ => true
  end.

(** The producer thread runs, and the end of the stream has not been
    taken from the queue. *)
Definition stream_open (m : streamer) : Prop :=
  thread_started m = true
  /\ (thread_finished m = true ->
      exists pre, queue m = pre ++ [EndOfStream]).

(** Whether the relay will read its stream again. *)
Definition reads_on (st : thinking) : bool :=
  match t_pc st with
  | TNext => true
  | TSpeak in_stream | TBehave in_stream | TSleep in_stream _ => in_stream
  | TCreated | TDone _ _ => false
  end.

Definition awaits_clause (st : answering) : bool :=
  match a_pc st with
  | ANext | AWait _ => true
  | _ => false
  end.

(** What holds of the streams between the steps of the turn. *)
Record live (s : system) : Prop := {
  thinking_unstarted :
    t_pc (thinking_task s) = TCreated ->
    thread_started (thinking_model s) = false
    /\ thread_finished (thinking_model s) = false;
  thinking_stream_open :
    reads_on (thinking_task s) = true -> stream_open (thinking_model s);
  answer_unstarted :
    a_pc (answer_task s) = ACreated ->
    thread_started (reasoning_model s) = false
    /\ thread_finished (reasoning_model s) = false;
  answer_stream_open :
    awaits_clause (answer_task s) = true -> stream_open (reasoning_model s)
}.

(** Both relays have left. *)
Definition turn_over (s : system) : Prop :=
  thinking_exited s /\ exists o, a_pc (answer_task s) = ADone o.


End Orchestrator.

(** ** The Orchestrator of main.py

    The older orchestrator has no barrier and no deadline: its answer relay
    sets [stop_thinking] at its first clause, and its thinking relay looks
    at that flag each time a cue arrives.  The streamers, the producer
    threads and the schedules are those of [Orchestrator]. *)
Module MainOrchestrator.
Import Py.

Definition MAX_THINKING_CUES : nat := 4.

Inductive event :=
| Print (line : str)   (* cprint(line) *)
| StopThinking.        (* self.stop_thinking.set() *)

Inductive relay_pc :=
| Created
| Next                              (* async for ... in model.stream() *)
| Done (o : Orchestrator.outcome).

(** *** [_relay_thinking] *)

Record thinking := {
  t_pc : relay_pc;
  emitted : nat
}.

Definition _relay_thinking (stop_thinking : bool)
    (r : Orchestrator.resumption) (st : thinking)
  : option (thinking * list event) :=
  match t_pc st, r with
  | Created, Orchestrator.Returns => Some ({| t_pc := Next; emitted := 0 |}, [])
  | Next, Orchestrator.Yields cue =>
      if stop_thinking
      then Some ({| t_pc := Done Orchestrator.Completed;
                    emitted := emitted st |}, [])
      else if negb (Main.is_meaningful_cue cue) then Some (st, [])
      else
        let emitted := emitted st + 1 in
        Some ({| t_pc := if (MAX_THINKING_CUES <=? emitted)%nat
                         then Done Orchestrator.Completed else Next;
                 emitted := emitted |},
              [Print (lit "Robot (thinking): " ++ cue)])
  | Next, Orchestrator.Exhausted =>
      Some ({| t_pc := Done Orchestrator.Completed; emitted := emitted st |},
            [])
  | Next, Orchestrator.Raises =>
      Some ({| t_pc := Done Orchestrator.Failed; emitted := emitted st |}, [])
  | Next, Orchestrator.Cancel =>
      Some ({| t_pc := Done Orchestrator.Cancelled; emitted := emitted st |},
            [])
  | _, _ => None
  end.

(** *** [_relay_answer] *)

Record answering := {
  a_pc : relay_pc;
  gesture : str;
  first_clause : bool
}.

Definition hand_off_line (level gesture : str) : str :=
  lit "Robot hands off to answer mode (confidence=" ++ level
  ++ lit ", gesture=" ++ gesture ++ lit ")".

(** [word_count] is [reasoning_model.word_count] as the producer thread
    has left it when the clause arrives.  A tier missing from
    [CONFIDENCE_BEHAVIORS] is a [KeyError], raised after the flag is
    set. *)
Definition _relay_answer (confidence_hint : option str) (word_count : nat)
    (r : Orchestrator.resumption) (st : answering)
  : option (answering * list event) :=
  match a_pc st, r with
  | Created, Orchestrator.Returns =>
      Some ({| a_pc := Next; gesture := []; first_clause := true |}, [])
  | Next, Orchestrator.Yields clause =>
      if first_clause st then
        let confidence_level :=
          Main.resolve_confidence confidence_hint (Z.of_nat word_count) in
        match dict_get Main.CONFIDENCE_BEHAVIORS confidence_level with
        | None =>
            Some ({| a_pc := Done Orchestrator.Failed; gesture := gesture st;
                     first_clause := true |}, [StopThinking])
        | Some (_, gesture) =>
            Some ({| a_pc := Next; gesture := gesture;
                     first_clause := false |},
                  [ StopThinking;
                    Print (hand_off_line confidence_level gesture);
                    Print (lit "Robot: " ++ clause) ])
        end
      else Some (st, [Print (lit "Robot: " ++ clause)])
  | Next, Orchestrator.Exhausted =>
      Some ({| a_pc := Done Orchestrator.Completed; gesture := gesture st;
               first_clause := first_clause st |},
            if truthy (gesture st)
            then [Print (lit "Robot (nonverbal): " ++ gesture st)]
            else [])
  | Next, Orchestrator.Raises =>
      Some ({| a_pc := Done Orchestrator.Failed; gesture := gesture st;
               first_clause := first_clause st |}, [])
  | Next, Orchestrator.Cancel =>
      Some ({| a_pc := Done Orchestrator.Cancelled; gesture := gesture st;
               first_clause := first_clause st |}, [])
  | _, _ => None
  end.

(** *** The turn *)

(** [finally_reached] tells whether the [finally] block of [run] has set
    the flag. *)
Record system := {
  confidence_hint : option str;
  stop_thinking : bool;
  thinking_task : thinking;
  thinking_model : Orchestrator.streamer;
  answer_task : answering;
  reasoning_model : Orchestrator.streamer;
  finally_reached : bool;
  trace : list (Orchestrator.actor * event)
}.

(** The flag of [stop_thinking] after [evs]. *)
Definition stop_after (flag : bool) (evs : list event) : bool :=
  fold_left (fun flag e =>
               match e with
               | StopThinking => true
               | Print _ => flag
               end) evs flag.

Definition stamp (who : Orchestrator.actor) (evs : list event)
  : list (Orchestrator.actor * event) :=
  map (pair who) evs.

Definition set_thinking_model (m : Orchestrator.streamer) (s : system)
  : system :=
  {| confidence_hint := confidence_hint s; stop_thinking := stop_thinking s;
     thinking_task := thinking_task s; thinking_model := m;
     answer_task := answer_task s; reasoning_model := reasoning_model s;
     finally_reached := finally_reached s; trace := trace s |}.

Definition set_reasoning_model (m : Orchestrator.streamer) (s : system)
  : system :=
  {| confidence_hint := confidence_hint s; stop_thinking := stop_thinking s;
     thinking_task := thinking_task s; thinking_model := thinking_model s;
     answer_task := answer_task s; reasoning_model := m;
     finally_reached := finally_reached s; trace := trace s |}.

Definition resume_thinking (r : Orchestrator.resumption) (s : system)
  : option system :=
  match _relay_thinking (stop_thinking s) r (thinking_task s) with
  | None => None
  | Some (st, evs) =>
      Some {| confidence_hint := confidence_hint s;
              stop_thinking := stop_after (stop_thinking s) evs;
              thinking_task := st; thinking_model := thinking_model s;
              answer_task := answer_task s;
              reasoning_model := reasoning_model s;
              finally_reached := finally_reached s;
              trace := trace s ++ stamp Orchestrator.ThinkingRelay evs |}
  end.

Definition resume_answer (r : Orchestrator.resumption) (s : system)
  : option system :=
  match _relay_answer (confidence_hint s)
          (Orchestrator.word_count (reasoning_model s)) r (answer_task s) with
  | None => None
  | Some (st, evs) =>
      Some {| confidence_hint := confidence_hint s;
              stop_thinking := stop_after (stop_thinking s) evs;
              thinking_task := thinking_task s;
              thinking_model := thinking_model s;
              answer_task := st; reasoning_model := reasoning_model s;
              finally_reached := finally_reached s;
              trace := trace s ++ stamp Orchestrator.AnswerRelay evs |}
  end.

(** The [finally] block of [run], once the answer relay has left. *)
Definition run_finally (s : system) : option system :=
  match a_pc (answer_task s), finally_reached s with
  | Done _, false =>
      Some {| confidence_hint := confidence_hint s; stop_thinking := true;
              thinking_task := thinking_task s;
              thinking_model := thinking_model s;
              answer_task := answer_task s;
              reasoning_model := reasoning_model s;
              finally_reached := true;
              trace := trace s ++ stamp Orchestrator.RunBody [StopThinking] |}
  | _, _ => None
  end.

(** The steps of the turn, with the labels of [Orchestrator]; time plays no
    part here, and no awaited call can fail. *)
Definition step (l : Orchestrator.label) (s : system) : option system :=
  match l with
  | Orchestrator.Tick _ => Some s
  | Orchestrator.Produce Orchestrator.ThinkingRelay =>
      option_map (fun m => set_thinking_model m s)
                 (Orchestrator.producer_step (thinking_model s))
  | Orchestrator.Produce Orchestrator.AnswerRelay =>
      option_map (fun m => set_reasoning_model m s)
                 (Orchestrator.producer_step (reasoning_model s))
  | Orchestrator.Get Orchestrator.ThinkingRelay =>
      match t_pc (thinking_task s),
            Orchestrator.queue_get (thinking_model s) with
      | Next, Some (r, m) => resume_thinking r (set_thinking_model m s)
      | _, _ => None
      end
  | Orchestrator.Get Orchestrator.AnswerRelay =>
      match a_pc (answer_task s),
            Orchestrator.queue_get (reasoning_model s) with
      | Next, Some (r, m) => resume_answer r (set_reasoning_model m s)
      | _, _ => None
      end
  | Orchestrator.Go Orchestrator.ThinkingRelay =>
      match t_pc (thinking_task s) with
      | Created =>
          resume_thinking Orchestrator.Returns
            (set_thinking_model
               (Orchestrator.start_thread (thinking_model s)) s)
      | _ => None
      end
  | Orchestrator.Go Orchestrator.AnswerRelay =>
      match a_pc (answer_task s) with
      | Created =>
          resume_answer Orchestrator.Returns
            (set_reasoning_model
               (Orchestrator.start_thread (reasoning_model s)) s)
      | _ => None
      end
  | Orchestrator.Go Orchestrator.RunBody => run_finally s
  | Orchestrator.Kill Orchestrator.ThinkingRelay =>
      resume_thinking Orchestrator.Cancel s
  | Orchestrator.Kill Orchestrator.AnswerRelay =>
      resume_answer Orchestrator.Cancel s
  | _ => None
  end.

Fixpoint exec (schedule : list Orchestrator.label) (s : system)
  : option system :=
  match schedule with
  | [] => Some s
  | l :: schedule' =>
      match step l s with
      | Some s' => exec schedule' s'
      | None => None
      end
  end.

Inductive turn :=
| DirectAnswer (lines : list str)
| ThinkingAndAnswering (s : system).

Definition spawn (question : str) (hint : option str)
    (llm : Orchestrator.completions) : system :=
  {| confidence_hint := hint; stop_thinking := false;
     thinking_task := {| t_pc := Created; emitted := 0 |};
     thinking_model :=
       Orchestrator.new_streamer (Orchestrator.thinking_tokens llm)
         (Orchestrator.thinking_fails llm);
     answer_task := {| a_pc := Created; gesture := []; first_clause := true |};
     reasoning_model :=
       Orchestrator.new_streamer (Orchestrator.answer_tokens llm)
         (Orchestrator.answer_fails llm);
     finally_reached := false;
     trace := stamp Orchestrator.RunBody
                [Print (lit "Participant: " ++ question)] |}.

(** [run], after [self.controller.decide()] has returned [d]. *)
Definition run (question : str) (d : Orchestrator.decision)
    (llm : Orchestrator.completions) : turn :=
  if negb (Orchestrator.need_thinking d) then
    DirectAnswer
      ((lit "Participant: " ++ question)
       :: Main._respond_directly (Orchestrator.answer d)
            (Orchestrator.confidence d))
  else ThinkingAndAnswering (spawn question (Orchestrator.confidence d) llm).

(** *** Reading a turn *)

Definition events_of (who : Orchestrator.actor)
    (tr : list (Orchestrator.actor * event)) : list event :=
  map snd (filter (fun x => Orchestrator.is_actor who (fst x)) tr).

Fixpoint printed (evs : list event) : list str :=
  match evs with
  | [] => []
  | Print line :: rest => line :: printed rest
  | StopThinking :: rest => printed rest
  end.

(** Once [stop_thinking] has been set, by whoever, the thinking relay
    prints nothing more. *)
Definition silenced_by_stop (tr : list (Orchestrator.actor * event)) : Prop :=
  forall pre who post line,
    tr = pre ++ (who, StopThinking) :: post ->
    ~ In (Orchestrator.ThinkingRelay, Print line) post.

(** What the answer relay has done once it has handed off at confidence
    [level], with the gesture [g], and printed [clauses]. *)
Definition answer_lines (level g : str) (clauses : list str) : list event :=
  [StopThinking; Print (hand_off_line level g)]
  ++ map (fun clause => Print (lit "Robot: " ++ clause)) clauses.

(** What holds of the turn between its steps. *)
Record invariant (s : system) : Prop := {
  stop_recorded :
    stop_thinking s = false -> forall who, ~ In (who, StopThinking) (trace s);
  stop_silences : silenced_by_stop (trace s);
  cues_none :
    t_pc (thinking_task s) = Created -> emitted (thinking_task s) = 0;
  cues_counted :
    exists cues,
      printed (events_of Orchestrator.ThinkingRelay (trace s))
      = map (app (lit "Robot (thinking): ")) cues
      /\ length cues = emitted (thinking_task s)
      /\ Forall (fun cue => Main.is_meaningful_cue cue = true) cues;
  cues_capped : emitted (thinking_task s) <= MAX_THINKING_CUES;
  cues_left :
    t_pc (thinking_task s) = Next ->
    emitted (thinking_task s) < MAX_THINKING_CUES;
  answer_none :
    a_pc (answer_task s) = Created -> first_clause (answer_task s) = true;
  answer_said :
    if first_clause (answer_task s)
    then gesture (answer_task s) = []
         /\ events_of Orchestrator.AnswerRelay (trace s) = []
    else exists wc pre g clauses,
      let level :=
        Main.resolve_confidence (confidence_hint s) (Z.of_nat wc) in
      dict_get Main.CONFIDENCE_BEHAVIORS level = Some (pre, g)
      /\ gesture (answer_task s) = g
      /\ g <> [] /\ clauses <> []
      /\ events_of Orchestrator.AnswerRelay (trace s)
         = answer_lines level g clauses
           ++ (match a_pc (answer_task s) with
               | Done Orchestrator.Completed =>
                   [Print (lit "Robot (nonverbal): " ++ g)]
               | _ => []
               end)
}.

End MainOrchestrator.


(** ** Turns used as examples *)
Module Scenarios.
Import Py.
Import Orchestrator.

(** The spec's example plan, and a turn in which the models stream
    nothing. *)
Definition paris_plan : decision :=
  {| need_thinking := false; confidence := Some (lit "high");
     answer := Some (lit "Paris is the capital.");
     thinking_notes := []; reasoning_hint := [] |}.

Definition silence : completions :=
  {| thinking_tokens := []; thinking_fails := false;
     answer_tokens := []; answer_fails := false |}.

Definition two_streams : completions :=
  {| thinking_tokens := [lit "Hmm. "; lit "Well..."]; thinking_fails := false;
     answer_tokens := [lit "Yes. It"; lit " is"]; answer_fails := false |}.

Definition broken_thinking_stream : completions :=
  {| thinking_tokens := []; thinking_fails := true;
     answer_tokens := [lit "Yes."]; answer_fails := false |}.

Definition start (client : bool) (llm : completions) : system :=
  spawn client (lit "Why?") None llm 0%Q.

(** The answer stream is fetched to its end, and its first clause handed
    to the answer relay, before the thinking stream has produced
    anything. *)
Definition answer_fetched_first : list label :=
  [ Go AnswerRelay; Go ThinkingRelay;
    Produce AnswerRelay; Produce AnswerRelay; Produce AnswerRelay;
    Produce AnswerRelay; Get AnswerRelay ].

(** Then one cue is spoken, the window closes, and the answer follows. *)
Definition thinking_then_answer : list label :=
  [ Produce ThinkingRelay; Produce ThinkingRelay; Get ThinkingRelay;
    Go ThinkingRelay; Go ThinkingRelay; Tick (1 # 2); Go ThinkingRelay;
    Tick 10; Produce ThinkingRelay; Produce ThinkingRelay; Get ThinkingRelay;
    Go AnswerRelay; Get AnswerRelay; Get AnswerRelay; Go AnswerRelay ].

(** The thinking stream yields its first clause 20 seconds after the relay
    has started. *)
Definition slow_stream : list label :=
  [ Go ThinkingRelay; Tick 20; Produce ThinkingRelay; Produce ThinkingRelay;
    Get ThinkingRelay ].

(** An empty thinking stream, then fallback lines every half second until
    the cap. *)
Definition fallback_until_cap : list label :=
  [ Go ThinkingRelay; Produce ThinkingRelay; Get ThinkingRelay ]
  ++ List.concat
       (repeat [Go ThinkingRelay; Tick (1 # 2); Go ThinkingRelay] 11)
  ++ [ Go ThinkingRelay ].

(** A decision that asks for visible thinking. *)
Definition thoughtful : decision :=
  {| need_thinking := true; confidence := None; answer := None;
     thinking_notes := []; reasoning_hint := [] |}.

(** The relay is cancelled while it waits for its first cue. *)
Definition cancelled_early : list label :=
  [ Go ThinkingRelay; Kill ThinkingRelay ].

(** The thinking stream fails at once. *)
Definition stream_failure : list label :=
  [ Go ThinkingRelay; Produce ThinkingRelay; Get ThinkingRelay ].

(** Turns of main.py's orchestrator: the answer hands off after the first
    thinking cue; and the answer stream is relayed to its end. *)
Definition main_start (llm : completions) : MainOrchestrator.system :=
  MainOrchestrator.spawn (lit "Why?") None llm.

Definition main_hand_off : list label :=
  [ Go ThinkingRelay; Go AnswerRelay;
    Produce ThinkingRelay; Produce ThinkingRelay; Get ThinkingRelay;
    Produce AnswerRelay; Produce AnswerRelay; Get AnswerRelay;
    Produce ThinkingRelay; Produce ThinkingRelay; Get ThinkingRelay ].



End Scenarios.

(** ** The Confidence Resolver as the spec words it *)
Module ResolverSpec.
Import Py.

Definition known_tier (h : str) : bool :=
  str_eqb h (lit "low") || str_eqb h (lit "medium") || str_eqb h (lit "high").

Definition by_word_count (word_count : Z) : str :=
  if (word_count <? 25)%Z then lit "low"
  else if (word_count <? 60)%Z then lit "medium"
  else lit "high".

(** "If hint is present and matches a known tier, return it verbatim.
    Otherwise: word_count < 25 -> low; < 60 -> medium; else -> high." *)
Definition resolve (hint : option str) (word_count : Z) : str :=
  match hint with
  | Some h => if known_tier h then h else by_word_count word_count
  | None => by_word_count word_count
  end.

(** The same with the hint compared after trimming and lower-casing. *)
Definition resolve_normalised (hint : option str) (word_count : Z) : str :=
  match hint with
  | Some h =>
      if known_tier (lower (strip h)) then lower (strip h)
      else by_word_count word_count
  | None => by_word_count word_count
  end.

End ResolverSpec.

(* ================================================================== *)
(** * Part II. Lemmas and theorems                                     *)
(* ================================================================== *)

Import Py.
Import ChatGPTSentenceStreamer.
Import Orchestrator.
Import Scenarios.

(** ** Stripping *)
Section Strip.
Variable p : char -> bool.

Lemma lstrip_by_idem (s : str) : lstrip_by p (lstrip_by p s) = lstrip_by p s.
Proof.
  induction s as [|c t IH]; simpl; auto.
  destruct (p c) eqn:E; auto. simpl. now rewrite E.
Qed.

Lemma lstrip_by_keep (s : str) (c : char) :
  p c = false -> lstrip_by p (s ++ [c]) = lstrip_by p s ++ [c].
Proof.
  intros Hc. induction s as [|d t IH]; simpl.
  - now rewrite Hc.
  - destruct (p d); auto.
Qed.

Lemma rstrip_by_cons (c : char) (s : str) :
  p c = false -> rstrip_by p (c :: s) = c :: rstrip_by p s.
Proof.
  intros Hc. unfold rstrip_by. simpl.
  rewrite lstrip_by_keep by assumption.
  rewrite rev_app_distr. reflexivity.
Qed.

Lemma rstrip_by_idem (s : str) : rstrip_by p (rstrip_by p s) = rstrip_by p s.
Proof.
  unfold rstrip_by. rewrite rev_involutive. now rewrite lstrip_by_idem.
Qed.

Lemma lstrip_by_head (s : str) :
  lstrip_by p s = [] \/ exists c t, lstrip_by p s = c :: t /\ p c = false.
Proof.
  induction s as [|c t IH]; simpl; auto.
  destruct (p c) eqn:E; auto. right. now exists c, t.
Qed.

Lemma strip_by_idem (s : str) : strip_by p (strip_by p s) = strip_by p s.
Proof.
  unfold strip_by.
  destruct (lstrip_by_head s) as [E | (c & t & E & Hc)]; rewrite E.
  - reflexivity.
  - rewrite (rstrip_by_cons c t Hc). simpl. rewrite Hc.
    rewrite <- (rstrip_by_cons c t Hc). apply rstrip_by_idem.
Qed.

(** A text whose first and last characters are kept is its own strip. *)
Lemma strip_by_fixed (c d : char) (m : str) :
  p c = false -> p d = false -> strip_by p (c :: m ++ [d]) = c :: m ++ [d].
Proof.
  intros Hc Hd. unfold strip_by. simpl. rewrite Hc.
  unfold rstrip_by.
  change (c :: m ++ [d]) with ((c :: m) ++ [d]).
  rewrite rev_app_distr. simpl. rewrite Hd.
  simpl. rewrite rev_app_distr, rev_involutive. reflexivity.
Qed.

Lemma strip_by_single (c : char) : p c = false -> strip_by p [c] = [c].
Proof. intros Hc. unfold strip_by, rstrip_by. simpl. now rewrite Hc; simpl; rewrite Hc. Qed.

Lemma keep_app (a b : str) : keep p (a ++ b) = keep p a ++ keep p b.
Proof. apply filter_app. Qed.

Lemma keep_lstrip_by (s : str) : keep p (lstrip_by p s) = keep p s.
Proof.
  induction s as [|c t IH]; simpl; auto.
  destruct (p c) eqn:E; simpl; rewrite ?E; auto.
Qed.

Lemma keep_rev (s : str) : keep p (rev s) = rev (keep p s).
Proof.
  induction s as [|c t IH]; simpl; auto.
  rewrite keep_app, IH. unfold keep at 2 3. simpl.
  destruct (p c); simpl; rewrite ?app_nil_r; reflexivity.
Qed.

Lemma keep_strip_by (s : str) : keep p (strip_by p s) = keep p s.
Proof.
  unfold strip_by, rstrip_by.
  now rewrite keep_rev, keep_lstrip_by, keep_rev, rev_involutive, keep_lstrip_by.
Qed.

Lemma lstrip_by_drop (a s : str) :
  forallb p a = true -> lstrip_by p (a ++ s) = lstrip_by p s.
Proof.
  induction a as [|c a IH]; simpl; auto.
  rewrite andb_true_iff. intros [-> H]. auto.
Qed.

Lemma rstrip_by_drop (s z : str) :
  forallb p z = true -> rstrip_by p (s ++ z) = rstrip_by p s.
Proof.
  intros H. unfold rstrip_by. rewrite rev_app_distr, lstrip_by_drop; auto.
  apply forallb_forall. intros c Hc. apply in_rev in Hc.
  now apply (proj1 (forallb_forall p z) H).
Qed.

Lemma rstrip_by_stop (m : str) (d : char) :
  p d = false -> rstrip_by p (m ++ [d]) = m ++ [d].
Proof.
  intros Hd. unfold rstrip_by. rewrite rev_app_distr. simpl. rewrite Hd.
  simpl. now rewrite rev_involutive.
Qed.

(** The last character of a non-empty strip is kept. *)
Lemma rstrip_by_last (s : str) :
  rstrip_by p s = [] \/ exists m d, rstrip_by p s = m ++ [d] /\ p d = false.
Proof.
  unfold rstrip_by.
  destruct (lstrip_by_head (rev s)) as [E | (c & t & E & Hc)]; rewrite E; auto.
  right. exists (rev t), c. simpl. auto.
Qed.

End Strip.

(** ** The segmenter *)

Lemma squeeze_app (a b : str) : squeeze (a ++ b) = squeeze a ++ squeeze b.
Proof. apply keep_app. Qed.

Lemma squeeze_strip (s : str) : squeeze (strip s) = squeeze s.
Proof. apply keep_strip_by. Qed.

Lemma strip_idem (s : str) : strip (strip s) = strip s.
Proof. apply strip_by_idem. Qed.

Lemma truthy_false (s : str) : truthy s = false -> s = [].
Proof. destruct s; simpl; congruence. Qed.

Lemma truthy_true (s : str) : truthy s = true -> s <> [].
Proof. destruct s; simpl; congruence. Qed.

Lemma skipn_succ (s : str) (n : nat) (c : char) (t : str) :
  skipn n s = c :: t -> skipn (n + 1) s = t.
Proof.
  intros E. rewrite Nat.add_comm, <- skipn_skipn, E. reflexivity.
Qed.

Lemma slice_skipn (s : str) (start stop : nat) :
  start <= stop -> skipn start s = slice s start stop ++ skipn stop s.
Proof.
  intros H. unfold slice.
  replace (skipn stop s) with (skipn (stop - start) (skipn start s)).
  - now rewrite firstn_skipn.
  - rewrite skipn_skipn. f_equal. lia.
Qed.

(** The scan deletes white space only, and whatever it adds to [clauses]
    is trimmed and not empty. *)
Lemma pop_loop_spec (text : str) :
  forall rest idx start acc,
    skipn idx text = rest -> start <= idx ->
    let (cl, st) := pop_loop text rest idx start acc in
    squeeze (List.concat cl ++ skipn st text)
      = squeeze (List.concat acc ++ skipn start text)
    /\ (Forall well_trimmed acc -> Forall well_trimmed cl).
Proof.
  induction rest as [|ch rest' IH]; intros idx start acc Hrest Hle; simpl.
  - split; auto.
  - pose proof (skipn_succ _ _ _ _ Hrest) as Hnext.
    destruct (is_terminal ch).
    + specialize (IH (idx + 1) (idx + 1)
        (if truthy (strip (slice text start (idx + 1)))
         then acc ++ [strip (slice text start (idx + 1))] else acc)
        Hnext (Nat.le_refl _)).
      destruct (pop_loop text rest' (idx + 1) (idx + 1) _) as [cl st].
      destruct IH as [IH1 IH2]. split.
      * rewrite IH1.
        rewrite (slice_skipn text start (idx + 1)) by lia.
        rewrite !squeeze_app.
        destruct (truthy (strip (slice text start (idx + 1)))) eqn:T.
        -- rewrite concat_app. simpl. rewrite app_nil_r.
           rewrite !squeeze_app, squeeze_strip. now rewrite !app_assoc.
        -- apply truthy_false in T.
           rewrite <- (squeeze_strip (slice text start (idx + 1))), T.
           reflexivity.
      * intros Hacc. apply IH2.
        destruct (truthy (strip (slice text start (idx + 1)))) eqn:T; auto.
        apply Forall_app. split; auto. constructor; auto.
        split; [now apply truthy_true | apply strip_idem].
    + specialize (IH (idx + 1) start acc Hnext).
      destruct (pop_loop text rest' (idx + 1) start acc) as [cl st].
      apply IH. lia.
Qed.

Lemma pop_ready_clauses_spec (text : str) :
  squeeze (List.concat (fst (_pop_ready_clauses text))
           ++ snd (_pop_ready_clauses text)) = squeeze text
  /\ Forall well_trimmed (fst (_pop_ready_clauses text)).
Proof.
  unfold _pop_ready_clauses, slice_from.
  pose proof (pop_loop_spec text text 0 0 [] eq_refl (Nat.le_refl _)) as H.
  destruct (pop_loop text text 0 0 []) as [cl st]. simpl in *.
  destruct H as [H1 H2]. split; auto.
Qed.

Lemma generate_loop_spec (tokens : list str) :
  forall buffer,
    squeeze (List.concat (clauses (generate_loop tokens buffer)))
      = squeeze (buffer ++ List.concat tokens)
    /\ Forall well_trimmed (clauses (generate_loop tokens buffer)).
Proof.
  induction tokens as [|token tokens' IH]; intros buffer; simpl.
  - rewrite app_nil_r.
    destruct (truthy (strip buffer)) eqn:T; simpl.
    + rewrite app_nil_r. split; [apply squeeze_strip|].
      constructor; auto. split; [now apply truthy_true | apply strip_idem].
    + apply truthy_false in T. split; auto.
      now rewrite <- (squeeze_strip buffer), T.
  - pose proof (pop_ready_clauses_spec (buffer ++ token)) as [P1 P2].
    destruct (_pop_ready_clauses (buffer ++ token)) as [ready rem].
    simpl in *. destruct (IH rem) as [I1 I2]. split.
    + rewrite concat_app, squeeze_app, I1, <- squeeze_app.
      rewrite app_assoc, squeeze_app, P1, <- squeeze_app.
      now rewrite <- app_assoc.
    + apply Forall_app. split; auto.
Qed.

(** *** The scan, read without indices *)

Lemma skipn_nil_length (s : str) (n : nat) : skipn n s = [] -> length s <= n.
Proof.
  intros H. pose proof (length_skipn n s) as L. rewrite H in L. simpl in L. lia.
Qed.

Lemma slice_length (s : str) (start stop : nat) :
  start <= stop -> stop <= length s -> length (slice s start stop) = stop - start.
Proof.
  intros H1 H2. unfold slice. rewrite length_firstn, length_skipn. lia.
Qed.

Lemma slice_snoc (s : str) (start idx : nat) (ch : char) (rest : str) :
  skipn idx s = ch :: rest -> start <= idx ->
  slice s start (idx + 1) = slice s start idx ++ [ch].
Proof.
  intros E H.
  assert (L : idx < length s).
  { destruct (Nat.lt_ge_cases idx (length s)) as [|G]; auto.
    rewrite (skipn_all2 s G) in E. discriminate. }
  unfold slice at 1. rewrite (slice_skipn s start idx H), E.
  replace (idx + 1 - start) with (length (slice s start idx) + 1)
    by (rewrite slice_length; lia).
  rewrite firstn_app_2. reflexivity.
Qed.

Lemma slice_empty (s : str) (n : nat) : slice s n n = [].
Proof. unfold slice. now rewrite Nat.sub_diag. Qed.

Lemma slice_to_end (s : str) (start idx : nat) :
  skipn idx s = [] -> slice s start idx = skipn start s.
Proof.
  intros E. apply skipn_nil_length in E. unfold slice.
  apply firstn_all2. rewrite length_skipn. lia.
Qed.

(** The loop over indices computes the scan. *)
Lemma pop_loop_scan (text : str) :
  forall rest idx start acc,
    skipn idx text = rest -> start <= idx ->
    fst (pop_loop text rest idx start acc)
      = acc ++ fst (scan (slice text start idx) rest)
    /\ skipn (snd (pop_loop text rest idx start acc)) text
       = snd (scan (slice text start idx) rest).
Proof.
  induction rest as [|ch rest' IH]; intros idx start acc E H; simpl.
  - rewrite app_nil_r. split; auto. symmetry. now apply slice_to_end.
  - pose proof (skipn_succ _ _ _ _ E) as En.
    rewrite <- (slice_snoc text start idx ch rest' E H).
    destruct (is_terminal ch).
    + destruct (IH (idx + 1) (idx + 1)
                  (if truthy (strip (slice text start (idx + 1)))
                   then acc ++ [strip (slice text start (idx + 1))] else acc)
                  En (Nat.le_refl _)) as [I1 I2].
      rewrite slice_empty in I1, I2.
      destruct (scan [] rest') as [more remainder]. simpl in *.
      rewrite I1, I2. split; auto.
      destruct (truthy (strip (slice text start (idx + 1)))); simpl; auto.
      now rewrite <- app_assoc.
    + apply IH; auto. lia.
Qed.

Lemma pop_ready_scan (text : str) : _pop_ready_clauses text = scan [] text.
Proof.
  unfold _pop_ready_clauses, slice_from.
  destruct (pop_loop_scan text text 0 0 [] eq_refl (Nat.le_refl _)) as [H1 H2].
  rewrite slice_empty in H1, H2.
  destruct (pop_loop text text 0 0 []) as [cl st].
  destruct (scan [] text) as [cl' rem]. simpl in *. now subst.
Qed.

Lemma terminal_not_space (c : char) : is_terminal c = true -> isspace c = false.
Proof.
  unfold is_terminal, char_in.
  change (lit ".?!") with [46%N; 63%N; 33%N]. cbn [existsb].
  rewrite !orb_true_iff, !N.eqb_eq.
  intros [-> | [-> | [-> | H]]]; try reflexivity. discriminate H.
Qed.

Lemma strip_snoc (cur : str) (ch : char) :
  isspace ch = false -> strip (cur ++ [ch]) = lstrip_by isspace cur ++ [ch].
Proof.
  intros H. unfold strip, strip_by.
  rewrite (lstrip_by_keep isspace cur ch H). now apply rstrip_by_stop.
Qed.

Lemma unterminated_app (a b : str) :
  unterminated (a ++ b) <-> unterminated a /\ unterminated b.
Proof. unfold unterminated. rewrite forallb_app, andb_true_iff. tauto. Qed.

Lemma unterminated_lstrip (p : char -> bool) (s : str) :
  unterminated s -> unterminated (lstrip_by p s).
Proof.
  unfold unterminated. induction s as [|c t IH]; simpl; auto.
  rewrite andb_true_iff. intros [H1 H2].
  destruct (p c); simpl; auto. now rewrite H1, H2.
Qed.

Lemma unterminated_rev (s : str) : unterminated s -> unterminated (rev s).
Proof.
  unfold unterminated. rewrite !forallb_forall. intros H c Hc.
  apply H. now apply in_rev.
Qed.

Lemma unterminated_strip (s : str) : unterminated s -> unterminated (strip s).
Proof.
  intros H. unfold strip, strip_by, rstrip_by.
  now apply unterminated_rev, unterminated_lstrip, unterminated_rev,
    unterminated_lstrip.
Qed.

Lemma scan_unterminated (rest : str) :
  forall cur, unterminated rest -> scan cur rest = ([], cur ++ rest).
Proof.
  unfold unterminated.
  induction rest as [|ch rest' IH]; intros cur H; simpl.
  - now rewrite app_nil_r.
  - simpl in H. apply andb_true_iff in H. destruct H as [H1 H2].
    apply negb_true_iff in H1. rewrite H1, (IH _ H2), <- app_assoc.
    reflexivity.
Qed.

Lemma scan_app (a b : str) :
  forall cur,
    fst (scan cur (a ++ b))
      = fst (scan cur a) ++ fst (scan (snd (scan cur a)) b)
    /\ snd (scan cur (a ++ b)) = snd (scan (snd (scan cur a)) b).
Proof.
  induction a as [|ch a' IH]; intros cur; simpl; auto.
  destruct (is_terminal ch); auto.
  destruct (IH []) as [I1 I2].
  destruct (scan [] (a' ++ b)) as [m r], (scan [] a') as [m' r'].
  simpl in *. rewrite I1, I2, app_assoc. auto.
Qed.

Lemma scan_remainder (rest : str) :
  forall cur, unterminated cur -> unterminated (snd (scan cur rest)).
Proof.
  induction rest as [|ch rest' IH]; intros cur H; simpl; auto.
  destruct (is_terminal ch) eqn:T.
  - specialize (IH [] eq_refl). now destruct (scan [] rest').
  - apply IH. apply unterminated_app. split; auto.
    unfold unterminated. simpl. now rewrite T.
Qed.

Lemma scan_sentences (rest : str) :
  forall cur, unterminated cur -> Forall sentence (fst (scan cur rest)).
Proof.
  induction rest as [|ch rest' IH]; intros cur H; simpl; auto.
  destruct (is_terminal ch) eqn:T.
  - specialize (IH [] eq_refl). destruct (scan [] rest') as [more r].
    simpl in *. rewrite (strip_snoc cur ch (terminal_not_space ch T)).
    apply Forall_app. split; auto.
    destruct (truthy _); constructor; auto.
    exists (lstrip_by isspace cur), ch. repeat split; auto.
    now apply unterminated_lstrip.
  - apply IH. apply unterminated_app. split; auto.
    unfold unterminated. simpl. now rewrite T.
Qed.

Lemma scan_count (rest : str) :
  forall cur, length (fst (scan cur rest)) = terminals rest.
Proof.
  unfold terminals.
  induction rest as [|ch rest' IH]; intros cur; simpl; auto.
  destruct (is_terminal ch) eqn:T; auto.
  specialize (IH []). destruct (scan [] rest') as [more r]. simpl in *.
  rewrite (strip_snoc cur ch (terminal_not_space ch T)).
  rewrite length_app, IH.
  now destruct (lstrip_by isspace cur).
Qed.

(** The clause flushed at the end of the stream, if any. *)
Lemma generate_loop_scan (tokens : list str) :
  forall buffer,
    unterminated buffer ->
    clauses (generate_loop tokens buffer)
    = fst (scan buffer (List.concat tokens))
      ++ (if truthy (strip (snd (scan buffer (List.concat tokens))))
          then [strip (snd (scan buffer (List.concat tokens)))] else []).
Proof.
  induction tokens as [|token tokens IH]; intros buffer H; simpl; auto.
  rewrite pop_ready_scan.
  destruct (scan_app buffer token []) as [A1 A2].
  rewrite (scan_unterminated buffer [] H) in A1, A2. simpl in A1, A2.
  destruct (scan_app token (List.concat tokens) buffer) as [B1 B2].
  destruct (scan [] (buffer ++ token)) as [ready rest]. simpl in *.
  subst ready rest.
  rewrite (IH _ (scan_remainder token buffer H)), B1, B2, app_assoc.
  reflexivity.
Qed.

(** C2, as the spec states it, fails: the clauses ["Ok.", "Go.", "Now."] cut
    from the one fragment "Ok.Go. Now." concatenate to "Ok.Go.Now.", and
    joined with spaces to "Ok. Go. Now."; neither is the input. *)
Lemma C2_lossless_counterexample :
  ~ lossless [lit "Ok.Go. Now."]
  /\ strip (join (lit " ") (clauses (_generate_clauses [lit "Ok.Go. Now."])))
     <> strip (concat [lit "Ok.Go. Now."]).
Proof. split; unfold lossless; vm_compute; discriminate. Qed.

(** *** The clauses within the text *)

Section StripPadding.
Variable p : char -> bool.

Lemma lstrip_by_all (s : str) : forallb p s = true -> lstrip_by p s = [].
Proof.
  induction s as [|c t IH]; simpl; auto.
  rewrite andb_true_iff. intros [-> H]. auto.
Qed.

Lemma lstrip_by_app (s z : str) :
  lstrip_by p (s ++ z)
  = if forallb p s then lstrip_by p z else lstrip_by p s ++ z.
Proof.
  induction s as [|c t IH]; simpl; auto.
  destruct (p c); simpl; auto.
Qed.

Lemma forallb_lstrip_empty (s : str) : lstrip_by p s = [] -> forallb p s = true.
Proof.
  induction s as [|c t IH]; simpl; auto.
  destruct (p c); simpl; auto. discriminate.
Qed.

(** Padding with characters that are stripped changes nothing. *)
Lemma strip_by_padding (a s z : str) :
  forallb p a = true -> forallb p z = true ->
  strip_by p (a ++ s ++ z) = strip_by p s.
Proof.
  intros Ha Hz. unfold strip_by.
  rewrite (lstrip_by_drop p a (s ++ z) Ha), lstrip_by_app.
  destruct (forallb p s) eqn:Hs.
  - now rewrite (lstrip_by_all z Hz), (lstrip_by_all s Hs).
  - now apply rstrip_by_drop.
Qed.

End StripPadding.

Section StripSplit.
Variable p : char -> bool.

Lemma lstrip_by_split (s : str) :
  exists gap, forallb p gap = true /\ s = gap ++ lstrip_by p s.
Proof.
  induction s as [|c t (gap & G & E)]; simpl.
  - now exists [].
  - destruct (p c) eqn:C.
    + exists (c :: gap). simpl. rewrite C, G. split; auto. now f_equal.
    + now exists [].
Qed.

Lemma rstrip_by_split (s : str) :
  exists z, forallb p z = true /\ s = rstrip_by p s ++ z.
Proof.
  unfold rstrip_by. destruct (lstrip_by_split (rev s)) as (gap & G & E).
  exists (rev gap). split.
  - apply forallb_forall. intros c Hc. apply in_rev in Hc.
    now apply (proj1 (forallb_forall p gap) G).
  - rewrite <- rev_app_distr, <- E. now rewrite rev_involutive.
Qed.

Lemma strip_by_split (s : str) :
  exists a z,
    forallb p a = true /\ forallb p z = true /\ s = a ++ strip_by p s ++ z.
Proof.
  destruct (lstrip_by_split s) as (a & A & E).
  destruct (rstrip_by_split (lstrip_by p s)) as (z & Z & F).
  exists a, z. unfold strip_by. rewrite <- F. auto.
Qed.

End StripSplit.

Lemma blank_strip (s : str) : blank s -> strip s = [].
Proof.
  intros H. unfold strip, strip_by.
  induction s as [|c t IH]; auto.
  unfold blank in H. simpl in H. apply andb_true_iff in H.
  destruct H as [H1 H2]. simpl. rewrite H1. now apply IH.
Qed.

Lemma strip_blank (s : str) : strip s = [] -> blank s.
Proof.
  intros H. destruct (strip_by_split isspace s) as (a & z & A & Z & E).
  fold (strip s) in E. rewrite H in E. rewrite E. unfold blank.
  simpl. now rewrite forallb_app, A, Z.
Qed.

Lemma well_trimmed_head (c : str) :
  well_trimmed c -> exists h t, c = h :: t /\ isspace h = false.
Proof.
  intros [N E]. unfold strip, strip_by in E.
  destruct (lstrip_by_head isspace c) as [L | (h & t & L & H)];
    rewrite L in E.
  - now subst c.
  - rewrite (rstrip_by_cons isspace h t H) in E. eauto.
Qed.

Lemma well_trimmed_last (c : str) :
  well_trimmed c -> exists m d, c = m ++ [d] /\ isspace d = false.
Proof.
  intros [N E]. unfold strip, strip_by in E.
  destruct (rstrip_by_last isspace (lstrip_by isspace c))
    as [L | (m & d & L & H)]; rewrite L in E.
  - now subst c.
  - eauto.
Qed.

(** A text that neither starts nor ends with white space is its own
    strip. *)
Lemma strip_ends (s t m : str) (h d : char) :
  s = h :: t -> isspace h = false -> s = m ++ [d] -> isspace d = false ->
  strip s = s.
Proof.
  intros E1 H E2 D. unfold strip, strip_by.
  assert (L : lstrip_by isspace s = s) by (rewrite E1; simpl; now rewrite H).
  rewrite L, E2. now apply rstrip_by_stop.
Qed.

Lemma with_gaps_last (gaps cs : list str) (last : str) :
  with_gaps gaps cs last = with_gaps gaps cs [] ++ last.
Proof.
  revert cs. induction gaps as [|g gaps IH]; intros [|c cs]; simpl; auto.
  now rewrite IH, <- !app_assoc.
Qed.

Lemma with_gaps_app (gaps gaps' cs cs' : list str) (last : str) :
  length gaps = length cs ->
  with_gaps (gaps ++ gaps') (cs ++ cs') last
  = with_gaps gaps cs (with_gaps gaps' cs' last).
Proof.
  revert cs. induction gaps as [|g gaps IH]; intros [|c cs] H; simpl in *;
    try discriminate; auto.
  rewrite IH by congruence. reflexivity.
Qed.

(** The scan lays the text out: every clause behind a gap of white space,
    the remainder last. *)
Lemma scan_gaps (rest : str) :
  forall cur,
  exists gaps,
    length gaps = length (fst (scan cur rest))
    /\ Forall blank gaps
    /\ cur ++ rest
       = with_gaps gaps (fst (scan cur rest)) (snd (scan cur rest)).
Proof.
  induction rest as [|ch rest' IH]; intros cur; simpl.
  - exists []. rewrite app_nil_r. auto.
  - destruct (is_terminal ch) eqn:T.
    + destruct (IH []) as (gaps & L & B & E).
      destruct (scan [] rest') as [more remainder]. simpl in *.
      rewrite (strip_snoc cur ch (terminal_not_space ch T)).
      destruct (lstrip_by_split isspace cur) as (gap & G & C).
      assert (Tr : truthy (lstrip_by isspace cur ++ [ch]) = true)
        by now destruct (lstrip_by isspace cur).
      rewrite Tr. exists (gap :: gaps). simpl. split; [congruence|].
      split; [now constructor|].
      rewrite <- E. rewrite C at 1. now rewrite <- !app_assoc.
    + destruct (IH (cur ++ [ch])) as (gaps & L & B & E).
      exists gaps. rewrite <- app_assoc in E. auto.
Qed.

(** The text a stream carries is its clauses, each behind a gap of white
    space, with white space after the last. *)
Lemma generate_gaps (tokens : list str) :
  exists gaps last,
    length gaps = length (clauses (_generate_clauses tokens))
    /\ Forall blank gaps /\ blank last
    /\ List.concat tokens
       = with_gaps gaps (clauses (_generate_clauses tokens)) last.
Proof.
  unfold _generate_clauses. rewrite (generate_loop_scan _ [] eq_refl).
  destruct (scan_gaps (List.concat tokens) []) as (gaps & L & B & E).
  simpl in E.
  set (remainder := snd (scan [] (List.concat tokens))) in *.
  destruct (truthy (strip remainder)) eqn:T.
  - destruct (strip_by_split isspace remainder) as (a & z & A & Z & R).
    fold (strip remainder) in R.
    exists (gaps ++ [a]), z. split; [rewrite !length_app, L; reflexivity|].
    split; [apply Forall_app; split; auto|]. split; [exact Z|].
    rewrite (with_gaps_app _ _ _ _ _ L). simpl. now rewrite <- R.
  - apply truthy_false, strip_blank in T.
    exists gaps, remainder. rewrite app_nil_r. auto.
Qed.

Lemma with_gaps_ends_kept (cs : list str) :
  Forall well_trimmed cs -> cs <> [] ->
  forall gaps, length gaps = length cs ->
  exists m d, with_gaps gaps cs [] = m ++ [d] /\ isspace d = false.
Proof.
  induction 1 as [|c cs W F IH]; intros N [|g gaps] L; try congruence;
    try discriminate.
  simpl in *. destruct cs as [|c' cs'].
  - destruct gaps; try discriminate.
    destruct (well_trimmed_last c W) as (m & d & -> & D).
    exists (g ++ m), d. simpl. rewrite app_nil_r, <- app_assoc. auto.
  - destruct (IH ltac:(discriminate) gaps ltac:(congruence))
      as (m & d & E & D).
    rewrite E. exists (g ++ c ++ m), d. now rewrite <- !app_assoc.
Qed.

(** Clauses laid out with nothing before the first are a trimmed text. *)
Lemma with_gaps_trimmed (gaps cs : list str) :
  Forall well_trimmed cs -> length ([] :: gaps) = length cs ->
  strip (with_gaps ([] :: gaps) cs []) = with_gaps ([] :: gaps) cs [].
Proof.
  intros F L.
  destruct (with_gaps_ends_kept cs F ltac:(now destruct cs) _ L)
    as (m & d & E & D).
  destruct cs as [|c cs]; try discriminate.
  destruct (well_trimmed_head c (Forall_inv F)) as (h & t & C & H).
  eapply strip_ends; eauto.
  simpl. rewrite C. simpl. reflexivity.
Qed.

(** Trimming the laid-out text leaves the clauses with the gaps between
    them. *)
Lemma strip_with_gaps (gaps cs : list str) (last : str) :
  Forall well_trimmed cs -> length gaps = length cs ->
  Forall blank gaps -> blank last ->
  strip (with_gaps gaps cs last) = with_gaps ([] :: tl gaps) cs [].
Proof.
  intros F L B Z. destruct gaps as [|g gaps], cs as [|c cs];
    try discriminate.
  - simpl. now apply blank_strip.
  - simpl tl. rewrite <- (with_gaps_trimmed gaps (c :: cs) F L).
    rewrite (with_gaps_last (g :: gaps)). cbn [with_gaps app].
    rewrite <- app_assoc.
    apply (strip_by_padding isspace g _ last); auto.
    now inversion B.
Qed.

Lemma blank_prefix_unique (g g' x x' : str) (h h' : char) :
  blank g -> blank g' -> isspace h = false -> isspace h' = false ->
  g ++ h :: x = g' ++ h' :: x' -> g = g' /\ h :: x = h' :: x'.
Proof.
  intros G G' H H' E.
  assert (T : h :: x = h' :: x').
  { apply (f_equal (lstrip_by isspace)) in E.
    rewrite !lstrip_by_drop in E by assumption.
    simpl in E. now rewrite H, H' in E. }
  split; auto. rewrite T in E. now apply app_inv_tail in E.
Qed.

(** The gaps of a laid-out text are determined by the text and the
    clauses. *)
Lemma with_gaps_inj (cs : list str) :
  Forall well_trimmed cs ->
  forall gaps gaps',
    length gaps = length cs -> length gaps' = length cs ->
    Forall blank gaps -> Forall blank gaps' ->
    with_gaps gaps cs [] = with_gaps gaps' cs [] -> gaps = gaps'.
Proof.
  induction 1 as [|c cs W F IH]; intros [|g gaps] [|g' gaps'] L L' B B' E;
    try discriminate; auto.
  simpl in *. destruct (well_trimmed_head c W) as (h & t & -> & H).
  pose proof (Forall_inv B) as G. pose proof (Forall_inv B') as G'.
  apply Forall_inv_tail in B, B'. simpl in E.
  destruct (blank_prefix_unique g g' _ _ h h G G' H H E) as [-> T].
  injection T as T. apply app_inv_head in T.
  f_equal. apply IH; auto.
Qed.

Lemma concat_with_gaps (cs : list str) :
  List.concat cs = with_gaps (map (fun _ => []) cs) cs [].
Proof. induction cs as [|c cs IH]; simpl; auto. now rewrite IH. Qed.

Lemma join_with_gaps (c : str) (cs : list str) :
  join (lit " ") (c :: cs)
  = with_gaps ([] :: map (fun _ => lit " ") cs) (c :: cs) [].
Proof.
  revert c. induction cs as [|c' cs IH]; intros c.
  - simpl. now rewrite app_nil_r.
  - change (join (lit " ") (c :: c' :: cs))
      with (c ++ lit " " ++ join (lit " ") (c' :: cs)).
    rewrite IH. reflexivity.
Qed.

Lemma all_equal {A B : Type} (x : A) (l : list A) (l' : list B) :
  length l = length l' ->
  (Forall (fun y => y = x) l <-> l = map (fun _ => x) l').
Proof.
  revert l'. induction l as [|y l IH]; intros [|y' l'] L; try discriminate.
  - simpl. split; auto.
  - simpl in *. injection L as L. specialize (IH l' L). split.
    + intros F. inversion F; subst. f_equal. now apply IH.
    + intros E. injection E as -> E. constructor; auto. now apply IH.
Qed.

(** The clauses laid out with the same gap [x] everywhere are the clauses
    laid out with [gaps] exactly when every gap is [x]. *)
Lemma same_gap_everywhere (x c : str) (cs gaps : list str) :
  blank x -> Forall well_trimmed (c :: cs) ->
  length gaps = length cs -> Forall blank gaps ->
  (with_gaps ([] :: map (fun _ => x) cs) (c :: cs) []
   = with_gaps ([] :: gaps) (c :: cs) []
   <-> Forall (fun gap => gap = x) gaps).
Proof.
  intros X F L B. rewrite (all_equal x gaps cs L). split.
  - intros E. apply (with_gaps_inj (c :: cs) F) in E.
    + now injection E.
    + simpl. now rewrite length_map.
    + simpl. now rewrite L.
    + constructor; [reflexivity|]. apply Forall_forall. intros g G.
      apply in_map_iff in G. now destruct G as (_ & <- & _).
    + constructor; [reflexivity | assumption].
  - now intros ->.
Qed.

(** C2 (amended): segmentation drops nothing but the white space around
    the clauses.  The concatenated fragments are, character for character,
    the emitted clauses in order, each behind a gap of white space (which
    may be empty), with white space after the last; the white space inside
    a clause is kept.  So the trimmed input is the clauses with the gaps
    between them put back; it is the trimmed concatenation of the clauses,
    as the spec has it, exactly when no white space separates two clauses,
    and their trimmed join with single spaces exactly when one space
    separates every two. *)
Theorem C2_clauses_are_the_text_between_gaps (tokens : list str) :
  exists gaps last,
    length gaps = length (clauses (_generate_clauses tokens))
    /\ Forall blank gaps /\ blank last
    /\ concat tokens
       = with_gaps gaps (clauses (_generate_clauses tokens)) last
    /\ strip (concat tokens)
       = with_gaps ([] :: tl gaps) (clauses (_generate_clauses tokens)) []
    /\ (lossless tokens <-> Forall (fun gap => gap = []) (tl gaps))
    /\ (strip (join (lit " ") (clauses (_generate_clauses tokens)))
          = strip (concat tokens)
        <-> Forall (fun gap => gap = lit " ") (tl gaps)).
Proof.
  destruct (generate_gaps tokens) as (gaps & last & L & B & Z & E).
  exists gaps, last. unfold lossless, concat.
  pose proof (proj2 (generate_loop_spec tokens [])) as F.
  fold (_generate_clauses tokens) in F.
  set (cs := clauses (_generate_clauses tokens)) in *.
  assert (T : strip (List.concat tokens) = with_gaps ([] :: tl gaps) cs [])
    by (rewrite E; now apply strip_with_gaps).
  repeat (split; [assumption|]). rewrite T.
  destruct gaps as [|g gaps], cs as [|c cs]; try discriminate.
  - simpl. repeat split; auto.
  - simpl tl. simpl in L. injection L as L.
    apply Forall_inv_tail in B.
    rewrite concat_with_gaps, join_with_gaps.
    cbn [map].
    rewrite !with_gaps_trimmed
      by (auto; simpl; now rewrite length_map).
    split; apply same_gap_everywhere; auto; reflexivity.
Qed.


(** C3 on the code: the fragments "Hel", "lo. How", " are", " you?" give the
    clauses "Hello." and "How are you?", and [word_count] takes the values
    1, 2, 2, 3: it counts the words of the buffer, which restarts after
    each emitted clause, and ends at 3. *)
Theorem C3_example_run :
  _generate_clauses [lit "Hel"; lit "lo. How"; lit " are"; lit " you?"]
    = {| clauses := [lit "Hello."; lit "How are you?"];
         word_counts := [1; 2; 2; 3] |}
  /\ final_word_count [lit "Hel"; lit "lo. How"; lit " are"; lit " you?"] = 3
  /\ length (split (concat [lit "Hel"; lit "lo. How"; lit " are"; lit " you?"]))
     = 4.
Proof. repeat split; reflexivity. Qed.

(** C4, as the spec states it, fails: "Hi.." yields the clause ".". *)
Lemma C4_punctuation_only_counterexample :
  clauses (_generate_clauses [lit "Hi.."]) = [lit "Hi."; lit "."]
  /\ ~ Forall proper_clause (clauses (_generate_clauses [lit "Hi.."])).
Proof.
  split; [reflexivity|].
  intros H. change (Forall proper_clause [lit "Hi."; lit "."]) in H.
  inversion H as [|? ? _ H1]; subst. inversion H1 as [|? ? [_ H2] _]; subst.
  discriminate H2.
Qed.

(** C4 (amended): every clause the segmenter emits, the end-of-stream
    flush included, is non-empty and carries no white space at either
    end. *)
Theorem C4_clauses_trimmed_non_empty (tokens : list str) :
  Forall well_trimmed (clauses (_generate_clauses tokens)).
Proof. apply generate_loop_spec. Qed.

(** ** The confidence resolver *)

Lemma str_eqb_eq (a b : str) : str_eqb a b = true <-> a = b.
Proof.
  revert b. induction a as [|x a IH]; intros [|y b]; simpl;
    try (split; congruence).
  rewrite andb_true_iff, N.eqb_eq, IH. split.
  - intros [-> ->]. reflexivity.
  - intros E. injection E. auto.
Qed.

Lemma str_eqb_sym (a b : str) : str_eqb a b = str_eqb b a.
Proof.
  destruct (str_eqb a b) eqn:E1, (str_eqb b a) eqn:E2; auto.
  - apply str_eqb_eq in E1. subst. now rewrite (proj2 (str_eqb_eq b b)) in E2.
  - apply str_eqb_eq in E2. subst. now rewrite (proj2 (str_eqb_eq a a)) in E1.
Qed.

Lemma known_tier_cases (h : str) :
  ResolverSpec.known_tier h = true ->
  h = lit "low" \/ h = lit "medium" \/ h = lit "high".
Proof.
  unfold ResolverSpec.known_tier. rewrite !orb_true_iff, !str_eqb_eq. tauto.
Qed.

Lemma dict_mem_existsb (V : Type) (d : dict V) (key : str) :
  dict_mem d key = existsb (fun kv => str_eqb (fst kv) key) d.
Proof.
  unfold dict_mem. induction d as [|[k v] d IH]; simpl; auto.
  destruct (str_eqb k key); auto.
Qed.

Lemma plan_table_keys (key : str) :
  dict_mem BehaviorGenerator.CONFIDENCE_BEHAVIORS key
    = ResolverSpec.known_tier key.
Proof.
  rewrite dict_mem_existsb.
  unfold BehaviorGenerator.CONFIDENCE_BEHAVIORS, ResolverSpec.known_tier.
  cbn [existsb fst].
  rewrite (str_eqb_sym (lit "low") key), (str_eqb_sym (lit "medium") key),
    (str_eqb_sym (lit "high") key).
  now rewrite orb_false_r, orb_assoc.
Qed.

Lemma main_table_keys (key : str) :
  dict_mem Main.CONFIDENCE_BEHAVIORS key = ResolverSpec.known_tier key.
Proof.
  rewrite dict_mem_existsb.
  unfold Main.CONFIDENCE_BEHAVIORS, ResolverSpec.known_tier.
  cbn [existsb fst].
  rewrite (str_eqb_sym (lit "low") key), (str_eqb_sym (lit "medium") key),
    (str_eqb_sym (lit "high") key).
  now rewrite orb_false_r, orb_assoc.
Qed.

Lemma known_tier_truthy (h : str) :
  ResolverSpec.known_tier (lower (strip h)) = true -> truthy h = true.
Proof. destruct h; [discriminate | reflexivity]. Qed.

(** C5, as the spec states it, fails: the hint "HIGH" with 10 words gives
    "high", which is neither the hint verbatim nor the word-count tier
    "low" that the reference definition gives for a hint outside the
    table. *)
Lemma C5_resolve_counterexample :
  BehaviorGenerator.resolve_confidence (Some (lit "HIGH")) 10 = lit "high"
  /\ BehaviorGenerator.resolve_confidence (Some (lit "HIGH")) 10 <> lit "HIGH"
  /\ BehaviorGenerator.resolve_confidence (Some (lit "HIGH")) 10
     <> ResolverSpec.resolve (Some (lit "HIGH")) 10
  /\ Main.resolve_confidence (Some (lit "HIGH")) 10
     <> ResolverSpec.resolve (Some (lit "HIGH")) 10.
Proof. repeat split; vm_compute; discriminate. Qed.

(** C5 (amended): both resolvers compare the hint after trimming white
    space and lower-casing it; when that is a known tier it is returned,
    whatever the word count, so a hint that is exactly "low", "medium" or
    "high" comes back verbatim; otherwise the result is "low" below 25
    words, "medium" from 25 to 59 and "high" from 60; in particular
    resolve(None,10)=low, resolve(None,40)=medium, resolve(None,100)=high. *)
Theorem C5_resolve_confidence (hint : option str) (word_count : Z) :
  BehaviorGenerator.resolve_confidence hint word_count
    = ResolverSpec.resolve_normalised hint word_count
  /\ Main.resolve_confidence hint word_count
    = ResolverSpec.resolve_normalised hint word_count
  /\ (BehaviorGenerator.resolve_confidence (Some (lit "low")) word_count = lit "low"
      /\ BehaviorGenerator.resolve_confidence (Some (lit "medium")) word_count = lit "medium"
      /\ BehaviorGenerator.resolve_confidence (Some (lit "high")) word_count = lit "high")
  /\ (BehaviorGenerator.resolve_confidence None 10 = lit "low"
      /\ BehaviorGenerator.resolve_confidence None 40 = lit "medium"
      /\ BehaviorGenerator.resolve_confidence None 100 = lit "high").
Proof.
  split; [|split; [|split; repeat split]].
  - destruct hint as [h|]; simpl; auto.
    rewrite plan_table_keys.
    destruct (ResolverSpec.known_tier (lower (strip h))) eqn:K.
    + now rewrite (known_tier_truthy h K).
    + now rewrite andb_false_r.
  - destruct hint as [h|]; simpl; auto.
    rewrite main_table_keys.
    destruct (ResolverSpec.known_tier (lower (strip h))) eqn:K.
    + now rewrite (known_tier_truthy h K).
    + now destruct (truthy h).
Qed.

(** ** The decision service *)

Lemma startswith_app (a b : str) : startswith (a ++ b) a = true.
Proof.
  induction a as [|c a IH]; auto.
  cbn [startswith app]. now rewrite N.eqb_refl, IH.
Qed.


Lemma backquotes_stripped (n : nat) :
  forallb (fun c => char_in c (lit "`")) (repeat 96%N n) = true.
Proof. induction n as [|n IH]; simpl; auto. Qed.









(** *** The decoder never runs out of fuel *)

Lemma lstrip_by_length (p : char -> bool) (s : str) :
  length (lstrip_by p s) <= length s.
Proof.
  induction s as [|c t IH]; simpl; auto. destruct (p c); simpl; lia.
Qed.

Lemma skip_ws_length (s : str) : length (Json.skip_ws s) <= length s.
Proof. apply lstrip_by_length. Qed.

Lemma span_length (p : char -> bool) (s : str) :
  length (snd (Json.span p s)) <= length s.
Proof.
  induction s as [|c t IH]; simpl; auto.
  destruct (p c); simpl; auto. destruct (Json.span p t). simpl in *. lia.
Qed.

Lemma startswith_length (s prefix : str) :
  startswith s prefix = true -> length prefix <= length s.
Proof.
  revert s. induction prefix as [|x l IH]; intros [|c s]; simpl;
    try discriminate; try lia.
  rewrite andb_true_iff. intros [_ H]. apply IH in H. lia.
Qed.

Lemma skipn_shorter (s prefix : str) (n : nat) :
  startswith s prefix = true -> length prefix = S n ->
  length (skipn (S n) s) < length s.
Proof.
  intros H L. apply startswith_length in H. rewrite length_skipn. lia.
Qed.

Lemma fraction_length (s : str) : length (snd (Json.fraction s)) <= length s.
Proof.
  unfold Json.fraction. destruct s as [|c t]; auto.
  destruct (c =? 46)%N; auto.
  pose proof (span_length Json.is_digit t) as L.
  destruct (Json.span Json.is_digit t) as [[|d ds] rest]; simpl in *; lia.
Qed.

Lemma exponent_length (s : str) : length (snd (Json.exponent s)) <= length s.
Proof.
  unfold Json.exponent. destruct s as [|c t]; auto.
  destruct ((c =? 101)%N || (c =? 69)%N); auto.
  assert (L : forall u, length u <= length t ->
                match Json.span Json.is_digit u with
                | ([], _) => length (c :: t) <= length (c :: t)
                | (_ :: _, rest) => length rest <= length (c :: t)
                end).
  { intros u U. pose proof (span_length Json.is_digit u) as L.
    destruct (Json.span Json.is_digit u) as [[|d ds] rest]; simpl in *; lia. }
  destruct t as [|x t'].
  - specialize (L [] (Nat.le_refl _)). simpl in *. lia.
  - destruct ((x =? 43)%N || (x =? 45)%N).
    + specialize (L t' ltac:(simpl; lia)).
      destruct (Json.span Json.is_digit t') as [[|d ds] rest]; simpl in *; lia.
    + specialize (L (x :: t') (Nat.le_refl _)).
      destruct (Json.span Json.is_digit (x :: t')) as [[|d ds] rest];
        simpl in *; lia.
Qed.

Lemma match_number_length (s : str) (v : Json.value) (rest : str) :
  Json.match_number s = Some (v, rest) -> length rest < length s.
Proof.
  unfold Json.match_number.
  set (s1 := snd match s with
                 | c :: t => if (c =? 45)%N then (true, t) else (false, s)
                 | [] => (false, s)
                 end).
  assert (L1 : length s1 <= length s).
  { unfold s1. destruct s as [|c t]; auto.
    destruct (c =? 45)%N; simpl; lia. }
  replace (match s with
           | c :: t => if (c =? 45)%N then (true, t) else (false, s)
           | [] => (false, s)
           end)
    with (fst match s with
              | c :: t => if (c =? 45)%N then (true, t) else (false, s)
              | [] => (false, s)
              end, s1) by (unfold s1; now destruct s as [|c t]; [|destruct (c =? 45)%N]).
  generalize dependent s1. intros s1 L1.
  destruct s1 as [|c t]; [discriminate|].
  destruct (Json.is_digit c) eqn:Dc; [|discriminate].
  set (r := if (c =? 48)%N then ([c], t) else Json.span Json.is_digit (c :: t)).
  assert (L2 : length (snd r) <= length t).
  { unfold r. destruct (c =? 48)%N; auto.
    simpl. rewrite Dc. pose proof (span_length Json.is_digit t).
    destruct (Json.span Json.is_digit t). simpl in *. lia. }
  destruct r as [integer s2]. simpl in L2.
  pose proof (fraction_length s2) as L3.
  destruct (Json.fraction s2) as [frac s3]. simpl in L3.
  pose proof (exponent_length s3) as L4.
  destruct (Json.exponent s3) as [exp s4]. simpl in L4.
  simpl in L1.
  destruct frac, exp; intros H; inversion H; subst; lia.
Qed.

Lemma atom_length (s : str) (v : Json.value) (rest : str) :
  Json.atom s = Some (v, rest) -> length rest < length s.
Proof.
  unfold Json.atom.
  destruct (startswith s (lit "null")) eqn:E1.
  { intros H. injection H as _ <-.
    now apply (skipn_shorter s (lit "null") 3). }
  destruct (startswith s (lit "true")) eqn:E2.
  { intros H. injection H as _ <-.
    now apply (skipn_shorter s (lit "true") 3). }
  destruct (startswith s (lit "false")) eqn:E3.
  { intros H. injection H as _ <-.
    now apply (skipn_shorter s (lit "false") 4). }
  destruct (Json.match_number s) as [[v' rest']|] eqn:M.
  { intros H. inversion H. subst. now apply match_number_length in M. }
  destruct (startswith s (lit "NaN")) eqn:E4.
  { intros H. injection H as _ <-.
    now apply (skipn_shorter s (lit "NaN") 2). }
  destruct (startswith s (lit "Infinity")) eqn:E5.
  { intros H. injection H as _ <-.
    now apply (skipn_shorter s (lit "Infinity") 7). }
  destruct (startswith s (lit "-Infinity")) eqn:E6.
  { intros H. injection H as _ <-.
    now apply (skipn_shorter s (lit "-Infinity") 8). }
  discriminate.
Qed.

Lemma chunk_some (c : char) (r : option (str * str)) (text rest : str) :
  Json.chunk c r = Some (text, rest) ->
  exists text', r = Some (text', rest).
Proof.
  destruct r as [[t' r']|]; simpl; [|discriminate].
  intros H. inversion H. eauto.
Qed.

Lemma scanstring_length (n : nat) :
  forall s text rest,
    length s <= n -> Json.scanstring s = Some (text, rest) ->
    length rest < length s.
Proof.
  induction n as [|n IH]; intros s text rest L H.
  - destruct s; [discriminate H | simpl in L; lia].
  - assert (K : forall c u, length u <= n ->
                  Json.chunk c (Json.scanstring u) = Some (text, rest) ->
                  length rest < length u).
    { intros c u U C. apply chunk_some in C. destruct C as [t' C].
      eapply IH; eauto. }
    destruct s as [|c r0]; [discriminate H|].
    cbn [Json.scanstring] in H. simpl in L.
    destruct (c =? 34)%N. { inversion H. subst. simpl. lia. }
    destruct (c <? 32)%N; [discriminate H|].
    destruct (c =? 92)%N.
    2:{ apply K in H; simpl; lia. }
    destruct r0 as [|esc r1]; [discriminate H|]. simpl in L.
    destruct (esc =? 117)%N.
    2:{ destruct (Json.backslash esc); [|discriminate H].
        apply K in H; simpl; lia. }
    destruct r1 as [|a [|b [|c' [|d r5]]]]; try discriminate H.
    simpl in L.
    destruct (Json.decode_uXXXX a b c' d) as [uni|]; [|discriminate H].
    destruct r5 as [|b1 [|u1 [|a2 [|b2 [|c2 [|d2 r11]]]]]];
      try (apply K in H; simpl in *; lia).
    destruct (if Json.high_surrogate uni
              then Json.second_escape b1 u1 a2 b2 c2 d2 else None);
      apply K in H; simpl in *; lia.
Qed.

Lemma scan_once_S (fuel : nat) (s : str) :
  Json.scan_once (S fuel) s
  = match s with
    | [] => None
    | c :: rest =>
        if (c =? 34)%N then
          match Json.scanstring rest with
          | Some (text, rest) => Some (Json.JStr text, rest)
          | None => None
          end
        else if (c =? 123)%N then
          match Json.skip_ws rest with
          | c' :: rest' =>
              if (c' =? 125)%N then Some (Json.JDict [], rest')
              else
                match Json.members fuel (Json.skip_ws rest) with
                | Some (pairs, rest) =>
                    Some (Json.JDict (Json.dict_of pairs), rest)
                | None => None
                end
          | [] => None
          end
        else if (c =? 91)%N then
          match Json.skip_ws rest with
          | c' :: rest' =>
              if (c' =? 93)%N then Some (Json.JList [], rest')
              else
                match Json.elements fuel (Json.skip_ws rest) with
                | Some (items, rest) => Some (Json.JList items, rest)
                | None => None
                end
          | [] => None
          end
        else Json.atom s
    end.
Proof. reflexivity. Qed.

Lemma members_S (fuel : nat) (s : str) :
  Json.members (S fuel) s
  = match s with
    | [] => None
    | q :: rest =>
        if (q =? 34)%N then
          match Json.scanstring rest with
          | None => None
          | Some (key, rest) =>
              match Json.skip_ws rest with
              | [] => None
              | colon :: rest =>
                  if (colon =? 58)%N then
                    match Json.scan_once fuel (Json.skip_ws rest) with
                    | None => None
                    | Some (v, rest) =>
                        match Json.skip_ws rest with
                        | [] => None
                        | d :: rest =>
                            if (d =? 125)%N then Some ([(key, v)], rest)
                            else if (d =? 44)%N then
                              match Json.members fuel (Json.skip_ws rest) with
                              | Some (more, rest) =>
                                  Some ((key, v) :: more, rest)
                              | None => None
                              end
                            else None
                        end
                    end
                  else None
              end
          end
        else None
    end.
Proof. reflexivity. Qed.

Lemma elements_S (fuel : nat) (s : str) :
  Json.elements (S fuel) s
  = match Json.scan_once fuel s with
    | None => None
    | Some (v, rest) =>
        match Json.skip_ws rest with
        | [] => None
        | d :: rest =>
            if (d =? 93)%N then Some ([v], rest)
            else if (d =? 44)%N then
              match Json.elements fuel (Json.skip_ws rest) with
              | Some (more, rest) => Some (v :: more, rest)
              | None => None
              end
            else None
        end
    end.
Proof. reflexivity. Qed.

(** Every successful call reads at least one character. *)
Lemma scan_shorter (n : nat) :
  (forall s v rest,
     Json.scan_once n s = Some (v, rest) -> length rest < length s)
  /\ (forall s pairs rest,
        Json.members n s = Some (pairs, rest) -> length rest < length s)
  /\ (forall s items rest,
        Json.elements n s = Some (items, rest) -> length rest < length s).
Proof.
  induction n as [|n (I1 & I2 & I3)].
  - repeat split; intros; discriminate.
  - split; [|split].
    + intros s v rest. rewrite scan_once_S.
      destruct s as [|c r0]; [discriminate|]. simpl length.
      destruct (c =? 34)%N.
      { destruct (Json.scanstring r0) as [[t r]|] eqn:E; [|discriminate].
        intros H. inversion H. subst.
        apply (scanstring_length _ _ _ _ (Nat.le_refl _)) in E. lia. }
      pose proof (skip_ws_length r0) as W.
      destruct (c =? 123)%N.
      { destruct (Json.skip_ws r0) as [|c' r'] eqn:K; [discriminate|].
        simpl in W. destruct (c' =? 125)%N.
        - intros H. inversion H. subst. lia.
        - destruct (Json.members n (c' :: r')) as [[ps r]|] eqn:M;
            [|discriminate].
          intros H. inversion H. subst. apply I2 in M. simpl in M. lia. }
      destruct (c =? 91)%N.
      { destruct (Json.skip_ws r0) as [|c' r'] eqn:K; [discriminate|].
        simpl in W. destruct (c' =? 93)%N.
        - intros H. inversion H. subst. lia.
        - destruct (Json.elements n (c' :: r')) as [[vs r]|] eqn:M;
            [|discriminate].
          intros H. inversion H. subst. apply I3 in M. simpl in M. lia. }
      intros H. apply atom_length in H. simpl in H. lia.
    + intros s pairs rest. rewrite members_S.
      destruct s as [|q r0]; [discriminate|]. simpl length.
      destruct (q =? 34)%N; [|discriminate].
      destruct (Json.scanstring r0) as [[key r1]|] eqn:E; [|discriminate].
      apply (scanstring_length _ _ _ _ (Nat.le_refl _)) in E.
      pose proof (skip_ws_length r1) as W1.
      destruct (Json.skip_ws r1) as [|colon r2]; [discriminate|].
      simpl in W1. destruct (colon =? 58)%N; [|discriminate].
      pose proof (skip_ws_length r2) as W2.
      destruct (Json.scan_once n (Json.skip_ws r2)) as [[v r3]|] eqn:V;
        [|discriminate].
      apply I1 in V. pose proof (skip_ws_length r3) as W3.
      destruct (Json.skip_ws r3) as [|d r4]; [discriminate|].
      simpl in W3. destruct (d =? 125)%N.
      { intros H. inversion H. subst. lia. }
      destruct (d =? 44)%N; [|discriminate].
      pose proof (skip_ws_length r4) as W4.
      destruct (Json.members n (Json.skip_ws r4)) as [[more r5]|] eqn:M;
        [|discriminate].
      apply I2 in M. intros H. inversion H. subst. lia.
    + intros s items rest. rewrite elements_S.
      destruct (Json.scan_once n s) as [[v r1]|] eqn:V; [|discriminate].
      apply I1 in V. pose proof (skip_ws_length r1) as W1.
      destruct (Json.skip_ws r1) as [|d r2]; [discriminate|].
      simpl in W1. destruct (d =? 93)%N.
      { intros H. inversion H. subst. lia. }
      destruct (d =? 44)%N; [|discriminate].
      pose proof (skip_ws_length r2) as W2.
      destruct (Json.elements n (Json.skip_ws r2)) as [[more r3]|] eqn:M;
        [|discriminate].
      apply I3 in M. intros H. inversion H. subst. lia.
Qed.

(** A call that succeeds with some fuel succeeds, with the same result,
    with twice as much fuel as it reads characters. *)
Lemma scan_fuel (n : nat) :
  forall m,
    (forall s v rest,
       Json.scan_once n s = Some (v, rest) ->
       2 * (length s - length rest) <= m + 1 ->
       Json.scan_once m s = Some (v, rest))
    /\ (forall s pairs rest,
          Json.members n s = Some (pairs, rest) ->
          2 * (length s - length rest) <= m ->
          Json.members m s = Some (pairs, rest))
    /\ (forall s items rest,
          Json.elements n s = Some (items, rest) ->
          2 * (length s - length rest) <= m ->
          Json.elements m s = Some (items, rest)).
Proof.
  induction n as [|n IH]; intros m.
  - repeat split; intros; discriminate.
  - destruct (scan_shorter (S n)) as (S1 & S2 & S3).
    destruct (scan_shorter n) as (T1 & T2 & T3).
    split; [|split].
    + intros s v rest H B. pose proof (S1 _ _ _ H) as L.
      destruct m as [|m]; [lia|].
      destruct (IH m) as (I1 & I2 & I3).
      revert H. rewrite !scan_once_S.
      destruct s as [|c r0]; [discriminate|]. simpl length in *.
      destruct (c =? 34)%N; auto.
      pose proof (skip_ws_length r0) as W.
      destruct (c =? 123)%N.
      { destruct (Json.skip_ws r0) as [|c' r'] eqn:K; [discriminate|].
        simpl in W. destruct (c' =? 125)%N; auto.
        destruct (Json.members n (c' :: r')) as [[ps r]|] eqn:M;
          [|discriminate].
        intros H. inversion H. subst.
        pose proof (T2 _ _ _ M) as L2. simpl in L2.
        rewrite (I2 _ _ _ M); auto. cbn [length]. lia. }
      destruct (c =? 91)%N; auto.
      destruct (Json.skip_ws r0) as [|c' r'] eqn:K; [discriminate|].
      simpl in W. destruct (c' =? 93)%N; auto.
      destruct (Json.elements n (c' :: r')) as [[vs r]|] eqn:M;
        [|discriminate].
      intros H. inversion H. subst.
      pose proof (T3 _ _ _ M) as L2. simpl in L2.
      rewrite (I3 _ _ _ M); auto. cbn [length]. lia.
    + intros s pairs rest H B. pose proof (S2 _ _ _ H) as L.
      destruct m as [|m]; [lia|].
      destruct (IH m) as (I1 & I2 & I3).
      revert H. rewrite !members_S.
      destruct s as [|q r0]; [discriminate|]. simpl length in *.
      destruct (q =? 34)%N; [|discriminate].
      destruct (Json.scanstring r0) as [[key r1]|] eqn:E; [|discriminate].
      apply (scanstring_length _ _ _ _ (Nat.le_refl _)) in E.
      pose proof (skip_ws_length r1) as W1.
      destruct (Json.skip_ws r1) as [|colon r2]; [discriminate|].
      simpl in W1. destruct (colon =? 58)%N; [|discriminate].
      pose proof (skip_ws_length r2) as W2.
      destruct (Json.scan_once n (Json.skip_ws r2)) as [[v r3]|] eqn:V;
        [|discriminate].
      pose proof (T1 _ _ _ V) as L1. pose proof (skip_ws_length r3) as W3.
      destruct (Json.skip_ws r3) as [|d r4] eqn:K3; [discriminate|].
      simpl in W3. destruct (d =? 125)%N eqn:D1.
      { intros H. inversion H. subst.
        rewrite (I1 _ _ _ V) by lia. now rewrite K3, D1. }
      destruct (d =? 44)%N eqn:D2; [|discriminate].
      pose proof (skip_ws_length r4) as W4.
      destruct (Json.members n (Json.skip_ws r4)) as [[more r5]|] eqn:M;
        [|discriminate].
      pose proof (T2 _ _ _ M) as L2. intros H. inversion H. subst.
      rewrite (I1 _ _ _ V) by lia. rewrite K3, D1, D2.
      now rewrite (I2 _ _ _ M) by lia.
    + intros s items rest H B. pose proof (S3 _ _ _ H) as L.
      destruct m as [|m]; [lia|].
      destruct (IH m) as (I1 & I2 & I3).
      revert H. rewrite !elements_S.
      destruct (Json.scan_once n s) as [[v r1]|] eqn:V; [|discriminate].
      pose proof (T1 _ _ _ V) as L1. pose proof (skip_ws_length r1) as W1.
      destruct (Json.skip_ws r1) as [|d r2] eqn:K1; [discriminate|].
      simpl in W1. destruct (d =? 93)%N eqn:D1.
      { intros H. inversion H. subst.
        rewrite (I1 _ _ _ V) by lia. now rewrite K1, D1. }
      destruct (d =? 44)%N eqn:D2; [|discriminate].
      pose proof (skip_ws_length r2) as W2.
      destruct (Json.elements n (Json.skip_ws r2)) as [[more r3]|] eqn:M;
        [|discriminate].
      pose proof (T3 _ _ _ M) as L2. intros H. inversion H. subst.
      rewrite (I1 _ _ _ V) by lia. rewrite K1, D1, D2.
      now rewrite (I3 _ _ _ M) by lia.
Qed.

(** [json.loads] has fuel enough: a text decoded with any fuel is decoded
    by [loads], to the same value, and more fuel changes nothing. *)
Lemma loads_fuel (s : str) (v : Json.value) :
  Json.loads s = Some v
  <-> exists fuel, Json.decode fuel s = Some v.
Proof.
  split; [intros H; now exists (2 * length s)|].
  intros [fuel H]. unfold Json.loads. revert H. unfold Json.decode.
  destruct (Json.scan_once fuel (Json.skip_ws s)) as [[v' rest]|] eqn:V;
    [|discriminate].
  pose proof (proj1 (scan_shorter fuel) _ _ _ V) as L.
  pose proof (skip_ws_length s) as W.
  rewrite (proj1 (scan_fuel fuel (2 * length s)) _ _ _ V) by lia.
  auto.
Qed.

Lemma decode_more_fuel (s : str) (v : Json.value) (fuel : nat) :
  Json.loads s = Some v -> 2 * length s <= fuel ->
  Json.decode fuel s = Some v.
Proof.
  unfold Json.loads, Json.decode. intros H B. revert H.
  destruct (Json.scan_once (2 * length s) (Json.skip_ws s))
    as [[v' rest]|] eqn:V; [|discriminate].
  pose proof (proj1 (scan_shorter _) _ _ _ V) as L.
  pose proof (skip_ws_length s) as W.
  rewrite (proj1 (scan_fuel _ fuel) _ _ _ V) by lia.
  auto.
Qed.

(** *** What [decide] returns and raises *)




(** ** The DirectAnswer path *)

Lemma or_empty (a : option str) :
  match a with Some a => if truthy a then a else [] | None => [] end
  = match a with Some a => a | None => [] end.
Proof. destruct a as [[|c a]|]; reflexivity. Qed.

Lemma direct_confidence_known (hint : option str) :
  direct_confidence hint
    = match hint with
      | Some h => if ResolverSpec.known_tier h then h else lit "medium"
      | None => lit "medium"
      end
  /\ ResolverSpec.known_tier (direct_confidence hint) = true.
Proof.
  unfold direct_confidence. destruct hint as [h|]; [|split; reflexivity].
  rewrite plan_table_keys.
  destruct (ResolverSpec.known_tier h) eqn:K; split; auto.
Qed.

Lemma tier_prefix_first (tier : str) :
  ResolverSpec.known_tier tier = true ->
  exists c m,
    fst (BehaviorGenerator.get_confidence_behavior tier) = c :: m
    /\ isspace c = false.
Proof.
  intros K. destruct (known_tier_cases _ K) as [-> | [-> | ->]];
    vm_compute; eauto.
Qed.

Lemma strip_last (a : str) :
  strip a = [] \/ exists m d, strip a = m ++ [d] /\ isspace d = false.
Proof. apply rstrip_by_last. Qed.

Lemma direct_answer_last (d : decision) :
  exists m c, direct_answer d = m ++ [c] /\ isspace c = false.
Proof.
  unfold direct_answer.
  destruct (strip_last (match answer d with Some a => a | None => [] end))
    as [E | (m & c & E & Hc)]; rewrite E.
  - exists (removelast Orchestrator.apology), 46%N. split; reflexivity.
  - destruct (m ++ [c]) eqn:E'; [now destruct m|]. rewrite <- E'. eauto.
Qed.

(** The answer text and the events of [_respond_directly]. *)
Lemma respond_directly_spec (client : bool) (d : decision) (hint : option str) :
  let tier := direct_confidence hint in
  let prefix := fst (BehaviorGenerator.get_confidence_behavior tier) in
  let gesture := snd (BehaviorGenerator.get_confidence_behavior tier) in
  let text := prefix ++ lit " " ++ direct_answer d in
  _respond_directly client d hint
  = ([ Print (lit "Robot directly responds (confidence=" ++ tier
              ++ lit ", gesture=" ++ gesture ++ lit ")");
       Print (lit "Robot: " ++ text) ]
     ++ (if client then [Speak text] else []), text).
Proof.
  intros tier prefix gesture text.
  unfold _respond_directly. rewrite or_empty.
  fold tier.
  assert (Ha : (if negb (truthy (strip match answer d with
                                       | Some a => a | None => [] end))
                then Orchestrator.apology
                else strip match answer d with Some a => a | None => [] end)
               = direct_answer d).
  { unfold direct_answer.
    destruct (strip match answer d with Some a => a | None => [] end);
      reflexivity. }
  rewrite Ha.
  destruct (BehaviorGenerator.get_confidence_behavior tier) as [pre ges] eqn:G.
  assert (Hs : strip (pre ++ lit " " ++ direct_answer d)
               = pre ++ lit " " ++ direct_answer d).
  { destruct (tier_prefix_first _ (proj2 (direct_confidence_known hint)))
      as (c & m & Hp & Hc).
    fold tier in Hp. rewrite G in Hp. simpl in Hp. subst pre.
    destruct (direct_answer_last d) as (m' & c' & -> & Hc').
    replace ((c :: m) ++ lit " " ++ m' ++ [c'])
      with (c :: (m ++ lit " " ++ m') ++ [c'])
      by (simpl; now rewrite <- !app_assoc).
    now apply strip_by_fixed. }
  rewrite Hs. subst prefix gesture text. simpl. reflexivity.
Qed.

(** C6, as the spec states it, fails: an orchestrator built without a
    Furhat client (the constructor's default) answers the spec's own
    example plan without any actuation call. *)
Lemma C6_no_client_counterexample :
  speak_calls
    (turn_events (run false (lit "What is the capital of France?")
                      paris_plan silence 0%Q)) = []
  /\ ~ exists text,
        speak_calls
          (turn_events (run false (lit "What is the capital of France?")
                            paris_plan silence 0%Q)) = [text].
Proof. split; [reflexivity | intros [text H]; discriminate H]. Qed.

(** C6 (amended): on the DirectAnswer path the tier is the hint when it is
    a known tier and "medium" otherwise; the answer text is the tier's
    verbal prefix, a space, and the direct answer; when a Furhat client is
    attached exactly one speak call is issued, with that text, and when
    none is attached no actuation call is issued and the text is only
    printed; for the hint "high" the text begins with the high tier's
    prefix; no thinking output occurs. *)
Theorem C6_direct_answer_path
    (client : bool) (question : str) (d : decision) (llm : completions)
    (now : Q) :
  need_thinking d = false ->
  let tier := direct_confidence (confidence d) in
  let text :=
    fst (BehaviorGenerator.get_confidence_behavior tier)
    ++ lit " " ++ direct_answer d in
  tier = match confidence d with
         | Some h => if ResolverSpec.known_tier h then h else lit "medium"
         | None => lit "medium"
         end
  /\ run client question d llm now
     = DirectAnswer
         ([ Print (lit "User: " ++ question); BarrierClear; BarrierSet;
            Print (lit "Robot directly responds (confidence=" ++ tier
                   ++ lit ", gesture="
                   ++ snd (BehaviorGenerator.get_confidence_behavior tier)
                   ++ lit ")");
            Print (lit "Robot: " ++ text) ]
          ++ (if client then [Speak text] else []))
         text
  /\ speak_calls (turn_events (run client question d llm now))
     = (if client then [text] else [])
  /\ (confidence d = Some (lit "high") ->
      startswith text (lit "I'm confident that") = true)
  /\ Forall (fun e => thinking_output e = false)
            (turn_events (run client question d llm now)).
Proof.
  intros Hn tier text.
  assert (R : run client question d llm now
     = DirectAnswer
         ([ Print (lit "User: " ++ question); BarrierClear; BarrierSet;
            Print (lit "Robot directly responds (confidence=" ++ tier
                   ++ lit ", gesture="
                   ++ snd (BehaviorGenerator.get_confidence_behavior tier)
                   ++ lit ")");
            Print (lit "Robot: " ++ text) ]
          ++ (if client then [Speak text] else []))
         text).
  { unfold run. rewrite Hn. simpl negb. cbv iota.
    rewrite respond_directly_spec. reflexivity. }
  split; [apply direct_confidence_known|].
  split; [exact R|]. rewrite R. simpl turn_events.
  split; [destruct client; reflexivity|]. split.
  - intros Hh. subst text tier. rewrite Hh. reflexivity.
  - repeat constructor; destruct client; repeat constructor.
Qed.

(** A turn at which the hypothesis of C6 holds: the spec's example plan,
    with a client attached. *)
Lemma C6_direct_answer_path_witness :
  speak_calls
    (turn_events (run true (lit "What is the capital of France?")
                      paris_plan silence 0%Q))
  = [lit "I'm confident that Paris is the capital."].
Proof.
  exact (proj1 (proj2 (proj2
    (C6_direct_answer_path true (lit "What is the capital of France?")
       paris_plan silence 0%Q eq_refl)))).
Defined.




(** ** The producer thread

    Left to run, the producer thread of a streamer puts into the queue the
    clauses of [_generate_clauses], then the end marker, and leaves in
    [word_count] the last value the generator gave it. *)

Lemma produce_ready (ready : list str) :
  forall tokens buffer wc queue,
    produce (length ready) (at_work tokens buffer wc ready queue)
    = at_work tokens buffer wc [] (queue ++ map Clause ready).
Proof.
  induction ready as [|c ready IH]; intros tokens buffer wc queue; simpl.
  - now rewrite app_nil_r.
  - unfold producer_step. simpl. fold (at_work tokens buffer wc ready
                                         (queue ++ [Clause c])).
    rewrite IH, <- app_assoc. reflexivity.
Qed.

Lemma produce_add (n k : nat) (m : streamer) :
  produce (n + k) m = produce k (produce n m)
  \/ thread_finished (produce n m) = true
  \/ thread_started m = false.
Proof.
  revert m. induction n as [|n IH]; intros m; simpl; auto.
  destruct (producer_step m) as [m'|] eqn:E.
  - destruct (IH m') as [H | [H | H]]; auto.
    unfold producer_step in E.
    destruct (negb (thread_started m) || thread_finished m); [discriminate|].
    destruct (ready m), (token_stream m);
      try destruct (_pop_ready_clauses _);
      injection E as <-; discriminate H.
  - unfold producer_step in E.
    destruct (negb (thread_started m) || thread_finished m) eqn:B.
    + apply orb_true_iff in B. destruct B as [B | B]; auto.
      apply negb_true_iff in B. auto.
    + destruct (ready m), (token_stream m);
        try destruct (_pop_ready_clauses _); discriminate E.
Qed.

Lemma last_of_cons (x : nat) (l : list nat) (d d' : nat) :
  last (x :: l) d = last (x :: l) d'.
Proof.
  revert x. induction l as [|y l IH]; intros x; [reflexivity|].
  change (last (y :: l) d = last (y :: l) d'). apply IH.
Qed.

Lemma producer_refines_generate (tokens : list str) :
  forall buffer wc queue,
  exists n,
    thread_finished (produce n (at_work tokens buffer wc [] queue)) = true
    /\ Orchestrator.queue (produce n (at_work tokens buffer wc [] queue))
       = queue ++ map Clause (clauses (generate_loop tokens buffer))
         ++ [EndOfStream]
    /\ Orchestrator.word_count (produce n (at_work tokens buffer wc [] queue))
       = last (word_counts (generate_loop tokens buffer)) wc.
Proof.
  induction tokens as [|token tokens IH]; intros buffer wc queue.
  - exists 1. simpl. unfold producer_step. simpl.
    destruct (truthy (strip buffer)); simpl; auto.
  - simpl generate_loop.
    destruct (_pop_ready_clauses (buffer ++ token)) as [ready rest] eqn:P.
    destruct (IH rest (length (split (buffer ++ token)))
                (queue ++ map Clause ready)) as (n & F & Hq & Hw).
    exists (S (length ready + n)).
    assert (E : produce (S (length ready + n))
                  (at_work (token :: tokens) buffer wc [] queue)
                = produce n (at_work tokens rest
                               (length (split (buffer ++ token))) []
                               (queue ++ map Clause ready))).
    { simpl. unfold producer_step. simpl. rewrite P.
      fold (at_work tokens rest (length (split (buffer ++ token))) ready queue).
      destruct (produce_add (length ready) n
                  (at_work tokens rest (length (split (buffer ++ token)))
                     ready queue)) as [H | [H | H]].
      - now rewrite H, produce_ready.
      - rewrite produce_ready in H. discriminate H.
      - discriminate H. }
    rewrite E. simpl. split; [exact F|]. split.
    + rewrite Hq, map_app, <- !app_assoc. reflexivity.
    + rewrite Hw. destruct (word_counts (generate_loop tokens rest)); auto.
      apply last_of_cons.
Qed.

(** ** The relays *)

Lemma Qle_bool_false (a b : Q) : Qle_bool a b = false -> (b < a)%Q.
Proof.
  intros H. apply Qnot_le_lt. intros L. apply Qle_bool_iff in L. congruence.
Qed.

Lemma cues_app (a b : list (Q * event)) : cues (a ++ b) = cues a + cues b.
Proof.
  induction a as [|[t e] a IH]; simpl; auto. destruct e; simpl; auto.
Qed.

Lemma t_finally_keeps (now : Q) (o : outcome) (st : thinking)
    (evs : list (Q * event)) (flag : bool) :
  ~ In BarrierSet (map snd evs) ->
  cues evs <= MAX_THINKING_CUES ->
  (forall t line, In (t, Print line) evs -> (t < deadline st)%Q) ->
  thinking_invariant (fst (t_finally now o st))
    (evs ++ map (pair now) (snd (t_finally now o st)))
    (barrier_after flag (snd (t_finally now o st))).
Proof.
  intros Hb Hc Hw. constructor; simpl.
  - discriminate.
  - split; auto.
    exists (evs ++ [(now, ThinkingMode false)]), now. split.
    + now rewrite <- app_assoc.
    + rewrite map_app, in_app_iff. simpl. intros [H | [H | []]]; auto.
      discriminate.
  - exact I.
  - rewrite cues_app. simpl. lia.
  - intros t line H. apply in_app_iff in H. destruct H as [H | H]; eauto.
    simpl in H. destruct H as [H | [H | []]]; discriminate.
  - discriminate.
Qed.

Lemma emit_line_keeps (client in_stream : bool) (now : Q) (text : str)
    (st : thinking) (evs : list (Q * event)) (flag : bool) :
  between_cues st evs flag ->
  emitted st < MAX_THINKING_CUES -> (now < deadline st)%Q ->
  thinking_invariant (fst (emit_line client in_stream text st))
    (evs ++ map (pair now) (snd (emit_line client in_stream text st)))
    (barrier_after flag (snd (emit_line client in_stream text st))).
Proof.
  intros (Hf & Hb & Hc & Hm & Hw) Hlt Hnow.
  unfold emit_line. destruct client; simpl; constructor; simpl;
    unfold pending; simpl; try discriminate.
  all: try (rewrite cues_app; simpl; lia).
  all: try (split; auto; rewrite map_app, in_app_iff; simpl;
            intros [H | [H | [H | []]]]; auto; discriminate).
  all: intros t line H; apply in_app_iff in H; destruct H as [H | H];
    eauto; simpl in H; destruct H as [H | [H | []]]; try discriminate;
    injection H as <- _; assumption.
Qed.

Lemma fallback_loop_keeps (client : bool) (now : Q) (st : thinking)
    (evs : list (Q * event)) (flag : bool) :
  between_cues st evs flag ->
  thinking_invariant (fst (fallback_loop client now st))
    (evs ++ map (pair now) (snd (fallback_loop client now st)))
    (barrier_after flag (snd (fallback_loop client now st))).
Proof.
  intros B. pose proof B as (Hf & Hb & Hc & Hm & Hw).
  unfold fallback_loop.
  destruct (negb (Qle_bool (deadline st) now)
            && (emitted st <? MAX_THINKING_CUES)) eqn:E.
  - apply andb_true_iff in E. destruct E as [E1 E2].
    apply negb_true_iff, Qle_bool_false in E1. apply Nat.ltb_lt in E2.
    apply emit_line_keeps; auto.
  - apply t_finally_keeps; auto. lia.
Qed.

Lemma after_emit_keeps (client : bool) (now : Q) (in_stream : bool)
    (st : thinking) (evs : list (Q * event)) (flag : bool) :
  t_pc st = TBehave in_stream ->
  thinking_invariant st evs flag ->
  thinking_invariant (fst (after_emit client now in_stream st))
    (evs ++ map (pair now) (snd (after_emit client now in_stream st)))
    (barrier_after flag (snd (after_emit client now in_stream st))).
Proof.
  intros Hpc [I1 I2 I3 I4 I5 I6]. rewrite Hpc in I2, I3.
  unfold pending in I3. rewrite Hpc in I3. destruct I2 as [Hf Hb].
  unfold after_emit.
  set (st1 := {| t_pc := t_pc st; started := started st;
                 deadline := deadline st; emitted := emitted st + 1;
                 fallback_idx := fallback_idx st |}).
  assert (B : between_cues st1 evs flag).
  { repeat split; simpl; auto. lia. }
  destruct (window_closed now st1) eqn:W.
  - destruct in_stream.
    + now apply fallback_loop_keeps.
    + apply t_finally_keeps; auto.
  - unfold window_closed in W. apply orb_false_iff in W.
    destruct W as [W1 W2]. apply Qle_bool_false in W1.
    apply Nat.leb_gt in W2. simpl in W1, W2.
    simpl. rewrite app_nil_r. constructor; simpl; unfold pending; simpl;
      auto; try discriminate.
    + lia.
    + intros b wake H. injection H as _ <-.
      unfold THINKING_PAUSE_SECONDS. lra.
Qed.

Lemma some_pair (A B : Type) (p : A * B) (a : A) (b : B) :
  Some p = Some (a, b) -> a = fst p /\ b = snd p.
Proof. intros H. injection H as ->. auto. Qed.

Ltac stepped H :=
  apply some_pair in H; destruct H as [-> ->]; cbn [fst snd].

(** One step of the thinking relay keeps its invariant. *)
Lemma relay_thinking_keeps (client : bool) (now : Q) (r : resumption)
    (st st' : thinking) (new : list event) (evs : list (Q * event))
    (flag : bool) :
  _relay_thinking client now r st = Some (st', new) ->
  thinking_invariant st evs flag ->
  thinking_invariant st' (evs ++ map (pair now) new) (barrier_after flag new).
Proof.
  intros H I. pose proof I as [I1 I2 I3 I4 I5 I6].
  unfold _relay_thinking in H.
  assert (Q0 : pending st = 0 -> (forall o t, t_pc st <> TDone o t) ->
               between_cues st evs flag).
  { intros P0 ND. rewrite P0, Nat.add_0_r in I3.
    destruct (t_pc st) eqn:E; try (now elim (ND o exit_time));
      destruct I2; repeat split; auto; lia. }
  assert (F : (forall o t, t_pc st <> TDone o t) -> forall o,
            thinking_invariant (fst (t_finally now o st))
              (evs ++ map (pair now) (snd (t_finally now o st)))
              (barrier_after flag (snd (t_finally now o st)))).
  { intros ND o. apply t_finally_keeps; auto.
    destruct (t_pc st) eqn:E; try (now elim (ND o0 exit_time));
      now destruct I2. }
  unfold pending in Q0.
  destruct (t_pc st) eqn:Hpc; destruct r; try discriminate H.
  - (* the first step *)
    stepped H. rewrite (I1 eq_refl). simpl.
    constructor; simpl; try discriminate; auto; try lia.
    destruct I2; auto.
  - (* a cue arrives *)
    destruct (window_closed now st) eqn:W.
    + stepped H. apply fallback_loop_keeps, Q0; congruence.
    + destruct (negb (_is_meaningful_thinking_cue item)).
      * stepped H. simpl. now rewrite app_nil_r.
      * stepped H. unfold window_closed in W.
        apply orb_false_iff in W. destruct W as [W1 W2].
        apply Qle_bool_false in W1. apply Nat.leb_gt in W2.
        apply emit_line_keeps; auto. apply Q0; congruence.
  - stepped H. apply fallback_loop_keeps, Q0; congruence.
  - stepped H. apply F. congruence.
  - stepped H. apply F. congruence.
  - (* request_speak_text returns *)
    stepped H. unfold pending in I3. rewrite Hpc in I3.
    destruct I2 as [Hf Hb].
    constructor; simpl; unfold pending; simpl; try discriminate; auto.
    + split; auto. rewrite map_app, in_app_iff. simpl.
      intros [H | [H | []]]; auto. discriminate.
    + rewrite cues_app. simpl. lia.
    + rewrite cues_app. simpl. lia.
    + intros t line H. apply in_app_iff in H. destruct H as [H | H]; eauto.
      destruct H as [H | []]. discriminate.
  - stepped H. apply F. congruence.
  - stepped H. apply F. congruence.
  - stepped H. now apply after_emit_keeps.
  - stepped H. apply F. congruence.
  - stepped H. apply F. congruence.
  - (* the pause is over *)
    destruct in_stream; stepped H.
    + simpl. rewrite app_nil_r. unfold pending in I3. rewrite Hpc in I3.
      constructor; simpl; unfold pending; simpl; try discriminate; auto.
    + apply fallback_loop_keeps, Q0; congruence.
  - stepped H. apply F. congruence.
Qed.

Lemma a_goto_keeps (pc : answer_pc) (st : answering)
    (evs : list (Q * event)) (flag : bool) :
  pc <> ASpeak -> answer_invariant st evs flag ->
  answer_invariant (a_goto pc st) evs flag.
Proof.
  intros N [I1 I2]. constructor; simpl; auto.
  intros F. destruct (I1 F) as (? & ? & ? & _). auto.
Qed.

Lemma handed_off (st : answering) (evs : list (Q * event)) :
  first_clause st = false -> answer_invariant st evs true.
Proof. intros F. constructor; auto. congruence. Qed.

Ltac goto_step H :=
  stepped H; rewrite app_nil_r;
  split; [apply a_goto_keeps; [discriminate | assumption]
         | split; [reflexivity | intros N; now elim N]].

(** One step of the answer relay keeps its invariant, leaves the barrier
    as it is, and does something only once the barrier is set. *)
Lemma relay_answer_keeps (client : bool) (hint : option str) (flag : bool)
    (wc : nat) (now : Q) (r : resumption) (st st' : answering)
    (new : list event) (evs : list (Q * event)) :
  _relay_answer client hint flag wc r st = Some (st', new) ->
  answer_invariant st evs flag ->
  answer_invariant st' (evs ++ map (pair now) new) flag
  /\ barrier_after flag new = flag
  /\ (new <> [] -> flag = true).
Proof.
  intros H I. pose proof I as [I1 I2]. unfold _relay_answer in H.
  destruct (a_pc st) eqn:Hpc; destruct r; try discriminate H.
  - goto_step H.
  - (* a clause arrives *)
    destruct (first_clause st) eqn:Hf.
    + goto_step H.
    + stepped H. rewrite (I2 eq_refl).
      split; [now apply handed_off | split; reflexivity].
  - (* the stream is exhausted *)
    stepped H. unfold send_answer, show_gesture.
    destruct (first_clause st) eqn:Hf.
    + destruct (I1 eq_refl) as (E1 & E2 & E3 & _). rewrite E2, E3. simpl.
      rewrite app_nil_r.
      split; [apply a_goto_keeps; [discriminate | assumption]
             | split; [reflexivity | intros N; now elim N]].
    + rewrite (I2 eq_refl).
      destruct (full_answer_parts st); [|destruct client]; simpl;
        try destruct (truthy (gesture_description st)); simpl;
        (split; [now apply handed_off | split; reflexivity]).
  - goto_step H.
  - goto_step H.
  - (* the wait on the barrier is over *)
    destruct flag; [|discriminate H]. stepped H. unfold hand_off.
    destruct (BehaviorGenerator.get_confidence_behavior _) as [pre ges].
    simpl. split; [now apply handed_off | split; reflexivity].
  - goto_step H.
  - (* request_speak_text returns *)
    stepped H. unfold show_gesture.
    destruct (first_clause st) eqn:Hf.
    + destruct (I1 eq_refl) as (_ & _ & _ & N). congruence.
    + rewrite (I2 eq_refl). simpl.
      destruct (truthy (gesture_description st)); simpl;
        (split; [now apply handed_off | split; reflexivity]).
  - goto_step H.
  - goto_step H.
Qed.

(** ** The turn *)

Lemma timed_events_of_app (who : actor) (a b : list (Q * actor * event)) :
  timed_events_of who (a ++ b) = timed_events_of who a ++ timed_events_of who b.
Proof.
  induction a as [|[[t w] e] a IH]; simpl; auto.
  destruct (is_actor who w); simpl; now rewrite IH.
Qed.

Lemma timed_events_of_stamp (who by_whom : actor) (now : Q) (evs : list event) :
  timed_events_of who (stamp now by_whom evs)
  = if is_actor who by_whom then map (pair now) evs else [].
Proof.
  induction evs as [|e evs IH]; simpl.
  - now destruct (is_actor who by_whom).
  - rewrite IH. now destruct (is_actor who by_whom).
Qed.

Lemma is_actor_eq (who other : actor) : is_actor who other = true <-> who = other.
Proof. destruct who, other; simpl; split; congruence. Qed.

Lemma in_timed_events_of (who : actor) (t : Q) (e : event)
    (tr : list (Q * actor * event)) :
  In (t, e) (timed_events_of who tr) <-> In (t, who, e) tr.
Proof.
  induction tr as [|[[t' w] e'] tr IH]; simpl; [tauto|].
  destruct (is_actor who w) eqn:E.
  - apply is_actor_eq in E. subst w. simpl. rewrite IH.
    split; (intros [H | H]; [left; congruence | now right]).
  - rewrite IH. split; auto. intros [H | H]; auto.
    injection H as ? ? ?. subst. destruct who; discriminate.
Qed.

Lemma in_stamp (now t : Q) (who by_whom : actor) (e : event)
    (evs : list event) :
  In (t, who, e) (stamp now by_whom evs) -> who = by_whom /\ In e evs.
Proof.
  unfold stamp. rewrite in_map_iff. intros (e' & H & Hin).
  injection H as _ <- <-. auto.
Qed.

(** Appending what was done keeps the ordering, provided the answer relay
    does nothing before the barrier was signalled. *)
Lemma barrier_first_app (tr more : list (Q * actor * event)) :
  barrier_first tr ->
  ((exists t e, In (t, AnswerRelay, e) more) ->
   exists t', In (t', ThinkingRelay, BarrierSet) tr) ->
  barrier_first (tr ++ more).
Proof.
  intros Htr Hmore pre t e post E.
  apply app_eq_app in E. destruct E as [l [[E1 E2] | [E1 E2]]].
  - destruct l as [|x l].
    + simpl in E2. rewrite app_nil_r in E1. subst pre.
      apply Hmore. exists t, e. rewrite <- E2. now left.
    + simpl in E2. injection E2 as <- _. now apply (Htr pre t e l).
  - destruct Hmore as [t' H].
    + exists t, e. rewrite E2. apply in_app_iff. right. now left.
    + exists t'. rewrite E1. apply in_app_iff. now left.
Qed.

Lemma exited_signalled (st : thinking) (evs : list (Q * event)) (flag : bool) :
  thinking_invariant st evs flag -> flag = true ->
  exists t, In (t, BarrierSet) evs.
Proof.
  intros [_ I2 _ _ _ _] F.
  destruct (t_pc st); try (destruct I2; congruence).
  destruct I2 as [_ (pre & t & -> & _)]. exists t.
  apply in_app_iff. right. now left.
Qed.

Lemma resumable_unsignalled (client : bool) (now : Q) (r : resumption)
    (st : thinking) (evs : list (Q * event)) (flag : bool)
    (res : thinking * list event) :
  _relay_thinking client now r st = Some res ->
  thinking_invariant st evs flag -> flag = false.
Proof.
  intros H [_ I2 _ _ _ _]. unfold _relay_thinking in H.
  destruct (t_pc st); try (now destruct I2).
  all: destruct r; discriminate.
Qed.

Lemma fallback_loop_window (client : bool) (now : Q) (st : thinking) :
  deadline (fst (fallback_loop client now st)) = deadline st
  /\ started (fst (fallback_loop client now st)) = started st.
Proof.
  unfold fallback_loop, emit_line.
  destruct (negb (Qle_bool (deadline st) now)
            && (emitted st <? MAX_THINKING_CUES)); [destruct client|];
    split; reflexivity.
Qed.

Lemma after_emit_window (client : bool) (now : Q) (b : bool) (st : thinking) :
  deadline (fst (after_emit client now b st)) = deadline st
  /\ started (fst (after_emit client now b st)) = started st.
Proof.
  unfold after_emit.
  destruct (window_closed now _); [destruct b|]; try (split; reflexivity).
  apply (fallback_loop_window client now
           {| t_pc := t_pc st; started := started st; deadline := deadline st;
              emitted := emitted st + 1; fallback_idx := fallback_idx st |}).
Qed.

(** The deadline is set at the first step and never moved. *)
Lemma relay_thinking_deadline (client : bool) (now : Q) (r : resumption)
    (st st' : thinking) (new : list event) :
  _relay_thinking client now r st = Some (st', new) ->
  (t_pc st <> TCreated ->
   deadline st = (started st + THINKING_DURATION_SECONDS)%Q) ->
  deadline st' = (started st' + THINKING_DURATION_SECONDS)%Q.
Proof.
  intros H D. unfold _relay_thinking in H.
  destruct (t_pc st) eqn:Hpc; destruct r; try discriminate H;
    try (assert (D' := D ltac:(discriminate))).
  all: try (stepped H; first [ reflexivity | exact D' ]).
  - destruct (window_closed now st);
      [|destruct (negb (_is_meaningful_thinking_cue item))]; stepped H;
      try exact D'.
    + destruct (fallback_loop_window client now st) as [-> ->]. exact D'.
    + unfold emit_line. destruct client; exact D'.
  - stepped H. destruct (fallback_loop_window client now st) as [-> ->].
    exact D'.
  - stepped H. destruct (after_emit_window client now in_stream st) as [-> ->].
    exact D'.
  - destruct in_stream; stepped H; try exact D'.
    destruct (fallback_loop_window client now st) as [-> ->]. exact D'.
Qed.

Lemma resume_thinking_keeps (r : resumption) (s s' : system) :
  resume_thinking r s = Some s' -> invariant s -> invariant s'.
Proof.
  unfold resume_thinking. intros H [IT IA IB ID].
  destruct (_relay_thinking _ _ _ _) as [[st new]|] eqn:R; [|discriminate].
  injection H as <-. constructor; simpl.
  - rewrite timed_events_of_app, timed_events_of_stamp. simpl.
    eapply relay_thinking_keeps; eauto.
  - rewrite timed_events_of_app, timed_events_of_stamp, app_nil_r. simpl.
    pose proof (resumable_unsignalled _ _ _ _ _ _ _ R IT) as F.
    destruct IA as [A1 A2]. constructor; auto.
    intros N. specialize (A2 N). congruence.
  - apply barrier_first_app; auto.
    intros (t & e & Hin). apply in_stamp in Hin. destruct Hin. discriminate.
  - intros _. eapply relay_thinking_deadline; eauto.
Qed.

Lemma resume_answer_keeps (r : resumption) (s s' : system) :
  resume_answer r s = Some s' -> invariant s -> invariant s'.
Proof.
  unfold resume_answer. intros H [IT IA IB ID].
  destruct (_relay_answer _ _ _ _ _ _) as [[st new]|] eqn:R; [|discriminate].
  injection H as <-.
  destruct (relay_answer_keeps _ _ _ _ (clock s) _ _ _ _ _ R IA)
    as (IA' & Hflag & Hnew).
  constructor; simpl.
  - rewrite timed_events_of_app, timed_events_of_stamp, app_nil_r, Hflag.
    exact IT.
  - rewrite timed_events_of_app, timed_events_of_stamp, Hflag. exact IA'.
  - apply barrier_first_app; auto.
    intros (t & e & Hin). apply in_stamp in Hin. destruct Hin as [_ Hin].
    assert (N : new <> []) by (intros ->; destruct Hin).
    destruct (exited_signalled _ _ _ IT (Hnew N)) as [t' Ht'].
    exists t'. now apply in_timed_events_of.
  - exact ID.
Qed.

Lemma set_model_keeps (s : system) (m : streamer) :
  invariant s ->
  invariant (set_thinking_model m s) /\ invariant (set_reasoning_model m s).
Proof. intros [IT IA IB ID]. split; constructor; assumption. Qed.

Lemma step_keeps (l : label) (s s' : system) :
  step l s = Some s' -> invariant s -> invariant s'.
Proof.
  intros H I. destruct l as [d | who | who | who | who | who];
    try destruct who; simpl in H; try discriminate H.
  - destruct (Qle_bool 0 d); [|discriminate]. injection H as <-.
    destruct I. constructor; assumption.
  - destruct (producer_step (thinking_model s)); [|discriminate].
    injection H as <-. now apply set_model_keeps.
  - destruct (producer_step (reasoning_model s)); [|discriminate].
    injection H as <-. now apply set_model_keeps.
  - destruct (t_pc (thinking_task s)); try discriminate.
    destruct (queue_get (thinking_model s)) as [[r m]|]; [|discriminate].
    eapply resume_thinking_keeps; eauto. now apply set_model_keeps.
  - destruct (a_pc (answer_task s)); try discriminate.
    destruct (queue_get (reasoning_model s)) as [[r m]|]; [|discriminate].
    eapply resume_answer_keeps; eauto. now apply set_model_keeps.
  - destruct (t_pc (thinking_task s)); try discriminate;
      try (eapply resume_thinking_keeps; eauto; now apply set_model_keeps).
    destruct (Qle_bool wake (clock s)); [|discriminate].
    eapply resume_thinking_keeps; eauto.
  - destruct (a_pc (answer_task s)); try discriminate;
      eapply resume_answer_keeps; eauto; now apply set_model_keeps.
  - destruct (t_pc (thinking_task s)); try discriminate;
      eapply resume_thinking_keeps; eauto.
  - destruct (a_pc (answer_task s)); try discriminate;
      eapply resume_answer_keeps; eauto.
  - eapply resume_thinking_keeps; eauto.
  - eapply resume_answer_keeps; eauto.
Qed.

Lemma exec_keeps (schedule : list label) :
  forall s s', exec schedule s = Some s' -> invariant s -> invariant s'.
Proof.
  induction schedule as [|l schedule IH]; simpl; intros s s' H I.
  - now injection H as <-.
  - destruct (step l s) as [s1|] eqn:E; [|discriminate].
    eapply IH; eauto. eapply step_keeps; eauto.
Qed.

Lemma spawn_invariant (client : bool) (question : str) (hint : option str)
    (llm : completions) (now : Q) :
  invariant (spawn client question hint llm now).
Proof.
  constructor.
  - simpl. constructor; simpl; auto; try discriminate.
    + unfold MAX_THINKING_CUES. lia.
    + intros t line [].
  - simpl. constructor; simpl; auto; try discriminate.
    intros _. repeat split; auto. discriminate.
  - intros pre t e post E.
    assert (H : In (t, AnswerRelay, e)
                   (trace (spawn client question hint llm now))).
    { rewrite E. apply in_app_iff. right. now left. }
    apply in_stamp in H. destruct H. discriminate.
  - intros N. now elim N.
Qed.

(** Every state a schedule leads to from the start of the relays satisfies
    the invariant. *)
Lemma reachable_invariant (client : bool) (question : str)
    (hint : option str) (llm : completions) (now : Q)
    (schedule : list label) (s : system) :
  exec schedule (spawn client question hint llm now) = Some s -> invariant s.
Proof. intros H. eapply exec_keeps; eauto. apply spawn_invariant. Qed.

Lemma run_invariant (client : bool) (question : str) (d : decision)
    (llm : completions) (now : Q) (s0 : system) (schedule : list label)
    (s : system) :
  run client question d llm now = ThinkingAndAnswering s0 ->
  exec schedule s0 = Some s -> invariant s.
Proof.
  unfold run. destruct (need_thinking d); simpl.
  - intros H. injection H as <-. apply reachable_invariant.
  - destruct (_respond_directly client d (confidence d)). discriminate.
Qed.

(** ** The ThinkingAndAnswering path *)

(** C1: in every state that any schedule of the two relays, the two
    producer threads and the clock leads to, whatever the answer relay has
    done (its hand-off announcement, every clause it printed, its speak
    call) comes in the trace after the thinking relay's
    [thinking_window_done.set()]; this holds however early the answer
    stream is fetched. *)
Theorem C1_answer_after_barrier
    (client : bool) (question : str) (d : decision) (llm : completions)
    (now : Q) (s0 : system) (schedule : list label) (s : system) :
  run client question d llm now = ThinkingAndAnswering s0 ->
  exec schedule s0 = Some s ->
  barrier_first (trace s).
Proof. intros R E. exact (of_trace _ (run_invariant _ _ _ _ _ _ _ _ R E)). Qed.

(** A turn for C1: the answer stream is fetched to its end while the
    thinking stream has produced nothing; the answer relay then cannot go
    on, and once the thinking relay has exited it prints and speaks. *)
Lemma C1_answer_after_barrier_witness :
  exists waiting final,
    exec answer_fetched_first (start true two_streams) = Some waiting
    /\ thread_finished (reasoning_model waiting) = true
    /\ thread_finished (thinking_model waiting) = false
    /\ step (Go AnswerRelay) waiting = None
    /\ exec thinking_then_answer waiting = Some final
    /\ length (events_of AnswerRelay (trace final)) = 5
    /\ barrier_first (trace final).
Proof.
  eexists. eexists.
  split; [vm_compute; reflexivity|].
  split; [reflexivity|]. split; [reflexivity|].
  split; [vm_compute; reflexivity|].
  split; [vm_compute; reflexivity|].
  split; [reflexivity|].
  apply (C1_answer_after_barrier true (lit "Why?") thoughtful two_streams 0%Q
           (start true two_streams)
           (answer_fetched_first ++ thinking_then_answer)).
  - reflexivity.
  - vm_compute. reflexivity.
Defined.

(** C7, as the spec states it, fails: when the thinking stream yields its
    first clause 20 seconds after the relay started, the relay is still
    waiting in its [async for] when the deadline passes, and exits at 20
    seconds, later than the 10 seconds of the window plus the half second
    of a pause. *)
Lemma C7_slow_stream_counterexample :
  match exec slow_stream (start true two_streams) with
  | Some s =>
      t_pc (thinking_task s) = TDone Completed 20%Q
      /\ started (thinking_task s) = 0%Q
      /\ ~ within_window s
  | None => False
  end.
Proof.
  vm_compute. split; [reflexivity|]. split; [reflexivity|].
  intros H. apply H. reflexivity.
Qed.

(** C7 (amended): the thinking relay never prints more cues (model cues
    and fallback lines together) than [MAX_THINKING_CUES]; it prints no cue
    at or after its deadline, the start time plus
    [THINKING_DURATION_SECONDS]; and every pause it takes is due before the
    deadline plus [THINKING_PAUSE_SECONDS].  The time it waits for the
    stream or for an actuation call is not bounded. *)
Theorem C7_cues_capped_and_in_window
    (client : bool) (question : str) (d : decision) (llm : completions)
    (now : Q) (s0 : system) (schedule : list label) (s : system) :
  run client question d llm now = ThinkingAndAnswering s0 ->
  exec schedule s0 = Some s ->
  cues (timed_events_of ThinkingRelay (trace s)) <= MAX_THINKING_CUES
  /\ (forall t line,
        In (t, ThinkingRelay, Print line) (trace s) ->
        (t < started (thinking_task s) + THINKING_DURATION_SECONDS)%Q)
  /\ (forall in_stream wake,
        t_pc (thinking_task s) = TSleep in_stream wake ->
        (wake < started (thinking_task s) + THINKING_DURATION_SECONDS
                + THINKING_PAUSE_SECONDS)%Q).
Proof.
  intros R E.
  destruct (run_invariant _ _ _ _ _ _ _ _ R E) as [[I1 I2 I3 I4 I5 I6] _ _ ID].
  split; [exact I4|]. split.
  - intros t line H. apply in_timed_events_of in H.
    assert (N : t_pc (thinking_task s) <> TCreated).
    { intros C. rewrite (I1 C) in H. destruct H. }
    rewrite <- (ID N). eauto.
  - intros b wake H. rewrite <- ID by congruence. eauto.
Qed.

(** A turn for C7: fallback lines every half second; the relay stops at
    the twelfth. *)
Lemma C7_cues_capped_and_in_window_witness :
  exists final,
    exec fallback_until_cap (start false silence) = Some final
    /\ cues (timed_events_of ThinkingRelay (trace final)) = 12
    /\ cues (timed_events_of ThinkingRelay (trace final)) <= MAX_THINKING_CUES.
Proof.
  eexists. split; [vm_compute; reflexivity|]. split; [reflexivity|].
  apply (C7_cues_capped_and_in_window false (lit "Why?") thoughtful silence
           0%Q (start false silence) fallback_until_cap).
  - reflexivity.
  - vm_compute. reflexivity.
Defined.

(** C8: once the thinking relay has exited, however it exited (window
    closed by the deadline or the cap, cancelled, or a failure raised
    inside it), it has called [thinking_window_done.set()] exactly once, as
    the last thing it did, the flag is set, and an answer relay waiting on
    the barrier can go on; before the exit the relay has not signalled. *)
Theorem C8_barrier_signalled_once_at_exit
    (client : bool) (question : str) (d : decision) (llm : completions)
    (now : Q) (s0 : system) (schedule : list label) (s : system) :
  run client question d llm now = ThinkingAndAnswering s0 ->
  exec schedule s0 = Some s ->
  (thinking_exited s ->
     (exists pre,
        events_of ThinkingRelay (trace s) = pre ++ [BarrierSet]
        /\ ~ In BarrierSet pre)
     /\ thinking_window_done s = true
     /\ (forall clause,
           a_pc (answer_task s) = AWait clause ->
           exists s', step (Go AnswerRelay) s = Some s'))
  /\ (~ thinking_exited s ->
      ~ In BarrierSet (events_of ThinkingRelay (trace s))
      /\ thinking_window_done s = false).
Proof.
  intros R E.
  destruct (run_invariant _ _ _ _ _ _ _ _ R E) as [[_ I2 _ _ _ _] _ _ _].
  unfold thinking_exited, events_of. split.
  - intros (o & t & Hpc). rewrite Hpc in I2.
    destruct I2 as (F & pre & t' & -> & N). split; [|split; [exact F|]].
    + exists (map snd pre). split; auto. now rewrite map_app.
    + intros clause Ha. simpl. rewrite Ha. unfold resume_answer, _relay_answer.
      rewrite Ha, F. destruct (hand_off _ _ _ _). eauto.
  - intros N. destruct (t_pc (thinking_task s)); try (destruct I2; now split).
    elim N. eauto.
Qed.

(** Turns for C8, one for each way out: the deadline, the cap, a
    cancellation, a failure of the stream. *)
Lemma C8_barrier_signalled_once_at_exit_witness :
  (exists final,
     exec slow_stream (start true two_streams) = Some final
     /\ t_pc (thinking_task final) = TDone Completed 20%Q
     /\ thinking_window_done final = true)
  /\ (exists final,
        exec fallback_until_cap (start false silence) = Some final
        /\ emitted (thinking_task final) = MAX_THINKING_CUES
        /\ thinking_window_done final = true)
  /\ (exists final,
        exec cancelled_early (start false two_streams) = Some final
        /\ t_pc (thinking_task final) = TDone Cancelled 0%Q
        /\ thinking_window_done final = true)
  /\ (exists final,
        exec stream_failure (start false broken_thinking_stream) = Some final
        /\ t_pc (thinking_task final) = TDone Failed 0%Q
        /\ thinking_window_done final = true).
Proof.
  repeat split; eexists;
    (split; [vm_compute; reflexivity|]); (split; [reflexivity|]).
  - apply (C8_barrier_signalled_once_at_exit true (lit "Why?") thoughtful
             two_streams 0%Q (start true two_streams) slow_stream);
      [reflexivity | vm_compute; reflexivity | ].
    eexists. eexists. reflexivity.
  - apply (C8_barrier_signalled_once_at_exit false (lit "Why?") thoughtful
             silence 0%Q (start false silence) fallback_until_cap);
      [reflexivity | vm_compute; reflexivity | ].
    eexists. eexists. reflexivity.
  - apply (C8_barrier_signalled_once_at_exit false (lit "Why?") thoughtful
             two_streams 0%Q (start false two_streams) cancelled_early);
      [reflexivity | vm_compute; reflexivity | ].
    eexists. eexists. reflexivity.
  - apply (C8_barrier_signalled_once_at_exit false (lit "Why?") thoughtful
             broken_thinking_stream 0%Q (start false broken_thinking_stream)
             stream_failure);
      [reflexivity | vm_compute; reflexivity | ].
    eexists. eexists. reflexivity.
Defined.

(* ================================================================== *)
(** * Part III. Further properties of the code                         *)
(* ================================================================== *)

(** ** The segmenter: fragments, sentences and word counts *)

(** X1: how the text is cut into fragments does not matter: the clauses of
    a fragment sequence are the clauses of its concatenation fed as one
    fragment. *)
Theorem X1_fragmentation_does_not_matter (tokens : list str) :
  clauses (_generate_clauses tokens)
  = clauses (_generate_clauses [concat tokens]).
Proof.
  unfold _generate_clauses, concat.
  rewrite !(generate_loop_scan _ [] eq_refl). simpl List.concat.
  now rewrite app_nil_r.
Qed.

(** X2: [_pop_ready_clauses] cuts one clause at every terminal character
    (its empty-clause guard never drops one); each clause is a sentence,
    with its terminal character last and no other inside; the remainder
    has no terminal character. *)
Theorem X2_one_clause_per_terminal (text : str) :
  length (fst (_pop_ready_clauses text)) = terminals text
  /\ Forall sentence (fst (_pop_ready_clauses text))
  /\ unterminated (snd (_pop_ready_clauses text)).
Proof.
  rewrite pop_ready_scan. split; [apply scan_count|].
  split; [now apply scan_sentences | now apply scan_remainder].
Qed.

(** X3: the clauses of a stream are one sentence per terminal character of
    the whole text, followed by at most one more clause, the flush, which
    is not empty and has no terminal character. *)
Theorem X3_only_the_flush_is_unterminated (tokens : list str) :
  exists sentences flush,
    clauses (_generate_clauses tokens) = sentences ++ flush
    /\ Forall sentence sentences
    /\ length sentences = terminals (concat tokens)
    /\ (flush = [] \/ exists c, flush = [c] /\ c <> [] /\ unterminated c).
Proof.
  unfold _generate_clauses, concat.
  rewrite (generate_loop_scan _ [] eq_refl).
  eexists. eexists. split; [reflexivity|].
  split; [now apply scan_sentences|]. split; [apply scan_count|].
  destruct (truthy _) eqn:T; auto. right. eexists. split; [reflexivity|].
  split; [now apply truthy_true|].
  now apply unterminated_strip, scan_remainder.
Qed.

Lemma generate_loop_word_count (pre : list str) :
  forall buffer tok post,
    unterminated buffer -> unterminated (List.concat pre) ->
    nth (length pre) (word_counts (generate_loop (pre ++ tok :: post) buffer)) 0
    = length (split (buffer ++ List.concat pre ++ tok)).
Proof.
  induction pre as [|p pre IH]; intros buffer tok post Hb Hp; simpl.
  - now destruct (_pop_ready_clauses (buffer ++ tok)).
  - simpl in Hp. apply unterminated_app in Hp. destruct Hp as [Hp1 Hp2].
    rewrite pop_ready_scan.
    rewrite (scan_unterminated (buffer ++ p) []);
      [|apply unterminated_app; now split].
    simpl. rewrite IH; auto; [|apply unterminated_app; now split].
    now rewrite <- !app_assoc.
Qed.

(** X4: until the first sentence is complete the word count is
    cumulative: after a fragment before which no terminal character has
    arrived, [word_count] is the number of words of everything received,
    that fragment included. *)
Theorem X4_word_count_until_first_sentence
    (pre : list str) (tok : str) (post : list str) :
  unterminated (concat pre) ->
  nth (length pre) (word_counts (_generate_clauses (pre ++ tok :: post))) 0
  = length (split (concat pre ++ tok)).
Proof.
  intros H. unfold _generate_clauses.
  now rewrite (generate_loop_word_count pre [] tok post eq_refl H).
Qed.

(** Fragments for X4: the first sentence ends in the second fragment. *)
Lemma X4_word_count_until_first_sentence_witness :
  nth 1 (word_counts
           (_generate_clauses [lit "Hel"; lit "lo. How"; lit " are you?"])) 0
  = 2.
Proof.
  exact (X4_word_count_until_first_sentence
           [lit "Hel"] (lit "lo. How") [lit " are you?"] eq_refl).
Defined.

(** ** The lines of the streamed response *)

Lemma after_first_prefix (sep rest : str) :
  after_first sep (sep ++ rest) = Some rest.
Proof.
  destruct (sep ++ rest) as [|c t] eqn:E.
  - apply app_eq_nil in E. destruct E as [-> ->]. reflexivity.
  - simpl. rewrite <- E, startswith_app. f_equal.
    rewrite skipn_app, Nat.sub_diag, skipn_all. reflexivity.
Qed.

Lemma data_of_prefixed (rest : str) :
  data_of (lit "data:" ++ rest) = Some (strip rest).
Proof.
  unfold data_of. now rewrite startswith_app, after_first_prefix.
Qed.

Section TokenLines.
Variable delta_content : str -> option (option str).

Lemma token_lines_skip (line : str) (rest : list str) (broken : bool) :
  truthy line = false \/ data_of line = Some [] ->
  token_lines delta_content (line :: rest) broken
  = token_lines delta_content rest broken.
Proof.
  intros [H | H]; simpl.
  - now rewrite H.
  - rewrite H. now destruct (truthy line).
Qed.

Lemma token_lines_done (line : str) (rest : list str) (broken : bool) :
  data_of line = Some (lit "[DONE]") ->
  token_lines delta_content (line :: rest) broken = ([], false).
Proof.
  intros H. simpl. rewrite H.
  destruct line; [discriminate H | reflexivity].
Qed.

(** What is read before a point does not depend on what follows it. *)
Lemma token_lines_tail (before tail1 tail2 : list str) (b1 b2 : bool) :
  token_lines delta_content tail1 b1 = token_lines delta_content tail2 b2 ->
  token_lines delta_content (before ++ tail1) b1
  = token_lines delta_content (before ++ tail2) b2.
Proof.
  intros H. induction before as [|line before IH]; simpl; auto.
  destruct (negb (truthy line)); auto.
  destruct (data_of line) as [data|]; auto.
  destruct (negb (truthy data)); auto.
  destruct (str_eqb data (lit "[DONE]")); auto.
  destruct (delta_content data); auto. now rewrite IH.
Qed.

Lemma token_lines_non_empty (lines : list str) (broken : bool) :
  Forall (fun token => token <> [])
         (fst (token_lines delta_content lines broken)).
Proof.
  induction lines as [|line lines IH]; simpl; auto.
  destruct (negb (truthy line)); auto.
  destruct (data_of line) as [data|]; simpl; auto.
  destruct (negb (truthy data)); auto.
  destruct (str_eqb data (lit "[DONE]")); simpl; auto.
  destruct (delta_content data) as [delta|]; simpl; auto.
  destruct (token_lines delta_content lines broken) as [tokens fails].
  simpl in *. destruct delta as [d|]; auto.
  destruct (truthy d) eqn:T; auto. constructor; auto. now apply truthy_true.
Qed.

End TokenLines.

(** X5: a "[DONE]" line ends the token stream normally, and nothing after
    it is read: whatever follows, even lines that cannot be decoded or a
    connection that breaks, changes neither the tokens nor the ending. *)
Theorem X5_nothing_is_read_after_done
    (delta_content : str -> option (option str))
    (before : list str) (line : str) (after : list str) (broken : bool) :
  data_of line = Some (lit "[DONE]") ->
  token_lines delta_content (before ++ line :: after) broken
  = token_lines delta_content before false.
Proof.
  intros H. rewrite <- (app_nil_r before) at 2.
  apply token_lines_tail. now apply token_lines_done.
Qed.

(** Lines for X5: nothing can be decoded, and the connection breaks, after
    the "[DONE]" line. *)
Lemma X5_nothing_is_read_after_done_witness :
  token_lines (fun _ => None) [lit "data: [DONE]"; lit "data: {"] true
  = ([], false).
Proof.
  exact (X5_nothing_is_read_after_done (fun _ => None) []
           (lit "data: [DONE]") [lit "data: {"] true eq_refl).
Defined.

(** X6: an empty line, and a line whose data is empty once trimmed, yield
    nothing and change nothing of what the other lines yield; and no token
    yielded is empty. *)
Theorem X6_empty_lines_and_tokens
    (delta_content : str -> option (option str))
    (before : list str) (line : str) (after : list str) (broken : bool) :
  (truthy line = false \/ data_of line = Some [] ->
   token_lines delta_content (before ++ line :: after) broken
   = token_lines delta_content (before ++ after) broken)
  /\ Forall (fun token => token <> [])
            (fst (token_lines delta_content (before ++ line :: after) broken)).
Proof.
  split; [|apply token_lines_non_empty].
  intros H. apply token_lines_tail. now apply token_lines_skip.
Qed.

(** Lines for X6: a "data:" line with nothing but white space. *)
Lemma X6_empty_lines_and_tokens_witness :
  token_lines (fun _ => Some (Some (lit "Hi")))
    [lit "data: a"; lit "data:   "; lit "data: b"] false
  = ([lit "Hi"; lit "Hi"], false).
Proof.
  exact (eq_trans
    (proj1 (X6_empty_lines_and_tokens (fun _ => Some (Some (lit "Hi")))
              [lit "data: a"] (lit "data:   ") [lit "data: b"] false)
       (or_intror eq_refl))
    eq_refl).
Defined.

(** X7: the "data:" prefix is optional: a line and the same line behind
    "data:" are read alike (the line itself not starting with "data:"). *)
Theorem X7_data_prefix_is_optional
    (delta_content : str -> option (option str))
    (before : list str) (line : str) (after : list str) (broken : bool) :
  startswith line (lit "data:") = false ->
  token_lines delta_content (before ++ (lit "data:" ++ line) :: after) broken
  = token_lines delta_content (before ++ line :: after) broken.
Proof.
  intros H. apply token_lines_tail.
  destruct line as [|c line].
  - reflexivity.
  - change (token_lines delta_content ((lit "data:" ++ c :: line) :: after)
              broken)
      with (match data_of (lit "data:" ++ c :: line) with
            | None => ([], true)
            | Some data =>
                if negb (truthy data)
                then token_lines delta_content after broken
                else if str_eqb data (lit "[DONE]") then ([], false)
                else
                  match delta_content data with
                  | None => ([], true)
                  | Some delta =>
                      let (tokens, fails) :=
                        token_lines delta_content after broken in
                      (match delta with
                       | Some d => if truthy d then d :: tokens else tokens
                       | None => tokens
                       end, fails)
                  end
            end).
    rewrite data_of_prefixed. simpl. unfold data_of. now rewrite H.
Qed.

(** A line for X7. *)
Lemma X7_data_prefix_is_optional_witness :
  token_lines (fun _ => Some (Some (lit "Hi"))) [lit "data:{}"] false
  = token_lines (fun _ => Some (Some (lit "Hi"))) [lit "{}"] false.
Proof.
  exact (X7_data_prefix_is_optional (fun _ => Some (Some (lit "Hi")))
           [] (lit "{}") [] false eq_refl).
Defined.

(** ** The producer thread and the stream *)

Lemma produce_ready_working (fails : bool) (ready : list str) :
  forall tokens buffer wc queue,
    produce (length ready) (working fails tokens buffer wc ready queue)
    = working fails tokens buffer wc [] (queue ++ map Clause ready).
Proof.
  induction ready as [|c ready IH]; intros tokens buffer wc queue; simpl.
  - now rewrite app_nil_r.
  - unfold producer_step. simpl.
    fold (working fails tokens buffer wc ready (queue ++ [Clause c])).
    rewrite IH, <- app_assoc. reflexivity.
Qed.

Lemma producer_step_finished (m : streamer) :
  thread_finished m = true -> producer_step m = None.
Proof. intros H. unfold producer_step. now rewrite H, orb_true_r. Qed.

Lemma received_clauses (cl : list str) (rest : list queue_item) :
  received (map Clause cl ++ rest)
  = (cl ++ fst (received rest), snd (received rest)).
Proof.
  induction cl as [|c cl IH]; simpl.
  - now destruct (received rest).
  - now rewrite IH.
Qed.

(** X8: left to run on a token stream that does not fail, the producer
    thread finishes; the queue then holds the clauses of
    [_generate_clauses], in order, and the end marker, so that [stream]
    yields exactly these clauses and ends; [word_count] is left at the
    last value the generator gave it. *)
Theorem X8_producer_delivers_the_clauses (tokens : list str) :
  exists n,
    let m := produce n (start_thread (new_streamer tokens false)) in
    thread_finished m = true
    /\ producer_step m = None
    /\ queue m = map Clause (clauses (_generate_clauses tokens)) ++ [EndOfStream]
    /\ received (queue m)
       = (clauses (_generate_clauses tokens), Some Exhausted)
    /\ Orchestrator.word_count m = final_word_count tokens.
Proof.
  destruct (producer_refines_generate tokens [] 0 []) as (n & F & Hq & Hw).
  exists n. cbv zeta.
  change (start_thread (new_streamer tokens false))
    with (at_work tokens [] 0 [] []).
  simpl in Hq. rewrite Hq.
  split; [exact F|]. split; [now apply producer_step_finished|].
  split; [reflexivity|]. split; [|exact Hw].
  rewrite received_clauses. simpl. now rewrite app_nil_r.
Qed.

Lemma producer_fails (tokens : list str) :
  forall buffer wc queue,
    unterminated buffer ->
    exists n,
      thread_finished (produce n (working true tokens buffer wc [] queue)) = true
      /\ Orchestrator.queue (produce n (working true tokens buffer wc [] queue))
         = queue ++ map Clause (fst (scan buffer (List.concat tokens)))
           ++ [Exception; EndOfStream].
Proof.
  induction tokens as [|token tokens IH]; intros buffer wc queue Hb.
  - exists 1. simpl. auto.
  - destruct (scan_app buffer token []) as [A1 A2].
    rewrite (scan_unterminated buffer [] Hb) in A1, A2. simpl in A1, A2.
    destruct (scan_app token (List.concat tokens) buffer) as [B1 _].
    destruct (IH (snd (scan buffer token))
                (length (split (buffer ++ token)))
                (queue ++ map Clause (fst (scan buffer token)))
                (scan_remainder token buffer Hb)) as (n & F & Hq).
    exists (S (length (fst (scan buffer token)) + n)).
    assert (E : produce (S (length (fst (scan buffer token)) + n))
                  (working true (token :: tokens) buffer wc [] queue)
                = produce n
                    (working true tokens (snd (scan buffer token))
                       (length (split (buffer ++ token))) []
                       (queue ++ map Clause (fst (scan buffer token))))).
    { simpl. unfold producer_step. simpl. rewrite pop_ready_scan.
      destruct (scan [] (buffer ++ token)) as [ready rest]. simpl in A1, A2.
      subst ready rest.
      fold (working true tokens (snd (scan buffer token))
              (length (split (buffer ++ token))) (fst (scan buffer token))
              queue).
      destruct (produce_add (length (fst (scan buffer token))) n
                  (working true tokens (snd (scan buffer token))
                     (length (split (buffer ++ token)))
                     (fst (scan buffer token)) queue)) as [H | [H | H]].
      - now rewrite H, produce_ready_working.
      - rewrite produce_ready_working in H. discriminate H.
      - discriminate H. }
    rewrite E. split; [exact F|].
    rewrite Hq. simpl List.concat. rewrite B1, map_app, <- !app_assoc.
    reflexivity.
Qed.

(** X9: when the token stream fails, the producer thread still finishes:
    the sentences completed by then are in the queue, the unfinished
    remainder is not, and the exception follows them, so that [stream]
    yields these sentences and then raises. *)
Theorem X9_producer_hands_on_the_failure (tokens : list str) :
  exists n,
    let m := produce n (start_thread (new_streamer tokens true)) in
    thread_finished m = true
    /\ queue m = map Clause (fst (scan [] (concat tokens)))
                 ++ [Exception; EndOfStream]
    /\ received (queue m) = (fst (scan [] (concat tokens)), Some Raises)
    /\ Forall sentence (fst (received (queue m))).
Proof.
  destruct (producer_fails tokens [] 0 [] eq_refl) as (n & F & Hq).
  exists n. cbv zeta.
  change (start_thread (new_streamer tokens true))
    with (working true tokens [] 0 [] []).
  simpl in Hq. unfold concat. rewrite Hq.
  split; [exact F|]. split; [reflexivity|].
  rewrite received_clauses. simpl. rewrite app_nil_r.
  split; [reflexivity|]. now apply scan_sentences.
Qed.

(** ** Confidence tiers *)

Lemma estimate_known (word_count : Z) :
  ResolverSpec.known_tier
    (BehaviorGenerator._estimate_confidence_from_words word_count) = true.
Proof.
  unfold BehaviorGenerator._estimate_confidence_from_words.
  destruct (word_count <? 25)%Z; [reflexivity|].
  destruct (word_count <? 60)%Z; reflexivity.
Qed.

Lemma resolve_known (hint : option str) (word_count : Z) :
  ResolverSpec.known_tier
    (BehaviorGenerator.resolve_confidence hint word_count) = true.
Proof.
  unfold BehaviorGenerator.resolve_confidence.
  destruct hint as [h|]; [|apply estimate_known].
  rewrite plan_table_keys.
  destruct (truthy h); simpl; [|apply estimate_known].
  destruct (ResolverSpec.known_tier (lower (strip h))) eqn:K; auto.
  apply estimate_known.
Qed.

Lemma main_resolve_same (hint : option str) (word_count : Z) :
  Main.resolve_confidence hint word_count
  = BehaviorGenerator.resolve_confidence hint word_count.
Proof.
  unfold Main.resolve_confidence, BehaviorGenerator.resolve_confidence.
  destruct hint as [h|]; auto.
  rewrite main_table_keys, plan_table_keys.
  destruct (truthy h); simpl; auto.
Qed.

(** X10: whatever the hint and the word count, both resolvers return one of
    the three tiers, and main.py's returns what the plan's returns; so
    looking the result up in either table of confidence behaviours never
    misses. *)
Theorem X10_resolved_tier_is_in_the_tables
    (hint : option str) (word_count : Z) :
  Main.resolve_confidence hint word_count
    = BehaviorGenerator.resolve_confidence hint word_count
  /\ dict_mem BehaviorGenerator.CONFIDENCE_BEHAVIORS
       (BehaviorGenerator.resolve_confidence hint word_count) = true
  /\ dict_mem Main.CONFIDENCE_BEHAVIORS
       (Main.resolve_confidence hint word_count) = true.
Proof.
  split; [apply main_resolve_same|].
  rewrite main_resolve_same, plan_table_keys, main_table_keys.
  split; apply resolve_known.
Qed.

Lemma estimate_monotone (wc wc' : Z) :
  (wc <= wc')%Z ->
  BehaviorGenerator.tier_rank
    (BehaviorGenerator._estimate_confidence_from_words wc)
  <= BehaviorGenerator.tier_rank
       (BehaviorGenerator._estimate_confidence_from_words wc').
Proof.
  intros H. unfold BehaviorGenerator._estimate_confidence_from_words.
  destruct (wc <? 25)%Z eqn:A, (wc' <? 25)%Z eqn:A',
    (wc <? 60)%Z eqn:B, (wc' <? 60)%Z eqn:B';
    try (vm_compute; lia);
    rewrite ?Z.ltb_lt, ?Z.ltb_ge in *; lia.
Qed.

(** X11: longer answers never lower the confidence: with the hint held
    fixed, the resolved tier is monotone in the word count (low below
    medium below high). *)
Theorem X11_more_words_never_less_confidence
    (hint : option str) (wc wc' : Z) :
  (wc <= wc')%Z ->
  BehaviorGenerator.tier_rank (BehaviorGenerator.resolve_confidence hint wc)
  <= BehaviorGenerator.tier_rank (BehaviorGenerator.resolve_confidence hint wc').
Proof.
  intros H. unfold BehaviorGenerator.resolve_confidence.
  destruct hint as [h|]; [|now apply estimate_monotone].
  destruct (truthy h && _); [apply Nat.le_refl | now apply estimate_monotone].
Qed.

(** Word counts for X11: either side of the first threshold. *)
Lemma X11_more_words_never_less_confidence_witness :
  BehaviorGenerator.tier_rank (BehaviorGenerator.resolve_confidence None 24)
  <= BehaviorGenerator.tier_rank (BehaviorGenerator.resolve_confidence None 25).
Proof.
  apply (X11_more_words_never_less_confidence None 24 25). discriminate.
Defined.

(** X12: [get_full_confidence_behavior] never fails, an unknown tier is
    served as "medium", and [get_confidence_behavior] returns the first two
    fields of what it returns: the two accessors cannot disagree. *)
Theorem X12_legacy_behaviour_is_a_projection (confidence : str) :
  exists prefix gesture expression led,
    BehaviorGenerator.get_full_confidence_behavior confidence
      = Some (prefix, gesture, expression, led)
    /\ BehaviorGenerator.get_confidence_behavior confidence = (prefix, gesture)
    /\ (dict_mem BehaviorGenerator.CONFIDENCE_BEHAVIORS confidence = false ->
        BehaviorGenerator.get_full_confidence_behavior confidence
        = BehaviorGenerator.get_full_confidence_behavior (lit "medium")).
Proof.
  unfold BehaviorGenerator.get_full_confidence_behavior,
    BehaviorGenerator.get_confidence_behavior.
  destruct (dict_mem BehaviorGenerator.CONFIDENCE_BEHAVIORS confidence) eqn:M.
  - rewrite plan_table_keys in M.
    destruct (known_tier_cases _ M) as [-> | [-> | ->]];
      do 4 eexists; (split; [reflexivity|]); split;
      try reflexivity; discriminate.
  - do 4 eexists. split; [reflexivity|]. split; reflexivity.
Qed.

(** A tier for X12 that is not in the table. *)
Lemma X12_legacy_behaviour_is_a_projection_witness :
  exists prefix gesture expression led,
    BehaviorGenerator.get_full_confidence_behavior (lit "certain")
      = Some (prefix, gesture, expression, led)
    /\ BehaviorGenerator.get_confidence_behavior (lit "certain")
       = (prefix, gesture)
    /\ BehaviorGenerator.get_full_confidence_behavior (lit "certain")
       = BehaviorGenerator.get_full_confidence_behavior (lit "medium").
Proof.
  destruct (X12_legacy_behaviour_is_a_projection (lit "certain"))
    as (p & g & e & l & H1 & H2 & H3).
  exists p, g, e, l. split; [exact H1|]. split; [exact H2|].
  exact (H3 eq_refl).
Defined.

(** ** Reading the tier back from the text *)

Lemma lower_app (a b : str) : lower (a ++ b) = lower a ++ lower b.
Proof. apply flat_map_app. Qed.

Lemma lower_char_apostrophe (c : char) : In 39%N (lower_char c) -> c = 39%N.
Proof.
  unfold lower_char.
  destruct ((65 <=? c)%N && (c <=? 90)%N) eqn:A.
  - apply andb_true_iff in A. destruct A as [A _]. apply N.leb_le in A.
    intros [H | []]. lia.
  - destruct ((192 <=? c)%N && (c <=? 222)%N && negb (c =? 215)%N) eqn:B.
    + apply andb_true_iff in B. destruct B as [B _].
      apply andb_true_iff in B. destruct B as [B _]. apply N.leb_le in B.
      intros [H | []]. lia.
    + destruct (c =? 8490)%N; [intros [H | []]; discriminate|].
      destruct (c =? 304)%N; [intros [H | [H | []]]; discriminate|].
      intros [H | []]. auto.
Qed.

Lemma lower_no_apostrophe (s : str) : ~ In 39%N s -> ~ In 39%N (lower s).
Proof.
  intros H Hin. unfold lower in Hin. apply in_flat_map in Hin.
  destruct Hin as (c & Hc & Hl). apply lower_char_apostrophe in Hl.
  subst. auto.
Qed.

Lemma startswith_needs_apostrophe (t m : str) :
  ~ In 39%N t -> startswith t (39%N :: m) = false.
Proof.
  destruct t as [|y t]; simpl; auto. intros H.
  destruct (N.eqb_spec y 39) as [->|]; auto. elim H. now left.
Qed.

(** A phrase with an apostrophe in second place does not occur in a text
    without apostrophe. *)
Lemma contains_needs_apostrophe (t : str) (c : char) (m : str) :
  ~ In 39%N t -> contains t (c :: 39%N :: m) = false.
Proof.
  induction t as [|x t IH]; intros H; [reflexivity|].
  change (contains (x :: t) (c :: 39%N :: m))
    with ((x =? c)%N && startswith t (39%N :: m)
          || contains t (c :: 39%N :: m)).
  rewrite startswith_needs_apostrophe by (intros N; apply H; now right).
  rewrite andb_false_r. simpl. apply IH. intros N. apply H. now right.
Qed.

(** In a text whose only apostrophe is in second place, such a phrase
    occurs only at the start. *)
Lemma contains_at_the_start (x : char) (t : str) (c : char) (m : str) :
  ~ In 39%N t ->
  contains (x :: 39%N :: t) (c :: 39%N :: m)
  = startswith (x :: 39%N :: t) (c :: 39%N :: m).
Proof.
  intros H.
  change (contains (x :: 39%N :: t) (c :: 39%N :: m))
    with (startswith (x :: 39%N :: t) (c :: 39%N :: m)
          || (startswith (39%N :: t) (c :: 39%N :: m)
              || contains t (c :: 39%N :: m))).
  rewrite (contains_needs_apostrophe t c m H), orb_false_r.
  change (startswith (39%N :: t) (c :: 39%N :: m))
    with ((39 =? c)%N && startswith t (39%N :: m)).
  rewrite (startswith_needs_apostrophe t m H).
  now rewrite andb_false_r, orb_false_r.
Qed.

Lemma contains_prefix (a b : str) : contains (a ++ b) a = true.
Proof.
  destruct (a ++ b) eqn:E; simpl; rewrite <- E, startswith_app; reflexivity.
Qed.

Lemma not_in_app (a b : str) :
  ~ In 39%N a -> ~ In 39%N b -> ~ In 39%N (a ++ b).
Proof. intros Ha Hb H. apply in_app_iff in H. tauto. Qed.

(** X13: the tier can be read back from an answer text: for each of the
    three tiers, [infer_confidence_from_text] applied to the tier's verbal
    prefix, a space and an answer returns that tier, provided the answer
    holds no apostrophe (an answer that itself says "I'm not sure" is read
    as low whatever its prefix). *)
Theorem X13_tier_read_back_from_prefixed_text (tier answer : str) :
  ResolverSpec.known_tier tier = true ->
  ~ In 39%N answer ->
  BehaviorGenerator.infer_confidence_from_text
    (fst (BehaviorGenerator.get_confidence_behavior tier)
     ++ lit " " ++ answer) = tier.
Proof.
  intros K H. apply lower_no_apostrophe in H.
  unfold BehaviorGenerator.infer_confidence_from_text.
  rewrite lower_app, lower_app.
  destruct (known_tier_cases _ K) as [-> | [-> | ->]].
  - change (lower (fst (BehaviorGenerator.get_confidence_behavior (lit "low")))
            ++ lower (lit " ") ++ lower answer)
      with (lit "i'm not entirely sure" ++ (lit ", but " ++ lower answer)).
    now rewrite contains_prefix.
  - change (lower (fst (BehaviorGenerator.get_confidence_behavior (lit "medium")))
            ++ lower (lit " ") ++ lower answer)
      with (lit "let me think " ++ lower answer).
    assert (N : ~ In 39%N (lit "let me think " ++ lower answer)).
    { apply not_in_app; auto. simpl. intuition discriminate. }
    change (lit "i'm not entirely sure")
      with (105%N :: 39%N :: lit "m not entirely sure").
    change (lit "i'm not sure") with (105%N :: 39%N :: lit "m not sure").
    change (lit "i'm confident") with (105%N :: 39%N :: lit "m confident").
    change (lit "i'm certain") with (105%N :: 39%N :: lit "m certain").
    rewrite !(contains_needs_apostrophe _ _ _ N). reflexivity.
  - change (lower (fst (BehaviorGenerator.get_confidence_behavior (lit "high")))
            ++ lower (lit " ") ++ lower answer)
      with (105%N :: 39%N :: (lit "m confident that " ++ lower answer)).
    assert (N : ~ In 39%N (lit "m confident that " ++ lower answer)).
    { apply not_in_app; auto. simpl. intuition discriminate. }
    change (lit "i'm not entirely sure")
      with (105%N :: 39%N :: lit "m not entirely sure").
    change (lit "i'm not sure") with (105%N :: 39%N :: lit "m not sure").
    change (lit "i'm confident") with (105%N :: 39%N :: lit "m confident").
    rewrite !(contains_at_the_start _ _ _ _ N). reflexivity.
Qed.

(** An answer for X13. *)
Lemma X13_tier_read_back_from_prefixed_text_witness :
  BehaviorGenerator.infer_confidence_from_text
    (lit "I'm confident that Paris is the capital.") = lit "high".
Proof.
  apply (X13_tier_read_back_from_prefixed_text (lit "high")
           (lit "Paris is the capital.")).
  - reflexivity.
  - simpl. intuition discriminate.
Defined.

(** ** The requests sent to the robot *)

(** X14: with a client attached, [execute_multimodal_behavior] sends
    exactly three requests for every confidence string: the tier's gesture
    is a key of [gesture_map] and its LED colour a key of [color_map], so
    no gesture is silently left out and no colour falls back to the
    default; a string that is no tier is served as "medium".  Without a
    client nothing is sent. *)
Theorem X14_every_tier_has_a_full_behaviour (confidence : str) :
  (exists gesture expression color,
     BehaviorGenerator.execute_multimodal_behavior true confidence
     = [gesture; BehaviorGenerator.GestureStart expression (7 # 10)%Q 1%Q;
        BehaviorGenerator.LedSet color]
     /\ In (expression, color)
           [ (lit "Oh", lit "#FFC800"); (lit "Thoughtful", lit "#0066FF");
             (lit "BigSmile", lit "#00FF00") ])
  /\ (dict_mem BehaviorGenerator.CONFIDENCE_BEHAVIORS confidence = false ->
      BehaviorGenerator.execute_multimodal_behavior true confidence
      = BehaviorGenerator.execute_multimodal_behavior true (lit "medium"))
  /\ BehaviorGenerator.execute_multimodal_behavior false confidence = [].
Proof.
  split; [|split; [|reflexivity]].
  - destruct (dict_mem BehaviorGenerator.CONFIDENCE_BEHAVIORS confidence) eqn:M.
    + rewrite plan_table_keys in M.
      destruct (known_tier_cases _ M) as [-> | [-> | ->]];
        do 3 eexists; (split; [reflexivity|]); simpl; auto.
    + unfold BehaviorGenerator.execute_multimodal_behavior,
        BehaviorGenerator.get_full_confidence_behavior.
      rewrite M. do 3 eexists. split; [reflexivity|]. simpl. auto.
  - intros M.
    unfold BehaviorGenerator.execute_multimodal_behavior,
      BehaviorGenerator.get_full_confidence_behavior.
    now rewrite M.
Qed.

(** A string for X14 that is no tier. *)
Lemma X14_every_tier_has_a_full_behaviour_witness :
  BehaviorGenerator.execute_multimodal_behavior true (lit "unsure")
  = [BehaviorGenerator.AttendUser;
     BehaviorGenerator.GestureStart (lit "Thoughtful") (7 # 10)%Q 1%Q;
     BehaviorGenerator.LedSet (lit "#0066FF")].
Proof.
  exact (eq_trans
    (proj1 (proj2 (X14_every_tier_has_a_full_behaviour (lit "unsure")))
       eq_refl) eq_refl).
Defined.

Lemma mod_2_cases (n : nat) : n mod 2 = 0 \/ n mod 2 = 1.
Proof. pose proof (Nat.mod_upper_bound n 2). lia. Qed.

Lemma even_of_mod (n : nat) : Nat.even n = Nat.even (n mod 2).
Proof.
  rewrite (Nat.div_mod_eq n 2) at 1.
  now rewrite Nat.add_comm, Nat.even_add_mul_2.
Qed.

(** X15: with a client attached, [perform_thinking_behavior] sends three
    requests whatever the index, the LED request always orange, and it
    alternates with the parity of the index between attending to the user
    with "Thoughtful" and a head shake with "Oh". *)
Theorem X15_thinking_behaviour_alternates (sequence_index : nat) :
  BehaviorGenerator.perform_thinking_behavior true sequence_index
  = (if Nat.even sequence_index
     then [BehaviorGenerator.AttendUser;
           BehaviorGenerator.GestureStart (lit "Thoughtful") (7 # 10)%Q 1%Q;
           BehaviorGenerator.LedSet (lit "#FFA500")]
     else [BehaviorGenerator.GestureStart (lit "Shake") (1 # 2)%Q (4 # 5)%Q;
           BehaviorGenerator.GestureStart (lit "Oh") (7 # 10)%Q 1%Q;
           BehaviorGenerator.LedSet (lit "#FFA500")])
  /\ BehaviorGenerator.perform_thinking_behavior true (sequence_index + 2)
     = BehaviorGenerator.perform_thinking_behavior true sequence_index.
Proof.
  assert (E : forall n,
    BehaviorGenerator.perform_thinking_behavior true n
    = BehaviorGenerator.perform_thinking_behavior true (n mod 2)).
  { intros n. unfold BehaviorGenerator.perform_thinking_behavior.
    cbn [length negb]. now rewrite Nat.Div0.mod_mod. }
  split.
  - rewrite E, even_of_mod.
    destruct (mod_2_cases sequence_index) as [-> | ->]; reflexivity.
  - rewrite E, (E sequence_index). f_equal.
    rewrite <- Nat.Div0.add_mod_idemp_r. simpl (2 mod 2).
    now rewrite Nat.add_0_r.
Qed.

(** ** What reaches the decoder *)

(** X16: white space around the response text does not matter to
    [_parse_json] nor to [decide]: the text handed to the decoder, and so
    the value returned or the error raised, are the same. *)
Theorem X16_surrounding_white_space_is_ignored
    (json : Type) (json_loads : str -> option json) (left text right : str) :
  forallb isspace left = true -> forallb isspace right = true ->
  ControllerModel.candidate_of (left ++ text ++ right)
    = ControllerModel.candidate_of text
  /\ ControllerModel._parse_json json json_loads (left ++ text ++ right)
     = ControllerModel._parse_json json json_loads text
  /\ ControllerModel.decide json json_loads
       (ControllerModel.Content (left ++ text ++ right))
     = ControllerModel.decide json json_loads (ControllerModel.Content text).
Proof.
  intros Hl Hr.
  assert (S : strip (left ++ text ++ right) = strip text)
    by now apply strip_by_padding.
  assert (C : ControllerModel.candidate_of (left ++ text ++ right)
              = ControllerModel.candidate_of text).
  { unfold ControllerModel.candidate_of. now rewrite S. }
  split; [exact C|]. split.
  - unfold ControllerModel._parse_json. now rewrite C.
  - unfold ControllerModel.decide. now rewrite S.
Qed.

(** A response for X16, with newlines around it. *)
Lemma X16_surrounding_white_space_is_ignored_witness :
  ControllerModel.candidate_of ([10%N] ++ lit "{}" ++ [32%N; 10%N])
  = ControllerModel.candidate_of (lit "{}").
Proof.
  exact (proj1 (X16_surrounding_white_space_is_ignored unit (fun _ => None)
                  [10%N] (lit "{}") [32%N; 10%N] eq_refl eq_refl)).
Defined.

(** X17: a fence without a language tag is stripped whatever its length:
    behind three or more backquotes, and before one or more, a payload that
    neither starts nor ends with a backquote and does not start with
    "json" in any case is handed to the decoder as it stands, its own
    white space included. *)
Theorem X17_untagged_fence_of_any_length
    (opening closing : nat) (c d : char) (body : str) :
  c <> 96%N -> d <> 96%N ->
  startswith (lower (c :: body ++ [d])) (lit "json") = false ->
  ControllerModel.candidate_of
    (repeat 96%N (3 + opening) ++ (c :: body ++ [d])
     ++ repeat 96%N (1 + closing))
  = c :: body ++ [d].
Proof.
  intros Hc Hd Hj. unfold ControllerModel.candidate_of.
  apply N.eqb_neq in Hc, Hd.
  set (payload := c :: body ++ [d]) in *.
  set (text := repeat 96%N (3 + opening) ++ payload
               ++ repeat 96%N (1 + closing)).
  assert (S : strip text = text).
  { assert (E : text
                = 96%N :: (repeat 96%N (2 + opening) ++ payload
                           ++ repeat 96%N closing) ++ [96%N]).
    { unfold text.
      change (repeat 96%N (3 + opening))
        with (96%N :: repeat 96%N (2 + opening)).
      change (repeat 96%N (1 + closing)) with (96%N :: repeat 96%N closing).
      rewrite (repeat_cons closing 96%N), <- app_comm_cons, <- !app_assoc.
      reflexivity. }
    rewrite E. apply strip_by_fixed; reflexivity. }
  rewrite S.
  assert (F : startswith text (lit "```") = true) by reflexivity.
  rewrite F.
  assert (Q : forall x, (x =? 96)%N = false -> char_in x (lit "`") = false).
  { intros x Hx. unfold char_in. change (lit "`") with [96%N].
    cbn [existsb]. now rewrite Hx. }
  assert (C : strip_chars (lit "`") text = payload).
  { unfold strip_chars, strip_by, text.
    rewrite lstrip_by_drop by apply backquotes_stripped.
    unfold payload.
    change ((c :: body ++ [d]) ++ repeat 96%N (1 + closing))
      with (c :: (body ++ [d]) ++ repeat 96%N (1 + closing)).
    cbn [lstrip_by]. rewrite (Q c Hc).
    change (c :: (body ++ [d]) ++ repeat 96%N (1 + closing))
      with (((c :: body) ++ [d]) ++ repeat 96%N (1 + closing)).
    rewrite rstrip_by_drop by apply backquotes_stripped.
    apply rstrip_by_stop. exact (Q d Hd). }
  rewrite C, Hj. reflexivity.
Qed.

(** A response for X17: four backquotes before, one after. *)
Lemma X17_untagged_fence_of_any_length_witness :
  ControllerModel.candidate_of (lit "````{ }`") = lit "{ }".
Proof.
  apply (X17_untagged_fence_of_any_length 1 0 123%N 125%N [32%N]);
    [discriminate | discriminate | reflexivity].
Defined.

(** ** The filter of thinking cues *)

Section StripKeeps.
Variable p : char -> bool.

Lemma truthy_keep (s : str) :
  truthy (keep p s) = existsb (fun c => negb (p c)) s.
Proof.
  induction s as [|c t IH]; simpl; auto.
  unfold keep in *. simpl. destruct (p c); simpl; auto.
Qed.

(** Stripping leaves something exactly when some character is kept. *)
Lemma truthy_strip_by (s : str) :
  truthy (strip_by p s) = existsb (fun c => negb (p c)) s.
Proof.
  rewrite <- truthy_keep, <- (keep_lstrip_by p s). unfold strip_by.
  destruct (lstrip_by_head p s) as [E | (c & t & E & Hc)]; rewrite E.
  - reflexivity.
  - rewrite (rstrip_by_cons p c t Hc). unfold keep. simpl. now rewrite Hc.
Qed.

Lemma lstrip_by_incl (s : str) (c : char) :
  In c (lstrip_by p s) -> In c s.
Proof.
  induction s as [|d t IH]; simpl; auto.
  destruct (p d); simpl; auto.
Qed.

Lemma strip_by_incl (s : str) (c : char) : In c (strip_by p s) -> In c s.
Proof.
  unfold strip_by, rstrip_by. intros H.
  apply in_rev, lstrip_by_incl, in_rev in H. now apply lstrip_by_incl in H.
Qed.

End StripKeeps.

Lemma existsb_agree (f g : char -> bool) (s : str) :
  (forall c, In c s -> f c = g c) -> existsb f s = existsb g s.
Proof.
  induction s as [|c t IH]; simpl; intros H; auto.
  rewrite (H c) by auto. f_equal. apply IH. auto.
Qed.

(** X18: a cue passes [_is_meaningful_thinking_cue] exactly when its
    trimmed text holds a character other than the full stop, the
    exclamation mark, the question mark and the ellipsis. *)
Theorem X18_meaningful_cue_characterised (text : str) :
  _is_meaningful_thinking_cue text
  = existsb (fun c => negb (char_in c (lit ".!?" ++ [8230%N]))) (strip text).
Proof.
  unfold _is_meaningful_thinking_cue, strip_chars.
  apply truthy_strip_by.
Qed.

(** X19: the filter looks at the ends only: punctuation marks with white
    space between them pass it. *)
Theorem X19_punctuation_around_white_space_passes (a w b : str) :
  a <> [] -> w <> [] -> b <> [] ->
  forallb (fun c => char_in c (lit ".!?" ++ [8230%N])) (a ++ b) = true ->
  forallb isspace w = true ->
  _is_meaningful_thinking_cue (a ++ w ++ b) = true.
Proof.
  intros Ha Hw Hb Hp Hs.
  assert (P : forall c, char_in c (lit ".!?" ++ [8230%N]) = true ->
                        isspace c = false).
  { intros c. unfold char_in.
    change (lit ".!?" ++ [8230%N]) with [46%N; 33%N; 63%N; 8230%N].
    cbn [existsb]. rewrite !orb_true_iff, !N.eqb_eq.
    intros [-> | [-> | [-> | [-> | H]]]]; try reflexivity. discriminate H. }
  rewrite forallb_app in Hp. apply andb_true_iff in Hp. destruct Hp as [Pa Pb].
  unfold _is_meaningful_thinking_cue, strip_chars. rewrite truthy_strip_by.
  destruct a as [|x a]; [now elim Ha|].
  destruct (exists_last Hb) as (b' & y & ->).
  destruct w as [|z w]; [now elim Hw|].
  cbn [forallb] in Pa, Hs. apply andb_true_iff in Pa, Hs.
  rewrite forallb_app in Pb. cbn [forallb] in Pb.
  rewrite andb_true_r in Pb. apply andb_true_iff in Pb.
  replace ((x :: a) ++ (z :: w) ++ b' ++ [y])
    with (x :: (a ++ (z :: w) ++ b') ++ [y])
    by (rewrite <- !app_assoc; reflexivity).
  unfold strip. rewrite strip_by_fixed by (apply P; tauto).
  apply existsb_exists. exists z. split.
  - right. apply in_app_iff. left. apply in_app_iff. right. now left.
  - destruct (char_in z (lit ".!?" ++ [8230%N])) eqn:E; auto.
    apply P in E. destruct Hs. congruence.
Qed.

(** A full stop, a space, a full stop. *)
Lemma X19_punctuation_around_white_space_passes_witness :
  _is_meaningful_thinking_cue (lit ". .") = true.
Proof.
  apply (X19_punctuation_around_white_space_passes [46%N] [32%N] [46%N]);
    solve [discriminate | reflexivity].
Defined.

(** X20: main.py's [is_meaningful_cue] and the [_is_meaningful_thinking_cue]
    of plan/orchestrator.py agree on every cue that holds none of the
    characters U+00E2, U+20AC, U+00A6 and U+2026, the only ones that the
    two strip differently. *)
Theorem X20_the_two_cue_filters_agree (text : str) :
  (forall c, In c text ->
             char_in c [226%N; 8364%N; 166%N; 8230%N] = false) ->
  Main.is_meaningful_cue text = _is_meaningful_thinking_cue text.
Proof.
  intros H. unfold Main.is_meaningful_cue, _is_meaningful_thinking_cue,
    strip_chars.
  rewrite !truthy_strip_by. apply existsb_agree.
  intros c Hc. apply strip_by_incl in Hc. specialize (H c Hc).
  unfold char_in in *.
  change (lit ".!?" ++ [226%N; 8364%N; 166%N])
    with [46%N; 33%N; 63%N; 226%N; 8364%N; 166%N].
  change (lit ".!?" ++ [8230%N]) with [46%N; 33%N; 63%N; 8230%N].
  cbn [existsb] in *.
  repeat (apply orb_false_iff in H; destruct H as [? H]).
  repeat match goal with E : (_ =? _)%N = false |- _ => rewrite E; clear E end.
  reflexivity.
Qed.

(** A cue for X20. *)
Lemma X20_the_two_cue_filters_agree_witness :
  Main.is_meaningful_cue (lit "Hmm...")
  = _is_meaningful_thinking_cue (lit "Hmm...").
Proof.
  apply (X20_the_two_cue_filters_agree (lit "Hmm...")).
  intros c H. simpl in H.
  repeat (destruct H as [<- | H]; [reflexivity|]). destruct H.
Defined.

(** X21: a cue made of ellipsis characters only is printed by main.py's
    thinking relay and dropped by the one of plan/orchestrator.py: the
    literal of main.py holds the three characters of the mis-decoded
    ellipsis, not the ellipsis. *)
Theorem X21_ellipsis_cue_tells_the_filters_apart (n : nat) :
  Main.is_meaningful_cue (repeat 8230%N (S n)) = true
  /\ _is_meaningful_thinking_cue (repeat 8230%N (S n)) = false.
Proof.
  unfold Main.is_meaningful_cue, _is_meaningful_thinking_cue, strip_chars,
    strip.
  rewrite !truthy_strip_by.
  assert (S1 : forall k, strip_by isspace (repeat 8230%N (S k))
                         = repeat 8230%N (S k)).
  { intros k. destruct k as [|k]; [reflexivity|].
    change (repeat 8230%N (S (S k)))
      with (8230%N :: (8230%N :: repeat 8230%N k)).
    rewrite (repeat_cons k 8230%N). now apply strip_by_fixed. }
  rewrite S1. split.
  - reflexivity.
  - apply not_true_is_false. intros H. apply existsb_exists in H.
    destruct H as (c & Hc & E). apply repeat_spec in Hc. subst c.
    discriminate E.
Qed.

(** ** What the thinking relay says *)

Lemma printed_app (a b : list event) : printed (a ++ b) = printed a ++ printed b.
Proof. induction a as [|[] a IH]; simpl; congruence. Qed.

Lemma speak_calls_app (a b : list event) :
  speak_calls (a ++ b) = speak_calls a ++ speak_calls b.
Proof. induction a as [|[] a IH]; simpl; congruence. Qed.

Lemma behaviours_app (a b : list event) :
  behaviours (a ++ b) = behaviours a ++ behaviours b.
Proof. induction a as [|[] a IH]; simpl; congruence. Qed.

Lemma fallback_lines_meaningful (i : nat) :
  _is_meaningful_thinking_cue (fallback_line i) = true.
Proof.
  assert (F : Forall (fun text => _is_meaningful_thinking_cue text = true)
                THINKING_FALLBACK_LINES)
    by (repeat constructor; vm_compute; reflexivity).
  rewrite Forall_forall in F. apply F. unfold fallback_line.
  apply nth_In, Nat.mod_upper_bound. discriminate.
Qed.

(** The [finally] block adds nothing to what was said. *)
Lemma finally_says (client : bool) (now : Q) (o : outcome) (st : thinking)
    (evs : list event) (texts : list str) (shown : nat) :
  thought_so_far client (fallback_idx st) evs texts shown ->
  shown <= length texts <= shown + 1 ->
  said_in_thought client (fst (t_finally now o st))
    (evs ++ snd (t_finally now o st)).
Proof.
  intros (P & S & B & C) L. split; [discriminate|]. simpl.
  exists texts, shown. split; auto.
  repeat split; auto;
    rewrite ?printed_app, ?speak_calls_app, ?behaviours_app; simpl;
    now rewrite app_nil_r.
Qed.

(** [emit_line] prints the cue, and speaks it when a client is attached. *)
Lemma emit_line_says (client in_stream : bool) (text : str) (st : thinking)
    (evs : list event) (texts : list str) :
  printed evs = map cue_line texts ->
  speak_calls evs = (if client then texts else []) ->
  behaviours evs = seq 0 (emitted st) ->
  length texts = emitted st ->
  (exists cues,
     texts ++ [text] = cues ++ map fallback_line (seq 0 (fallback_idx st))
     /\ Forall (fun cue => _is_meaningful_thinking_cue cue = true) cues) ->
  (in_stream = true -> fallback_idx st = 0) ->
  said_in_thought client (fst (emit_line client in_stream text st))
    (evs ++ snd (emit_line client in_stream text st)).
Proof.
  intros P S B L C I. unfold emit_line.
  destruct client; simpl; (split; [exact I|]); exists (texts ++ [text]);
    (split; [|rewrite length_app; simpl; lia]);
    repeat split; auto;
    rewrite ?printed_app, ?speak_calls_app, ?behaviours_app; simpl;
    rewrite ?P, ?S, ?B, ?map_app, ?app_nil_r; auto.
  rewrite Nat.add_1_r, seq_S. reflexivity.
Qed.

(** The [while] loop says the next fallback line, or leaves. *)
Lemma fallback_loop_says (client : bool) (now : Q) (st : thinking)
    (evs : list event) (texts : list str) :
  thought_so_far client (fallback_idx st) evs texts (emitted st) ->
  length texts = emitted st ->
  said_in_thought client (fst (fallback_loop client now st))
    (evs ++ snd (fallback_loop client now st)).
Proof.
  intros T L. pose proof T as (P & S & B & cues & C & M).
  unfold fallback_loop.
  destruct (negb (Qle_bool (deadline st) now)
            && (emitted st <? MAX_THINKING_CUES)%nat).
  - apply (emit_line_says client false _ _ evs texts); simpl; auto;
      [|discriminate].
    exists cues. split; auto.
    rewrite Nat.add_1_r, seq_S, map_app, app_assoc, <- C. reflexivity.
  - apply (finally_says client now Completed st evs texts (emitted st)); auto.
    lia.
Qed.

(** After [emit_line] has returned the cue is counted. *)
Lemma after_emit_says (client : bool) (now : Q) (in_stream : bool)
    (st : thinking) (evs : list event) (texts : list str) :
  thought_so_far client (fallback_idx st) evs texts (emitted st + 1) ->
  length texts = emitted st + 1 ->
  (in_stream = true -> fallback_idx st = 0) ->
  said_in_thought client (fst (after_emit client now in_stream st))
    (evs ++ snd (after_emit client now in_stream st)).
Proof.
  intros T L I. unfold after_emit.
  set (st1 := {| t_pc := t_pc st; started := started st;
                 deadline := deadline st; emitted := emitted st + 1;
                 fallback_idx := fallback_idx st |}).
  destruct (window_closed now st1).
  - destruct in_stream.
    + apply (fallback_loop_says client now st1 evs texts); auto.
    + apply (finally_says client now Completed st1 evs texts (emitted st + 1));
        auto. lia.
  - simpl. rewrite app_nil_r. split; [exact I|]. exists texts. auto.
Qed.

(** One step of the thinking relay keeps what holds of its output. *)
Lemma relay_thinking_says (client : bool) (now : Q) (r : resumption)
    (st st' : thinking) (new evs : list event) :
  _relay_thinking client now r st = Some (st', new) ->
  said_in_thought client st evs -> said_in_thought client st' (evs ++ new).
Proof.
  intros H [I J]. unfold _relay_thinking in H.
  assert (F : forall texts shown o,
            thought_so_far client (fallback_idx st) evs texts shown ->
            shown <= length texts <= shown + 1 ->
            said_in_thought client (fst (t_finally now o st))
              (evs ++ snd (t_finally now o st)))
    by (intros; eapply finally_says; eauto).
  unfold in_the_stream in I.
  destruct (t_pc st) eqn:Hpc; destruct r; try discriminate H.
  - (* the first step *)
    stepped H. subst evs. simpl. split; [reflexivity|]. simpl.
    exists []. split; [|reflexivity].
    split; [reflexivity|]. split; [now destruct client|].
    split; [reflexivity|]. exists []. split; [reflexivity | constructor].
  - (* a cue arrives *)
    destruct J as (texts & T & L).
    destruct (window_closed now st).
    + stepped H. now apply (fallback_loop_says client now st evs texts).
    + destruct (_is_meaningful_thinking_cue item) eqn:M; simpl in H.
      * stepped H. pose proof T as (P & S & B & cues & C & Mc).
        apply (emit_line_says client true item st evs texts); auto.
        exists (cues ++ [item]). rewrite (I eq_refl) in *. simpl in *.
        rewrite app_nil_r in *. subst texts. split; auto.
        apply Forall_app. auto.
      * stepped H. rewrite app_nil_r. split.
        -- unfold in_the_stream. now rewrite Hpc.
        -- rewrite Hpc. exists texts. auto.
  - destruct J as (texts & T & L). stepped H.
    now apply (fallback_loop_says client now st evs texts).
  - destruct J as (texts & T & L). stepped H. apply (F texts (emitted st)); auto.
    lia.
  - destruct J as (texts & T & L). stepped H. apply (F texts (emitted st)); auto.
    lia.
  - (* request_speak_text returns *)
    destruct J as (texts & (P & S & B & C) & L). stepped H. simpl.
    split; [exact I|]. simpl. exists texts. split; auto.
    repeat split; auto;
      rewrite ?printed_app, ?speak_calls_app, ?behaviours_app; simpl;
      rewrite ?app_nil_r; auto.
    rewrite B, Nat.add_1_r, seq_S. reflexivity.
  - destruct J as (texts & T & L). stepped H. apply (F texts (emitted st)); auto.
    lia.
  - destruct J as (texts & T & L). stepped H. apply (F texts (emitted st)); auto.
    lia.
  - destruct J as (texts & T & L). stepped H.
    now apply (after_emit_says client now in_stream st evs texts).
  - destruct J as (texts & T & L). stepped H.
    apply (F texts (emitted st + 1)); auto. lia.
  - destruct J as (texts & T & L). stepped H.
    apply (F texts (emitted st + 1)); auto. lia.
  - (* the pause is over *)
    destruct J as (texts & T & L). destruct in_stream; stepped H.
    + simpl. rewrite app_nil_r. split; [exact I|]. simpl. exists texts. auto.
    + now apply (fallback_loop_says client now st evs texts).
  - destruct J as (texts & T & L). stepped H. apply (F texts (emitted st)); auto.
    lia.
Qed.

(** ** What the answer relay says *)

(** Every tier, known or not, is served with a prefix and a gesture. *)
Lemma behaviour_non_empty (level : str) :
  truthy (fst (BehaviorGenerator.get_confidence_behavior level)) = true
  /\ truthy (snd (BehaviorGenerator.get_confidence_behavior level)) = true.
Proof.
  unfold BehaviorGenerator.get_confidence_behavior.
  destruct (dict_mem BehaviorGenerator.CONFIDENCE_BEHAVIORS level) eqn:M.
  - rewrite plan_table_keys in M.
    destruct (known_tier_cases _ M) as [-> | [-> | ->]]; split; reflexivity.
  - split; reflexivity.
Qed.

(** One step of the answer relay keeps what holds of its output. *)
Lemma relay_answer_says (client : bool) (hint : option str) (flag : bool)
    (wc : nat) (r : resumption) (st st' : answering) (new evs : list event) :
  _relay_answer client hint flag wc r st = Some (st', new) ->
  said_in_answer client hint st evs ->
  said_in_answer client hint st' (evs ++ new).
Proof.
  intros H [E I]. unfold _relay_answer in H. unfold said_in_answer.
  destruct (first_clause st) eqn:Hf.
  - (* before the hand-off *)
    destruct I as (-> & Hparts & Hges & Hpc).
    destruct (a_pc st) eqn:Hpc'; destruct r; try discriminate H;
      try (now elim Hpc); try rewrite Hf in H.
    + stepped H. simpl. rewrite Hf. repeat split; auto. discriminate.
    + stepped H. simpl. rewrite Hf. repeat split; auto. discriminate.
    + stepped H. unfold send_answer, show_gesture.
      rewrite E, Hparts, Hges. simpl. rewrite Hf.
      repeat split; auto. discriminate.
    + stepped H. simpl. rewrite Hf. repeat split; auto. discriminate.
    + stepped H. simpl. rewrite Hf. repeat split; auto. discriminate.
    + (* the hand-off *)
      destruct flag; [|discriminate H]. stepped H. unfold hand_off.
      set (level := BehaviorGenerator.resolve_confidence hint (Z.of_nat wc)).
      pose proof (behaviour_non_empty level) as [T1 T2].
      destruct (BehaviorGenerator.get_confidence_behavior level)
        as [pre ges] eqn:G.
      simpl in T1, T2. simpl. rewrite T1, E, Hparts. split; [reflexivity|].
      exists wc. fold level. rewrite G. simpl.
      repeat split; auto; try discriminate.
      unfold answer_lines. rewrite G. reflexivity.
    + stepped H. simpl. rewrite Hf. repeat split; auto. discriminate.
  - (* after it *)
    destruct I as (wc0 & I). cbv zeta in I.
    set (level := BehaviorGenerator.resolve_confidence hint (Z.of_nat wc0))
      in *.
    pose proof (behaviour_non_empty level) as [T1 T2].
    destruct (BehaviorGenerator.get_confidence_behavior level)
      as [pre ges] eqn:G.
    simpl in T1, T2. destruct I as (Hpre & Hges & Hne & I).
    destruct (a_pc st) eqn:Hpc; try (now elim I);
      destruct r; try discriminate H; try rewrite Hf in H.
    + (* one more clause *)
      stepped H. unfold take_clause. rewrite Hpre, T1. simpl.
      rewrite Hf, E. split; [reflexivity|]. exists wc0. fold level.
      rewrite G. repeat split; auto.
      * intros N. now apply app_eq_nil in N.
      * rewrite I. unfold answer_lines. rewrite G, map_app. reflexivity.
    + (* the stream is exhausted *)
      stepped H. unfold send_answer, show_gesture.
      rewrite E. destruct (answer_parts st) as [|p ps] eqn:Hp; [now elim Hne|].
      rewrite Hpre, T1. fold (spoken_answer pre (p :: ps)).
      destruct client; simpl; rewrite ?Hges, ?T2, ?Hf, ?E, ?Hp;
        (split; [reflexivity|]); exists wc0; fold level; rewrite G;
        repeat split; auto; try discriminate.
      * now rewrite I.
      * rewrite I. unfold answer_end. rewrite G. reflexivity.
    + stepped H. simpl. rewrite Hf. split; [exact E|]. exists wc0. fold level.
      rewrite G. repeat split; auto. left. now rewrite app_nil_r.
    + stepped H. simpl. rewrite Hf. split; [exact E|]. exists wc0. fold level.
      rewrite G. repeat split; auto. left. now rewrite app_nil_r.
    + (* request_speak_text returns *)
      destruct I as (-> & I & C). stepped H. unfold show_gesture.
      rewrite Hges, T2. simpl. rewrite Hf. split; [exact E|]. exists wc0.
      fold level. rewrite G. repeat split; auto.
      rewrite I, <- app_assoc. unfold answer_end. rewrite G. reflexivity.
    + destruct I as (-> & I & C). stepped H. simpl. rewrite Hf.
      split; [exact E|]. exists wc0. fold level. rewrite G.
      repeat split; auto. right. now rewrite app_nil_r.
    + destruct I as (-> & I & C). stepped H. simpl. rewrite Hf.
      split; [exact E|]. exists wc0. fold level. rewrite G.
      repeat split; auto. right. now rewrite app_nil_r.
Qed.

(** ** The output of a turn, in every schedule *)

Lemma events_of_app (who : actor) (a b : list (Q * actor * event)) :
  events_of who (a ++ b) = events_of who a ++ events_of who b.
Proof. unfold events_of. now rewrite timed_events_of_app, map_app. Qed.

Lemma events_of_stamp (who by_whom : actor) (now : Q) (evs : list event) :
  events_of who (stamp now by_whom evs)
  = if is_actor who by_whom then evs else [].
Proof.
  unfold events_of. rewrite timed_events_of_stamp.
  destruct (is_actor who by_whom); [|reflexivity].
  rewrite map_map. apply map_id.
Qed.

Lemma resume_thinking_says (client : bool) (hint : option str)
    (r : resumption) (s s' : system) :
  resume_thinking r s = Some s' ->
  output_invariant client hint s -> output_invariant client hint s'.
Proof.
  unfold resume_thinking. intros H (C & Hh & T & A).
  destruct (_relay_thinking _ _ _ _) as [[st new]|] eqn:R; [|discriminate].
  injection H as <-. unfold output_invariant.
  cbn [furhat_client confidence_hint thinking_task answer_task trace].
  rewrite !events_of_app, !events_of_stamp. cbn [is_actor]. rewrite app_nil_r.
  split; [exact C|]. split; [exact Hh|]. split; [|exact A].
  rewrite C in R. eapply relay_thinking_says; eauto.
Qed.

Lemma resume_answer_says (client : bool) (hint : option str)
    (r : resumption) (s s' : system) :
  resume_answer r s = Some s' ->
  output_invariant client hint s -> output_invariant client hint s'.
Proof.
  unfold resume_answer. intros H (C & Hh & T & A).
  destruct (_relay_answer _ _ _ _ _ _) as [[st new]|] eqn:R; [|discriminate].
  injection H as <-. unfold output_invariant.
  cbn [furhat_client confidence_hint thinking_task answer_task trace].
  rewrite !events_of_app, !events_of_stamp. cbn [is_actor]. rewrite app_nil_r.
  split; [exact C|]. split; [exact Hh|]. split; [exact T|].
  rewrite C, Hh in R. eapply relay_answer_says; eauto.
Qed.

Lemma step_says (client : bool) (hint : option str) (l : label)
    (s s' : system) :
  step l s = Some s' ->
  output_invariant client hint s -> output_invariant client hint s'.
Proof.
  intros H I. destruct l as [d | who | who | who | who | who];
    try destruct who; simpl in H; try discriminate H.
  - destruct (Qle_bool 0 d); [|discriminate]. injection H as <-. exact I.
  - destruct (producer_step (thinking_model s)); [|discriminate].
    injection H as <-. exact I.
  - destruct (producer_step (reasoning_model s)); [|discriminate].
    injection H as <-. exact I.
  - destruct (t_pc (thinking_task s)); try discriminate.
    destruct (queue_get (thinking_model s)) as [[r m]|]; [|discriminate].
    eapply resume_thinking_says; eauto.
  - destruct (a_pc (answer_task s)); try discriminate.
    destruct (queue_get (reasoning_model s)) as [[r m]|]; [|discriminate].
    eapply resume_answer_says; eauto.
  - destruct (t_pc (thinking_task s)); try discriminate;
      try (eapply resume_thinking_says; now eauto).
    destruct (Qle_bool wake (clock s)); [|discriminate].
    eapply resume_thinking_says; eauto.
  - destruct (a_pc (answer_task s)); try discriminate;
      eapply resume_answer_says; eauto.
  - destruct (t_pc (thinking_task s)); try discriminate;
      eapply resume_thinking_says; eauto.
  - destruct (a_pc (answer_task s)); try discriminate;
      eapply resume_answer_says; eauto.
  - eapply resume_thinking_says; eauto.
  - eapply resume_answer_says; eauto.
Qed.

Lemma exec_says (client : bool) (hint : option str) (schedule : list label) :
  forall s s', exec schedule s = Some s' ->
               output_invariant client hint s -> output_invariant client hint s'.
Proof.
  induction schedule as [|l schedule IH]; simpl; intros s s' H I.
  - now injection H as <-.
  - destruct (step l s) as [s1|] eqn:E; [|discriminate].
    eapply IH; eauto. eapply step_says; eauto.
Qed.

Lemma run_says (client : bool) (question : str) (d : decision)
    (llm : completions) (now : Q) (s0 : system) (schedule : list label)
    (s : system) :
  run client question d llm now = ThinkingAndAnswering s0 ->
  exec schedule s0 = Some s -> output_invariant client (confidence d) s.
Proof.
  unfold run. destruct (need_thinking d); simpl.
  - intros H E. injection H as <-. eapply exec_says; eauto.
    repeat split; auto. discriminate.
  - destruct (_respond_directly client d (confidence d)). discriminate.
Qed.

(** X22: in every state that a schedule of the turn leads to, the thinking
    relay has printed cues of the stream that pass the filter, then
    fallback lines in the order of the list, from its first line and
    cyclically; it has handed to [request_speak_text] exactly the texts it
    printed when a client is attached, and nothing otherwise; and it has
    called [perform_thinking_behavior] with the indices 0, 1, 2, ... in
    order, once per cue, the last cue apart when it is still in flight or
    its speak call failed. *)
Theorem X22_thinking_relay_speaks_what_it_prints
    (client : bool) (question : str) (d : decision) (llm : completions)
    (now : Q) (s0 : system) (schedule : list label) (s : system) :
  run client question d llm now = ThinkingAndAnswering s0 ->
  exec schedule s0 = Some s ->
  exists cues fallbacks shown,
    printed (events_of ThinkingRelay (trace s))
    = map cue_line (cues ++ map fallback_line (seq 0 fallbacks))
    /\ Forall (fun cue => _is_meaningful_thinking_cue cue = true) cues
    /\ speak_calls (events_of ThinkingRelay (trace s))
       = (if client then cues ++ map fallback_line (seq 0 fallbacks) else [])
    /\ behaviours (events_of ThinkingRelay (trace s)) = seq 0 shown
    /\ shown <= length (cues ++ map fallback_line (seq 0 fallbacks))
       <= shown + 1.
Proof.
  intros R E. destruct (run_says _ _ _ _ _ _ _ _ R E) as (_ & _ & [_ T] & _).
  assert (G : forall texts shown,
            thought_so_far client (fallback_idx (thinking_task s))
              (events_of ThinkingRelay (trace s)) texts shown ->
            shown <= length texts <= shown + 1 ->
            exists cues fallbacks shown,
              printed (events_of ThinkingRelay (trace s))
              = map cue_line (cues ++ map fallback_line (seq 0 fallbacks))
              /\ Forall (fun cue => _is_meaningful_thinking_cue cue = true) cues
              /\ speak_calls (events_of ThinkingRelay (trace s))
                 = (if client
                    then cues ++ map fallback_line (seq 0 fallbacks) else [])
              /\ behaviours (events_of ThinkingRelay (trace s)) = seq 0 shown
              /\ shown <= length (cues ++ map fallback_line (seq 0 fallbacks))
                 <= shown + 1).
  { intros texts shown (P & S & B & cues & C & M) L. subst texts.
    exists cues, (fallback_idx (thinking_task s)), shown. auto. }
  destruct (t_pc (thinking_task s)).
  - rewrite T. exists [], 0, 0. simpl. repeat split; auto.
    now destruct client.
  - destruct T as (texts & T & L). apply (G texts _ T). lia.
  - destruct T as (texts & T & L). apply (G texts _ T). lia.
  - destruct T as (texts & T & L). apply (G texts _ T). lia.
  - destruct T as (texts & T & L). apply (G texts _ T). lia.
  - destruct T as (texts & shown & T & L). apply (G texts _ T). lia.
Qed.

(** A turn for X22: one cue of the stream is printed and spoken, then the
    window closes. *)
Lemma X22_thinking_relay_speaks_what_it_prints_witness :
  exists final,
    exec (answer_fetched_first ++ thinking_then_answer) (start true two_streams)
    = Some final
    /\ speak_calls (events_of ThinkingRelay (trace final)) = [lit "Hmm."]
    /\ exists cues fallbacks shown,
         printed (events_of ThinkingRelay (trace final))
         = map cue_line (cues ++ map fallback_line (seq 0 fallbacks))
         /\ Forall (fun cue => _is_meaningful_thinking_cue cue = true) cues
         /\ speak_calls (events_of ThinkingRelay (trace final))
            = (if true then cues ++ map fallback_line (seq 0 fallbacks)
               else [])
         /\ behaviours (events_of ThinkingRelay (trace final)) = seq 0 shown
         /\ shown <= length (cues ++ map fallback_line (seq 0 fallbacks))
            <= shown + 1.
Proof.
  eexists. split; [vm_compute; reflexivity|]. split; [reflexivity|].
  apply (X22_thinking_relay_speaks_what_it_prints true (lit "Why?") thoughtful
           two_streams 0%Q (start true two_streams)
           (answer_fetched_first ++ thinking_then_answer)).
  - reflexivity.
  - vm_compute. reflexivity.
Defined.

(** X23: when the answer relay has returned, in whatever schedule, it has
    either received no clause and done nothing at all, or it has printed
    its hand-off line for the tier resolved at some word count, one line
    per clause with the prefix of that tier before each, has then handed
    the prefix and the clauses joined by spaces to [request_speak_text]
    once if a client is attached, and has printed the gesture line last;
    [current_answer_text] is that spoken text. *)
Theorem X23_what_the_answer_relay_says
    (client : bool) (question : str) (d : decision) (llm : completions)
    (now : Q) (s0 : system) (schedule : list label) (s : system) :
  run client question d llm now = ThinkingAndAnswering s0 ->
  exec schedule s0 = Some s ->
  a_pc (answer_task s) = ADone Completed ->
  match answer_parts (answer_task s) with
  | [] => events_of AnswerRelay (trace s) = []
  | parts =>
      exists wc,
        let level :=
          BehaviorGenerator.resolve_confidence (confidence d) (Z.of_nat wc) in
        events_of AnswerRelay (trace s)
        = answer_lines level parts ++ answer_end client level parts
        /\ current_answer_text (answer_task s)
           = spoken_answer
               (fst (BehaviorGenerator.get_confidence_behavior level)) parts
  end.
Proof.
  intros R E D. destruct (run_says _ _ _ _ _ _ _ _ R E) as (_ & _ & _ & [F A]).
  destruct (first_clause (answer_task s)).
  - destruct A as (-> & -> & _). reflexivity.
  - destruct A as (wc & A). cbv zeta in A.
    destruct (BehaviorGenerator.get_confidence_behavior _) as [pre ges] eqn:G.
    destruct A as (_ & _ & N & A). rewrite D in A. destruct A as [A1 A2].
    destruct (answer_parts (answer_task s)) as [|p ps]; [now elim N|].
    exists wc. cbv zeta. rewrite G. auto.
Qed.

(** A turn for X23: two clauses, announced at low confidence. *)
Lemma X23_what_the_answer_relay_says_witness :
  exists final,
    exec (answer_fetched_first ++ thinking_then_answer) (start true two_streams)
    = Some final
    /\ speak_calls (events_of AnswerRelay (trace final))
       = [lit "I'm not entirely sure, but Yes. It is"]
    /\ match answer_parts (answer_task final) with
       | [] => events_of AnswerRelay (trace final) = []
       | parts =>
           exists wc,
             let level :=
               BehaviorGenerator.resolve_confidence (confidence thoughtful)
                 (Z.of_nat wc) in
             events_of AnswerRelay (trace final)
             = answer_lines level parts ++ answer_end true level parts
             /\ current_answer_text (answer_task final)
                = spoken_answer
                    (fst (BehaviorGenerator.get_confidence_behavior level))
                    parts
       end.
Proof.
  eexists. split; [vm_compute; reflexivity|]. split; [reflexivity|].
  apply (X23_what_the_answer_relay_says true (lit "Why?") thoughtful
           two_streams 0%Q (start true two_streams)
           (answer_fetched_first ++ thinking_then_answer)).
  - reflexivity.
  - vm_compute. reflexivity.
  - reflexivity.
Defined.

(** ** The thinking mode *)

Lemma thinking_mode_after_app (mode : bool) (a b : list event) :
  thinking_mode_after mode (a ++ b)
  = thinking_mode_after (thinking_mode_after mode a) b.
Proof. apply fold_left_app. Qed.

Lemma barrier_after_app (flag : bool) (a b : list event) :
  barrier_after flag (a ++ b) = barrier_after (barrier_after flag a) b.
Proof. apply fold_left_app. Qed.

(** What a relay does in one step either leaves the thinking mode and the
    barrier alone, or switches the mode off and sets the barrier. *)
Lemma relay_thinking_mode (client : bool) (now : Q) (r : resumption)
    (st st' : thinking) (new : list event) (mode : bool) :
  _relay_thinking client now r st = Some (st', new) ->
  thinking_mode_after mode new = negb (barrier_after (negb mode) new).
Proof.
  intros H.
  assert (F : forall st0,
            thinking_mode_after mode (snd (fallback_loop client now st0))
            = negb (barrier_after (negb mode)
                      (snd (fallback_loop client now st0)))).
  { intros st0. unfold fallback_loop, emit_line.
    destruct (_ && _); [destruct client|]; simpl;
      now rewrite ?negb_involutive. }
  assert (A : forall b st0,
            thinking_mode_after mode (snd (after_emit client now b st0))
            = negb (barrier_after (negb mode)
                      (snd (after_emit client now b st0)))).
  { intros b st0. unfold after_emit. cbv zeta.
    destruct (window_closed _ _); [destruct b|]; try apply F; simpl;
      now rewrite ?negb_involutive. }
  unfold _relay_thinking in H.
  destruct (t_pc st); destruct r; try discriminate H;
    try (stepped H; first [apply F | apply A
                          | simpl; now rewrite ?negb_involutive]).
  - destruct (window_closed now st); [stepped H; apply F|].
    destruct (negb (_is_meaningful_thinking_cue item)); stepped H;
      unfold emit_line; try destruct client; simpl;
      now rewrite ?negb_involutive.
  - destruct in_stream; stepped H; [|apply F].
    simpl. now rewrite negb_involutive.
Qed.

Lemma relay_answer_mode (client : bool) (hint : option str) (flag : bool)
    (wc : nat) (r : resumption) (st st' : answering) (new : list event)
    (mode : bool) :
  _relay_answer client hint flag wc r st = Some (st', new) ->
  thinking_mode_after mode new = negb (barrier_after (negb mode) new).
Proof.
  intros H.
  assert (G : forall st0,
            thinking_mode_after mode (snd (show_gesture st0))
            = negb (barrier_after (negb mode) (snd (show_gesture st0)))).
  { intros st0. unfold show_gesture.
    destruct (truthy _); simpl; now rewrite negb_involutive. }
  unfold _relay_answer in H.
  destruct (a_pc st); destruct r; try discriminate H;
    try (stepped H; first [apply G | simpl; now rewrite ?negb_involutive]).
  - destruct (first_clause st); stepped H; simpl;
      now rewrite negb_involutive.
  - stepped H. unfold send_answer.
    destruct (full_answer_parts st); [apply G|].
    destruct client; [|apply G]. simpl. now rewrite negb_involutive.
  - destruct flag; [|discriminate H]. stepped H. unfold hand_off.
    destruct (BehaviorGenerator.get_confidence_behavior _). simpl.
    now rewrite negb_involutive.
Qed.

Lemma map_snd_stamp (now : Q) (who : actor) (evs : list event) :
  map snd (stamp now who evs) = evs.
Proof. unfold stamp. rewrite map_map. apply map_id. Qed.

Lemma step_mode (l : label) (s s' : system) :
  step l s = Some s' ->
  thinking_mode_after false (map snd (trace s))
  = negb (thinking_window_done s) ->
  thinking_mode_after false (map snd (trace s'))
  = negb (thinking_window_done s').
Proof.
  assert (T : forall r s s',
            resume_thinking r s = Some s' ->
            thinking_mode_after false (map snd (trace s))
            = negb (thinking_window_done s) ->
            thinking_mode_after false (map snd (trace s'))
            = negb (thinking_window_done s')).
  { clear. intros r s s' H I. unfold resume_thinking in H.
    destruct (_relay_thinking _ _ _ _) as [[st new]|] eqn:R; [|discriminate].
    injection H as <-. cbn [trace thinking_window_done].
    rewrite map_app, map_snd_stamp, thinking_mode_after_app, I.
    rewrite (relay_thinking_mode _ _ _ _ _ _ _ R). now rewrite negb_involutive. }
  assert (A : forall r s s',
            resume_answer r s = Some s' ->
            thinking_mode_after false (map snd (trace s))
            = negb (thinking_window_done s) ->
            thinking_mode_after false (map snd (trace s'))
            = negb (thinking_window_done s')).
  { clear. intros r s s' H I. unfold resume_answer in H.
    destruct (_relay_answer _ _ _ _ _ _) as [[st new]|] eqn:R; [|discriminate].
    injection H as <-. cbn [trace thinking_window_done].
    rewrite map_app, map_snd_stamp, thinking_mode_after_app, I.
    rewrite (relay_answer_mode _ _ _ _ _ _ _ _ _ R). now rewrite negb_involutive. }
  intros H I. destruct l as [d | who | who | who | who | who];
    try destruct who; simpl in H; try discriminate H.
  - destruct (Qle_bool 0 d); [|discriminate]. injection H as <-. exact I.
  - destruct (producer_step (thinking_model s)); [|discriminate].
    injection H as <-. exact I.
  - destruct (producer_step (reasoning_model s)); [|discriminate].
    injection H as <-. exact I.
  - destruct (t_pc (thinking_task s)); try discriminate.
    destruct (queue_get (thinking_model s)) as [[r m]|]; [|discriminate].
    eapply T; eauto.
  - destruct (a_pc (answer_task s)); try discriminate.
    destruct (queue_get (reasoning_model s)) as [[r m]|]; [|discriminate].
    eapply A; eauto.
  - destruct (t_pc (thinking_task s)); try discriminate;
      try (eapply T; now eauto).
    destruct (Qle_bool wake (clock s)); [|discriminate]. eapply T; eauto.
  - destruct (a_pc (answer_task s)); try discriminate; eapply A; eauto.
  - destruct (t_pc (thinking_task s)); try discriminate; eapply T; eauto.
  - destruct (a_pc (answer_task s)); try discriminate; eapply A; eauto.
  - eapply T; eauto.
  - eapply A; eauto.
Qed.

Lemma exec_mode (schedule : list label) :
  forall s s', exec schedule s = Some s' ->
    thinking_mode_after false (map snd (trace s))
    = negb (thinking_window_done s) ->
    thinking_mode_after false (map snd (trace s'))
    = negb (thinking_window_done s').
Proof.
  induction schedule as [|l schedule IH]; simpl; intros s s' H I.
  - now injection H as <-.
  - destruct (step l s) as [s1|] eqn:E; [|discriminate].
    eapply IH; eauto. eapply step_mode; eauto.
Qed.

(** X24: on the ThinkingAndAnswering path the flag of [set_thinking_mode]
    is the negation of the barrier in every state of every schedule:
    [is_in_thinking_mode()] holds from the start of the relays until the
    thinking relay exits, however it exits, and never again. *)
Theorem X24_thinking_mode_until_the_barrier
    (client : bool) (question : str) (d : decision) (llm : completions)
    (now : Q) (s0 : system) (schedule : list label) (s : system) :
  run client question d llm now = ThinkingAndAnswering s0 ->
  exec schedule s0 = Some s ->
  thinking_mode_after false (map snd (trace s))
  = negb (thinking_window_done s)
  /\ (thinking_mode_after false (map snd (trace s)) = false
      <-> thinking_exited s).
Proof.
  intros R E.
  assert (M : thinking_mode_after false (map snd (trace s))
              = negb (thinking_window_done s)).
  { revert R. unfold run. destruct (need_thinking d); simpl.
    - intros R. injection R as <-. eapply exec_mode; eauto.
    - destruct (_respond_directly client d (confidence d)). discriminate. }
  split; [exact M|]. rewrite M.
  destruct (run_invariant _ _ _ _ _ _ _ _ R E) as [[_ I2 _ _ _ _] _ _ _].
  unfold thinking_exited.
  destruct (t_pc (thinking_task s)) eqn:P; destruct I2 as [-> I2]; simpl;
    split; try discriminate; eauto;
    intros (o' & t' & N); discriminate N.
Qed.

(** A turn for X24: the relay has exited, and the mode is off. *)
Lemma X24_thinking_mode_until_the_barrier_witness :
  exists final,
    exec stream_failure (start true broken_thinking_stream) = Some final
    /\ thinking_mode_after false (map snd (trace final)) = false
    /\ thinking_mode_after false (map snd (trace final))
       = negb (thinking_window_done final)
    /\ (thinking_mode_after false (map snd (trace final)) = false
        <-> thinking_exited final).
Proof.
  eexists. split; [vm_compute; reflexivity|]. split; [reflexivity|].
  apply (X24_thinking_mode_until_the_barrier true (lit "Why?") thoughtful
           broken_thinking_stream 0%Q (start true broken_thinking_stream)
           stream_failure).
  - reflexivity.
  - vm_compute. reflexivity.
Defined.

(** ** The Orchestrator of main.py *)

Section MainTurn.
Import MainOrchestrator.

Lemma main_events_of_app (who : actor) (a b : list (actor * event)) :
  events_of who (a ++ b) = events_of who a ++ events_of who b.
Proof. unfold events_of. now rewrite filter_app, map_app. Qed.

Lemma main_events_of_stamp (who by_whom : actor) (evs : list event) :
  events_of who (stamp by_whom evs) = if is_actor who by_whom then evs else [].
Proof.
  unfold events_of, stamp.
  induction evs as [|e evs IH]; simpl.
  - now destruct (is_actor who by_whom).
  - destruct (is_actor who by_whom); simpl; [now rewrite IH | exact IH].
Qed.

Lemma main_printed_app (a b : list event) :
  printed (a ++ b) = printed a ++ printed b.
Proof. induction a as [|[] a IH]; simpl; congruence. Qed.

Lemma main_in_stamp (who by_whom : actor) (e : event) (evs : list event) :
  In (who, e) (stamp by_whom evs) -> who = by_whom /\ In e evs.
Proof.
  unfold stamp. rewrite in_map_iff. intros (e' & H & Hin).
  injection H as <- <-. auto.
Qed.

(** Appending what was done keeps the silence after the flag, when the
    thinking relay prints nothing in it, or when the flag was never set. *)
Lemma silenced_by_stop_app (tr more : list (actor * event)) :
  silenced_by_stop tr ->
  (forall line, ~ In (ThinkingRelay, Print line) more)
  \/ (forall who, ~ In (who, StopThinking) (tr ++ more)) ->
  silenced_by_stop (tr ++ more).
Proof.
  intros S [H | H] pre who post line E Hin.
  - apply app_eq_app in E. destruct E as [l [[E1 E2] | [E1 E2]]].
    + destruct l as [|x l].
      * simpl in E2. subst more. apply (H line). now right.
      * injection E2 as <- ->. apply in_app_iff in Hin.
        destruct Hin as [Hin | Hin]; [|now apply (H line)].
        apply (S pre who l line); auto.
    + subst more. apply (H line). apply in_app_iff. right. now right.
  - apply (H who). rewrite E. apply in_app_iff. right. now left.
Qed.

(** A step of the thinking relay in which it prints nothing. *)
Lemma main_quiet_thinking (s : system) (st : thinking) :
  invariant s ->
  emitted st = emitted (thinking_task s) ->
  (t_pc st = Next -> emitted st < MAX_THINKING_CUES) ->
  (t_pc st = Created -> emitted st = 0) ->
  invariant
    {| confidence_hint := confidence_hint s;
       stop_thinking := stop_after (stop_thinking s) [];
       thinking_task := st; thinking_model := thinking_model s;
       answer_task := answer_task s; reasoning_model := reasoning_model s;
       finally_reached := finally_reached s;
       trace := trace s ++ stamp ThinkingRelay [] |}.
Proof.
  intros [I1 I2 I3 I4 I5 I6 I7 I8] E N C.
  constructor; cbn [stop_thinking thinking_task answer_task trace
                    confidence_hint stop_after fold_left stamp map];
    rewrite ?app_nil_r; auto; rewrite ?E; auto.
Qed.

Lemma main_resume_thinking_keeps (r : resumption) (s s' : system) :
  resume_thinking r s = Some s' -> invariant s -> invariant s'.
Proof.
  unfold resume_thinking. intros H I.
  destruct (_relay_thinking _ _ _) as [[st new]|] eqn:R; [|discriminate].
  injection H as <-. unfold _relay_thinking in R.
  destruct (t_pc (thinking_task s)) eqn:P; destruct r; try discriminate R.
  - (* the first step *)
    stepped R. apply main_quiet_thinking; simpl; auto; try discriminate.
    + symmetry. now apply (cues_none s I).
    + intros _. unfold MAX_THINKING_CUES. lia.
  - (* a cue arrives *)
    destruct (stop_thinking s) eqn:Stop.
    + stepped R. rewrite <- Stop.
      apply main_quiet_thinking; simpl; auto; discriminate.
    + destruct (Main.is_meaningful_cue item) eqn:M; cbn [negb] in R.
      * stepped R. destruct I as [I1 I2 I3 I4 I5 I6 I7 I8].
        specialize (I6 P). destruct I4 as (cues & C1 & C2 & C3).
        constructor;
          cbn [stop_thinking thinking_task answer_task trace confidence_hint
               t_pc emitted];
          rewrite ?main_events_of_app, ?main_events_of_stamp;
          cbn [is_actor]; rewrite ?app_nil_r; auto.
        -- intros _ who Hin. apply in_app_iff in Hin.
           destruct Hin as [Hin | Hin]; [now apply (I1 Stop who)|].
           apply main_in_stamp in Hin. destruct Hin as [_ [Hin | []]].
           discriminate Hin.
        -- apply silenced_by_stop_app; auto. right. intros who Hin.
           apply in_app_iff in Hin.
           destruct Hin as [Hin | Hin]; [now apply (I1 Stop who)|].
           apply main_in_stamp in Hin. destruct Hin as [_ [Hin | []]].
           discriminate Hin.
        -- destruct (MAX_THINKING_CUES <=? emitted (thinking_task s) + 1)%nat;
             discriminate.
        -- exists (cues ++ [item]). rewrite main_printed_app, C1, map_app.
           split; [reflexivity|]. split.
           ++ rewrite length_app. simpl. lia.
           ++ apply Forall_app. auto.
        -- lia.
        -- destruct (MAX_THINKING_CUES <=? emitted (thinking_task s) + 1)%nat
             eqn:L; [discriminate|]. intros _. now apply Nat.leb_gt in L.
      * stepped R. rewrite <- Stop.
        apply main_quiet_thinking; auto.
        -- intros _. now apply (cues_left s I).
        -- congruence.
  - stepped R. apply main_quiet_thinking; simpl; auto; discriminate.
  - stepped R. apply main_quiet_thinking; simpl; auto; discriminate.
  - stepped R. apply main_quiet_thinking; simpl; auto; discriminate.
Qed.

(** The gesture of the resolved tier is there, and is not empty. *)
Lemma main_gesture (hint : option str) (word_count : Z) :
  exists pre g,
    dict_get Main.CONFIDENCE_BEHAVIORS
      (Main.resolve_confidence hint word_count) = Some (pre, g)
    /\ truthy g = true.
Proof.
  rewrite main_resolve_same.
  destruct (known_tier_cases _ (resolve_known hint word_count))
    as [-> | [-> | ->]]; do 2 eexists; split; reflexivity.
Qed.

(** What the answer relay does leaves the thinking relay as it is. *)
Lemma main_answer_step (s : system) (st : answering) (new : list event) :
  invariant s ->
  (forall who, In (who, StopThinking) (stamp AnswerRelay new) ->
               stop_after (stop_thinking s) new = true) ->
  (stop_after (stop_thinking s) new = false -> stop_thinking s = false) ->
  (a_pc st = Created -> first_clause st = true) ->
  (if first_clause st
   then gesture st = []
        /\ events_of AnswerRelay (trace s) ++ new = []
   else exists wc pre g clauses,
     let level :=
       Main.resolve_confidence (confidence_hint s) (Z.of_nat wc) in
     dict_get Main.CONFIDENCE_BEHAVIORS level = Some (pre, g)
     /\ gesture st = g /\ g <> [] /\ clauses <> []
     /\ events_of AnswerRelay (trace s) ++ new
        = answer_lines level g clauses
          ++ (match a_pc st with
              | Done Completed => [Print (lit "Robot (nonverbal): " ++ g)]
              | _ => []
              end)) ->
  invariant
    {| confidence_hint := confidence_hint s;
       stop_thinking := stop_after (stop_thinking s) new;
       thinking_task := thinking_task s; thinking_model := thinking_model s;
       answer_task := st; reasoning_model := reasoning_model s;
       finally_reached := finally_reached s;
       trace := trace s ++ stamp AnswerRelay new |}.
Proof.
  intros [I1 I2 I3 I4 I5 I6 I7 I8] S1 S2 C A.
  constructor;
    cbn [stop_thinking thinking_task answer_task trace confidence_hint];
    rewrite ?main_events_of_app, ?main_events_of_stamp;
    cbn [is_actor]; rewrite ?app_nil_r; auto.
  - intros F who Hin. apply in_app_iff in Hin. destruct Hin as [Hin | Hin].
    + now apply (I1 (S2 F) who).
    + rewrite (S1 who Hin) in F. discriminate.
  - apply silenced_by_stop_app; auto. left. intros line Hin.
    apply main_in_stamp in Hin. destruct Hin. discriminate.
Qed.

Ltac tidy :=
  cbn [MainOrchestrator.a_pc MainOrchestrator.gesture
       MainOrchestrator.first_clause MainOrchestrator.stamp map
       MainOrchestrator.stop_after fold_left In].

Lemma main_resume_answer_keeps (r : resumption) (s s' : system) :
  resume_answer r s = Some s' -> invariant s -> invariant s'.
Proof.
  unfold resume_answer. intros H I.
  destruct (_relay_answer _ _ _ _) as [[st new]|] eqn:R; [|discriminate].
  injection H as <-. unfold _relay_answer in R.
  pose proof (answer_none s I) as I7. pose proof (answer_said s I) as I8.
  destruct (a_pc (answer_task s)) eqn:P; destruct r; try discriminate R.
  - (* the first step *)
    stepped R. rewrite (I7 eq_refl) in I8. destruct I8 as [_ E].
    apply main_answer_step; tidy; auto; try (intros who []).
    rewrite E. auto.
  - (* a clause arrives *)
    destruct (first_clause (answer_task s)) eqn:F.
    + destruct I8 as [G E].
      destruct (main_gesture (confidence_hint s)
                  (Z.of_nat (Orchestrator.word_count (reasoning_model s))))
        as (pre & g & D & T).
      rewrite D in R. stepped R.
      apply main_answer_step; tidy; auto; try discriminate.
      exists (Orchestrator.word_count (reasoning_model s)), pre, g, [item].
      cbv zeta. rewrite E. repeat split; auto; try discriminate.
      intros ->. discriminate T.
    + stepped R. destruct I8 as (wc & pre & g & clauses & D & G & N1 & N2 & E).
      apply main_answer_step; tidy; auto.
      * intros who [Hin | []]. discriminate Hin.
      * rewrite ?F. congruence.
      * rewrite ?F. exists wc, pre, g, (clauses ++ [item]). cbv zeta.
        repeat split; auto.
        -- intros N. now apply app_eq_nil in N.
        -- rewrite P, E, !app_nil_r. unfold answer_lines.
           now rewrite map_app, <- !app_assoc.
  - (* the stream is exhausted *)
    stepped R. destruct (first_clause (answer_task s)) eqn:F.
    + destruct I8 as [G E]. rewrite G.
      apply (main_answer_step s _ []); tidy; auto; try discriminate;
        try (intros who []).
      rewrite E. auto.
    + destruct I8 as (wc & pre & g & clauses & D & G & N1 & N2 & E).
      assert (T : truthy (gesture (answer_task s)) = true).
      { rewrite G. destruct g; [now elim N1 | reflexivity]. }
      rewrite T. apply main_answer_step; tidy; auto; try discriminate.
      * intros who [Hin | []]. discriminate Hin.
      * exists wc, pre, g, clauses. cbv zeta.
        repeat split; auto. rewrite E, app_nil_r, G.
        reflexivity.
  - stepped R. apply main_answer_step; tidy; auto; try discriminate;
      try (intros who []).
    destruct (first_clause (answer_task s)).
    + now rewrite app_nil_r.
    + destruct I8 as (wc & pre & g & clauses & D & G & N1 & N2 & E).
      exists wc, pre, g, clauses. cbv zeta.
      now rewrite app_nil_r.
  - stepped R. apply main_answer_step; tidy; auto; try discriminate;
      try (intros who []).
    destruct (first_clause (answer_task s)).
    + now rewrite app_nil_r.
    + destruct I8 as (wc & pre & g & clauses & D & G & N1 & N2 & E).
      exists wc, pre, g, clauses. cbv zeta.
      now rewrite app_nil_r.
Qed.

Lemma main_run_finally_keeps (s s' : system) :
  run_finally s = Some s' -> invariant s -> invariant s'.
Proof.
  unfold run_finally. intros H [I1 I2 I3 I4 I5 I6 I7 I8].
  destruct (a_pc (answer_task s)) eqn:P; try discriminate.
  destruct (finally_reached s); [discriminate|]. injection H as <-.
  constructor;
    cbn [stop_thinking thinking_task answer_task trace confidence_hint];
    rewrite ?main_events_of_app, ?main_events_of_stamp;
    cbn [is_actor]; rewrite ?app_nil_r, ?P; auto; try discriminate.
  apply silenced_by_stop_app; auto. left. intros line [Hin | []].
  discriminate Hin.
Qed.

Lemma main_step_keeps (l : label) (s s' : system) :
  step l s = Some s' -> invariant s -> invariant s'.
Proof.
  assert (M : forall s m,
            invariant s ->
            invariant (set_thinking_model m s)
            /\ invariant (set_reasoning_model m s)).
  { clear. intros s m [I1 I2 I3 I4 I5 I6 I7 I8].
    split; constructor; assumption. }
  intros H I. destruct l as [d | who | who | who | who | who];
    try destruct who; simpl in H; try discriminate H.
  - now injection H as <-.
  - destruct (producer_step (thinking_model s)); [|discriminate].
    injection H as <-. now apply M.
  - destruct (producer_step (reasoning_model s)); [|discriminate].
    injection H as <-. now apply M.
  - destruct (t_pc (thinking_task s)); try discriminate.
    destruct (queue_get (thinking_model s)) as [[r m]|]; [|discriminate].
    eapply main_resume_thinking_keeps; eauto. now apply M.
  - destruct (a_pc (answer_task s)); try discriminate.
    destruct (queue_get (reasoning_model s)) as [[r m]|]; [|discriminate].
    eapply main_resume_answer_keeps; eauto. now apply M.
  - eapply main_run_finally_keeps; eauto.
  - destruct (t_pc (thinking_task s)); try discriminate.
    eapply main_resume_thinking_keeps; eauto. now apply M.
  - destruct (a_pc (answer_task s)); try discriminate.
    eapply main_resume_answer_keeps; eauto. now apply M.
  - eapply main_resume_thinking_keeps; eauto.
  - eapply main_resume_answer_keeps; eauto.
Qed.

Lemma main_run_invariant (question : str) (d : decision) (llm : completions)
    (s0 : system) (schedule : list label) (s : system) :
  run question d llm = ThinkingAndAnswering s0 ->
  exec schedule s0 = Some s -> invariant s.
Proof.
  unfold run. destruct (need_thinking d); simpl; [|discriminate].
  intros H. injection H as <-.
  assert (I0 : invariant (spawn question (confidence d) llm)).
  { constructor; simpl; auto.
    - intros _ who [H | []]. discriminate H.
    - intros pre who post line E.
      destruct pre as [|x [|y pre]]; discriminate E.
    - exists []. repeat split; auto.
    - unfold MAX_THINKING_CUES. lia.
    - discriminate. }
  revert I0. generalize (spawn question (confidence d) llm).
  induction schedule as [|l schedule IH]; simpl; intros s1 I1 E.
  - now injection E as <-.
  - destruct (step l s1) as [s2|] eqn:E2; [|discriminate].
    apply (IH s2); auto. eapply main_step_keeps; eauto.
Qed.

(** X25: in main.py's orchestrator, in every state of every schedule of a
    ThinkingAndAnswering turn, the thinking relay has printed at most four
    cues, each one passing [is_meaningful_cue], and nothing but cues; and
    once [stop_thinking] is set, by the answer relay at its first clause or
    by the [finally] block of [run], it prints nothing more: no thinking
    cue comes after the hand-off to the answer. *)
Theorem X25_main_thinking_stops_at_the_hand_off
    (question : str) (d : decision) (llm : completions)
    (s0 : system) (schedule : list label) (s : system) :
  run question d llm = ThinkingAndAnswering s0 ->
  exec schedule s0 = Some s ->
  silenced_by_stop (trace s)
  /\ exists cues,
       printed (events_of ThinkingRelay (trace s))
       = map (app (lit "Robot (thinking): ")) cues
       /\ length cues <= MAX_THINKING_CUES
       /\ Forall (fun cue => Main.is_meaningful_cue cue = true) cues.
Proof.
  intros R E.
  destruct (main_run_invariant _ _ _ _ _ _ R E) as [_ I2 _ I4 I5 _ _ _].
  split; [exact I2|]. destruct I4 as (cues & C1 & C2 & C3).
  exists cues. rewrite C2. auto.
Qed.


(** A turn for X25: one cue, the hand-off, and the relay leaves at the
    next cue of its stream without printing it. *)
Lemma X25_main_thinking_stops_at_the_hand_off_witness :
  exists final,
    exec main_hand_off (main_start two_streams) = Some final
    /\ printed (events_of ThinkingRelay (trace final))
       = [lit "Robot (thinking): Hmm."]
    /\ silenced_by_stop (trace final)
    /\ exists cues,
         printed (events_of ThinkingRelay (trace final))
         = map (app (lit "Robot (thinking): ")) cues
         /\ length cues <= MAX_THINKING_CUES
         /\ Forall (fun cue => Main.is_meaningful_cue cue = true) cues.
Proof.
  eexists. split; [vm_compute; reflexivity|]. split; [reflexivity|].
  apply (X25_main_thinking_stops_at_the_hand_off (lit "Why?") thoughtful
           two_streams (main_start two_streams) main_hand_off).
  - reflexivity.
  - vm_compute. reflexivity.
Defined.



End MainTurn.

(** ** The thinking notes and the thinking prompt *)

Lemma filter_truthy_all (notes : list str) :
  Forall (fun note => note <> []) notes -> filter truthy notes = notes.
Proof.
  induction 1 as [|note notes H _ IH]; simpl; auto.
  destruct note; [now elim H|]. simpl. now rewrite IH.
Qed.

Lemma bullets_truthy (sep : str) (notes : list str) :
  notes <> [] ->
  truthy (join sep (map (fun note => lit "- " ++ note) notes)) = true.
Proof.
  destruct notes as [|note [|next notes]]; [intros N; now elim N | |];
    reflexivity.
Qed.

Lemma normalized_again (notes : list str) :
  Forall (fun note => note <> []) notes ->
  map str_of (filter bool_of (map Str notes)) = notes.
Proof.
  induction 1 as [|note notes H _ IH]; simpl; auto.
  destruct note; [now elim H|]. simpl. now rewrite IH.
Qed.

(** X27: the notes that [normalize_thinking_notes] returns are never empty
    (an object in the list that is true being assumed to have a non-empty
    [str()]); normalising them again changes nothing; main.py's function
    returns the same; and in both thinking prompts each of them gets its
    bullet, none being filtered out, the placeholder line standing in
    exactly when there is no note. *)
Theorem X27_every_note_gets_its_bullet
    (question : str) (notes : Main.notes_value) :
  (forall items, notes = Main.NotesList items ->
     Forall (fun x => bool_of x = true -> str_of x <> []) items) ->
  Main.normalize_thinking_notes notes = normalize_thinking_notes notes
  /\ Forall (fun note => note <> []) (normalize_thinking_notes notes)
  /\ normalize_thinking_notes
       (Main.NotesList (map Str (normalize_thinking_notes notes)))
     = normalize_thinking_notes notes
  /\ Prompts.build_thinking_prompt question (normalize_thinking_notes notes)
     = lit "User question: " ++ question ++ [10%N]
       ++ lit "Preliminary thoughts:" ++ [10%N]
       ++ match normalize_thinking_notes notes with
          | [] => lit "- Organizing possible answers"
          | bullets => join [10%N] (map (app (lit "- ")) bullets)
          end
       ++ [10%N]
       ++ lit "Follow the system prompt to generate visible thinking phrases."
  /\ Main.build_thinking_prompt question (normalize_thinking_notes notes)
     = lit "User question: " ++ question ++ [10%N]
       ++ lit "Preliminary thoughts:" ++ [10%N]
       ++ match normalize_thinking_notes notes with
          | [] => lit "- Reviewing possible answers"
          | bullets => join [10%N] (map (app (lit "- ")) bullets)
          end
       ++ [10%N]
       ++ lit "Generate visible-thinking phrases following the system instructions.".
Proof.
  intros H.
  assert (N : Forall (fun note => note <> []) (normalize_thinking_notes notes)).
  { destruct notes as [items | s |]; simpl.
    - specialize (H items eq_refl).
      induction H as [|x items Hx _ IH]; simpl; auto.
      destruct (bool_of x) eqn:B; simpl; auto.
    - destruct (strip s) eqn:E; simpl; auto. constructor; auto. discriminate.
    - constructor. }
  split; [now destruct notes|]. split; [exact N|]. split.
  - cbn [normalize_thinking_notes]. now apply normalized_again.
  - unfold Prompts.build_thinking_prompt, Main.build_thinking_prompt.
    rewrite (filter_truthy_all _ N).
    destruct (normalize_thinking_notes notes) as [|note rest] eqn:E.
    + split; reflexivity.
    + rewrite (bullets_truthy [10%N] (note :: rest)) by discriminate.
      split; reflexivity.
Qed.

(** Notes for X27: a list with an empty string and a number. *)
Lemma X27_every_note_gets_its_bullet_witness :
  normalize_thinking_notes
    (Main.NotesList [Str (lit "compare"); Str []; Other true (lit "3")])
  = [lit "compare"; lit "3"]
  /\ Forall (fun note => note <> [])
       (normalize_thinking_notes
          (Main.NotesList [Str (lit "compare"); Str []; Other true (lit "3")])).
Proof.
  split; [reflexivity|].
  apply (X27_every_note_gets_its_bullet (lit "Why?")
           (Main.NotesList [Str (lit "compare"); Str []; Other true (lit "3")])).
  intros items E. injection E as <-.
  repeat constructor; discriminate.
Defined.

(** ** The API settings *)

Lemma dict_get_set (V : Type) (d : dict V) (key : str) (v : V) :
  dict_get (dict_set d key v) key = Some v.
Proof.
  assert (R : str_eqb key key = true) by now apply str_eqb_eq.
  induction d as [|[k x] d IH]; simpl.
  - now rewrite R.
  - destruct (str_eqb k key) eqn:E; simpl; rewrite E; auto.
Qed.

Lemma first_key_trimmed (lines : list str) :
  strip (Main.first_key lines) = Main.first_key lines.
Proof.
  induction lines as [|line lines IH]; simpl; auto.
  destruct (truthy (strip line) && _); auto. apply strip_idem.
Qed.

(** X28: when [load_api_settings_from_files] returns without an error on
    its first call, the settings are marked as loaded and hold an API key
    that is a string, not empty, and without white space around it; the
    key of config.json, when it is not blank, is the one taken, whatever
    api_key.txt holds; and a later call changes nothing, whatever the
    files have become. *)
Theorem X28_loaded_api_key_is_trimmed_and_not_empty
    (OPENAI_SETTINGS : dict object) (config_json : Main.config_file)
    (api_key_txt : option (list str)) (loaded : bool)
    (settings : dict object) :
  Main.load_api_settings_from_files false OPENAI_SETTINGS config_json
    api_key_txt = (None, loaded, settings) ->
  loaded = true
  /\ (exists key,
        dict_get settings (lit "api_key") = Some (Str key)
        /\ key <> [] /\ strip key = key
        /\ forall data v,
             config_json = Main.ADict data ->
             dict_get data (lit "api_key") = Some v ->
             strip (str_of v) <> [] -> key = strip (str_of v))
  /\ forall config_json' api_key_txt',
       Main.load_api_settings_from_files loaded settings config_json'
         api_key_txt' = (None, true, settings).
Proof.
  unfold Main.load_api_settings_from_files.
  assert (G : forall (base : dict object) (from_config : str),
            strip from_config = from_config ->
            (let api_key :=
               if negb (truthy from_config)
               then match api_key_txt with
                    | Some lines => Main.first_key lines
                    | None => from_config
                    end
               else from_config in
             if negb (truthy api_key) then (Some Main.NoApiKey, false, base)
             else (None, true, dict_set base (lit "api_key") (Str api_key)))
            = (None, loaded, settings) ->
            loaded = true
            /\ exists key,
                 dict_get settings (lit "api_key") = Some (Str key)
                 /\ key <> [] /\ strip key = key
                 /\ (from_config <> [] -> key = from_config)).
  { intros base from_config T. cbv zeta.
    destruct from_config as [|c from_config]; simpl.
    - destruct api_key_txt as [lines|]; simpl; [|discriminate].
      destruct (Main.first_key lines) as [|c key] eqn:K; simpl;
        [discriminate|].
      intros E. injection E as <- <-. split; [reflexivity|].
      exists (c :: key). rewrite dict_get_set. repeat split; try discriminate.
      + rewrite <- K. apply first_key_trimmed.
      + intros N. now elim N.
    - intros E. injection E as <- <-. split; [reflexivity|].
      exists (c :: from_config). rewrite dict_get_set.
      repeat split; auto. discriminate. }
  intros H.
  assert (R : loaded = true
              /\ exists key,
                   dict_get settings (lit "api_key") = Some (Str key)
                   /\ key <> [] /\ strip key = key
                   /\ forall data v,
                        config_json = Main.ADict data ->
                        dict_get data (lit "api_key") = Some v ->
                        strip (str_of v) <> [] -> key = strip (str_of v)).
  { destruct config_json as [| | |data]; try discriminate H.
    - destruct (G OPENAI_SETTINGS [] eq_refl H) as (L & key & K1 & K2 & K3 & _).
      split; [exact L|]. exists key. repeat split; auto. discriminate.
    - destruct (G OPENAI_SETTINGS [] eq_refl H) as (L & key & K1 & K2 & K3 & _).
      split; [exact L|]. exists key. repeat split; auto. discriminate.
    - destruct data as [|entry data].
      + destruct (G OPENAI_SETTINGS [] eq_refl H)
          as (L & key & K1 & K2 & K3 & _).
        split; [exact L|]. exists key. repeat split; auto.
        intros data v E. injection E as <-. discriminate.
      + destruct (G _ _ (strip_idem _) H) as (L & key & K1 & K2 & K3 & K4).
        split; [exact L|]. exists key. repeat split; auto.
        intros data' v E D N. injection E as <-. rewrite D in K4. auto. }
  destruct R as [-> R]. split; [reflexivity|]. split; [exact R|]. reflexivity.
Qed.

(** Files for X28: a blank key in config.json, and a comment before the
    key in api_key.txt. *)
Lemma X28_loaded_api_key_is_trimmed_and_not_empty_witness :
  exists settings,
    Main.load_api_settings_from_files false [(lit "api_key", Str [])]
      (Main.ADict [(lit "api_key", Str (lit " "))])
      (Some [lit "# the key"; lit " sk-1 "])
    = (None, true, settings)
    /\ dict_get settings (lit "api_key") = Some (Str (lit "sk-1"))
    /\ exists key,
         dict_get settings (lit "api_key") = Some (Str key)
         /\ key <> [] /\ strip key = key
         /\ forall data v,
              Main.ADict [(lit "api_key", Str (lit " "))] = Main.ADict data ->
              dict_get data (lit "api_key") = Some v ->
              strip (str_of v) <> [] -> key = strip (str_of v).
Proof.
  eexists. split; [vm_compute; reflexivity|]. split; [reflexivity|].
  apply (X28_loaded_api_key_is_trimmed_and_not_empty
           [(lit "api_key", Str [])]
           (Main.ADict [(lit "api_key", Str (lit " "))])
           (Some [lit "# the key"; lit " sk-1 "]) true).
  vm_compute. reflexivity.
Defined.

(** ** The answer relay and its stream *)

(** A step of the producer thread moves items from what is still to come
    into the queue. *)
Lemma producer_step_conserves (m m' : streamer) :
  producer_step m = Some m' ->
  token_stream_fails m = false ->
  token_stream_fails m' = false
  /\ Orchestrator.queue m' ++ still_to_come m'
     = Orchestrator.queue m ++ still_to_come m.
Proof.
  unfold producer_step, still_to_come. intros H F.
  destruct (negb (thread_started m) || thread_finished m) eqn:B;
    [discriminate|].
  apply orb_false_iff in B. destruct B as [_ B]. rewrite B.
  destruct (ready m) as [|clause rest].
  - destruct (token_stream m) as [|token tokens].
    + injection H as <-. cbn [token_stream_fails thread_finished queue].
      rewrite F. split; [reflexivity|]. rewrite app_nil_r.
      cbn [generate_loop clauses map app].
      now destruct (truthy (strip (buffer m))).
    + cbn [generate_loop].
      destruct (_pop_ready_clauses (buffer m ++ token)) as [popped left].
      injection H as <-.
      cbn [token_stream_fails thread_finished queue ready token_stream buffer
           clauses map app].
      split; [exact F|]. now rewrite map_app, <- !app_assoc.
  - injection H as <-.
    cbn [token_stream_fails thread_finished queue ready token_stream buffer].
    split; [exact F|]. now rewrite <- app_assoc.
Qed.

Lemma queue_get_conserves (m m' : streamer) (r : resumption) :
  queue_get m = Some (r, m') ->
  token_stream_fails m' = token_stream_fails m
  /\ still_to_come m' = still_to_come m
  /\ exists item,
       Orchestrator.queue m = item :: Orchestrator.queue m'
       /\ r = match item with
              | Clause clause => Yields clause
              | Exception => Raises
              | EndOfStream => Exhausted
              end.
Proof.
  unfold queue_get. destruct (Orchestrator.queue m) as [|item rest] eqn:Q;
    [discriminate|].
  intros H. injection H as <- <-. repeat split. now exists item.
Qed.

(** The clauses taken so far are the first clauses of the stream. *)
Lemma clauses_prefix (a b : list str) (x : list queue_item) :
  map Clause a ++ x = map Clause b ++ [EndOfStream] ->
  exists rest, b = a ++ rest /\ x = map Clause rest ++ [EndOfStream].
Proof.
  revert b. induction a as [|c a IH]; intros b H.
  - exists b. auto.
  - destruct b as [|c' b]; [discriminate H|].
    simpl in H. injection H as -> H.
    destruct (IH b H) as (rest & -> & ->). now exists rest.
Qed.

Lemma resume_thinking_leaves_answer (r : resumption) (s s' : system) :
  resume_thinking r s = Some s' ->
  answer_task s' = answer_task s /\ reasoning_model s' = reasoning_model s.
Proof.
  unfold resume_thinking.
  destruct (_relay_thinking _ _ _ _) as [[st new]|]; [|discriminate].
  intros H. injection H as <-. auto.
Qed.

Ltac settle I :=
  let F := fresh "F" in
  destruct I as [F I]; split; [exact F|];
  rewrite ?map_app, <- ?app_assoc; exact I.

Lemma resume_answer_relayed (tokens : list str) (r : resumption)
    (s s' : system) :
  resume_answer r s = Some s' ->
  match a_pc (answer_task s) with
  | ADone _ => True
  | _ =>
      token_stream_fails (reasoning_model s) = false
      /\ map Clause (answer_parts (answer_task s))
         ++ match a_pc (answer_task s), r with
            | AWait clause, _ => [Clause clause]
            | ASpeak, _ => [EndOfStream]
            | ANext, Yields clause => [Clause clause]
            | ANext, Exhausted => [EndOfStream]
            | _, _ => []
            end
         ++ Orchestrator.queue (reasoning_model s)
         ++ still_to_come (reasoning_model s)
         = map Clause (clauses (_generate_clauses tokens)) ++ [EndOfStream]
  end ->
  relayed tokens (answer_task s') (reasoning_model s').
Proof.
  unfold resume_answer, relayed, taken.
  destruct (_relay_answer _ _ _ _ _ _) as [[st new]|] eqn:R; [|discriminate].
  intros H I. injection H as <-.
  cbn [answer_task reasoning_model]. unfold _relay_answer in R.
  destruct (a_pc (answer_task s)) eqn:P; destruct r; try discriminate R.
  - stepped R. cbn [a_goto a_pc answer_parts]. settle I.
  - destruct (first_clause (answer_task s)); stepped R.
    + cbn [a_goto a_pc answer_parts]. settle I.
    + cbn [take_clause fst a_pc answer_parts]. settle I.
  - stepped R. unfold send_answer, show_gesture.
    destruct (full_answer_parts (answer_task s)); [|destruct (furhat_client s)];
      cbn [fst a_goto a_pc answer_parts]; settle I.
  - stepped R. cbn [a_goto a_pc]. exact Logic.I.
  - stepped R. cbn [a_goto a_pc]. exact Logic.I.
  - destruct (thinking_window_done s); [|discriminate R]. stepped R.
    unfold hand_off.
    destruct (BehaviorGenerator.get_confidence_behavior _) as [pre ges].
    cbn [take_clause fst a_pc answer_parts]. settle I.
  - stepped R. cbn [a_goto a_pc]. exact Logic.I.
  - stepped R. unfold show_gesture. cbn [fst a_goto a_pc answer_parts].
    settle I.
  - stepped R. cbn [a_goto a_pc]. exact Logic.I.
  - stepped R. cbn [a_goto a_pc]. exact Logic.I.
Qed.

Lemma step_relayed (tokens : list str) (l : label) (s s' : system) :
  step l s = Some s' ->
  relayed tokens (answer_task s) (reasoning_model s) ->
  relayed tokens (answer_task s') (reasoning_model s').
Proof.
  assert (T : forall r s0,
            answer_task s0 = answer_task s ->
            reasoning_model s0 = reasoning_model s ->
            resume_thinking r s0 = Some s' ->
            relayed tokens (answer_task s) (reasoning_model s) ->
            relayed tokens (answer_task s') (reasoning_model s')).
  { intros r s0 E1 E2 H I.
    destruct (resume_thinking_leaves_answer _ _ _ H) as [-> ->].
    now rewrite E1, E2. }
  assert (A : forall r,
            (a_pc (answer_task s) = ANext -> r = Cancel) ->
            resume_answer r s = Some s' ->
            relayed tokens (answer_task s) (reasoning_model s) ->
            relayed tokens (answer_task s') (reasoning_model s')).
  { intros r N H I. apply (resume_answer_relayed tokens r s s' H).
    unfold relayed, taken in I.
    destruct (a_pc (answer_task s)) as [| | | |o] eqn:P;
      try exact Logic.I; try rewrite (N eq_refl);
      destruct I as [F I]; (split; [exact F|]);
      rewrite <- ?app_assoc in I; exact I. }
  intros H I. destruct l as [d | who | who | who | who | who];
    try destruct who; simpl in H; try discriminate H.
  - destruct (Qle_bool 0 d); [|discriminate]. injection H as <-. exact I.
  - destruct (producer_step (thinking_model s)); [|discriminate].
    injection H as <-. exact I.
  - (* the producer thread of the answer stream *)
    destruct (producer_step (reasoning_model s)) as [m'|] eqn:S;
      [|discriminate].
    injection H as <-. cbn [set_reasoning_model answer_task reasoning_model].
    unfold relayed in *.
    destruct (a_pc (answer_task s)) as [| | | |[| |]]; try exact Logic.I;
      destruct I as [F I];
      destruct (producer_step_conserves _ _ S F) as [F' C];
      (split; [exact F'|]); now rewrite C.
  - destruct (t_pc (thinking_task s)); try discriminate.
    destruct (queue_get (thinking_model s)) as [[r m]|]; [|discriminate].
    eapply T; [| | exact H | exact I]; reflexivity.
  - (* the answer relay takes an item *)
    destruct (a_pc (answer_task s)) eqn:P; try discriminate.
    destruct (queue_get (reasoning_model s)) as [[r m]|] eqn:G;
      [|discriminate].
    destruct (queue_get_conserves _ _ _ G) as (F' & C & item & Q & R).
    unfold relayed, taken in I. rewrite P in I. destruct I as [F I].
    rewrite Q, app_nil_r in I.
    destruct item as [clause | |].
    + apply (resume_answer_relayed tokens r _ s' H).
      cbn [set_reasoning_model answer_task reasoning_model].
      rewrite P, R, F', C. split; [exact F|]. exact I.
    + destruct (clauses_prefix _ _ _ I) as ([|c rest] & _ & N);
        discriminate N.
    + apply (resume_answer_relayed tokens r _ s' H).
      cbn [set_reasoning_model answer_task reasoning_model].
      rewrite P, R, F', C. split; [exact F|]. exact I.
  - destruct (t_pc (thinking_task s)); try discriminate;
      try (eapply T; [| | exact H | exact I]; reflexivity).
    destruct (Qle_bool wake (clock s)); [|discriminate]. eapply T; [| | exact H | exact I]; reflexivity.
  - (* the answer relay starts, or goes on *)
    destruct (a_pc (answer_task s)) eqn:P; try discriminate.
    + apply (resume_answer_relayed tokens Returns _ s' H).
      cbn [set_reasoning_model answer_task reasoning_model].
      unfold relayed, taken in I. rewrite P in *. destruct I as [F I].
      split; [exact F|]. rewrite <- app_assoc in I. exact I.
    + apply (A Returns); auto. congruence.
    + apply (A Returns); auto. congruence.
  - destruct (t_pc (thinking_task s)); try discriminate;
      (eapply T; [| | exact H | exact I]; reflexivity).
  - destruct (a_pc (answer_task s)) eqn:P; try discriminate.
    apply (A Raises); auto. congruence.
  - eapply T; [| | exact H | exact I]; reflexivity.
  - apply (A Cancel); auto.
Qed.

(** X29: on a ThinkingAndAnswering turn whose answer stream does not fail,
    in every state of every schedule the clauses the answer relay has
    taken are the first clauses of [_generate_clauses] on the answer
    tokens, in order, none skipped and none repeated, unless the relay has
    failed or been cancelled; and once it has returned they are all of
    them: with X23, what is spoken is the prefix and the whole answer. *)
Theorem X29_answer_relay_takes_every_clause
    (client : bool) (question : str) (d : decision) (llm : completions)
    (now : Q) (s0 : system) (schedule : list label) (s : system) :
  run client question d llm now = ThinkingAndAnswering s0 ->
  exec schedule s0 = Some s ->
  answer_fails llm = false ->
  (a_pc (answer_task s) <> ADone Failed ->
   a_pc (answer_task s) <> ADone Cancelled ->
   exists rest,
     clauses (_generate_clauses (answer_tokens llm))
     = answer_parts (answer_task s) ++ rest)
  /\ (a_pc (answer_task s) = ADone Completed ->
      answer_parts (answer_task s)
      = clauses (_generate_clauses (answer_tokens llm))).
Proof.
  intros R E F.
  assert (I : relayed (answer_tokens llm) (answer_task s) (reasoning_model s)).
  { revert R E. unfold run. destruct (need_thinking d); simpl.
    - intros R. injection R as <-.
      assert (I0 : relayed (answer_tokens llm)
                     (answer_task (spawn client question (confidence d) llm now))
                     (reasoning_model
                        (spawn client question (confidence d) llm now))).
      { unfold relayed, taken, still_to_come. simpl. rewrite F. auto. }
      revert I0. generalize (spawn client question (confidence d) llm now).
      induction schedule as [|l schedule IH]; simpl; intros s1 I1 E.
      + now injection E as <-.
      + destruct (step l s1) as [s2|] eqn:E2; [|discriminate].
        apply (IH s2); auto. eapply step_relayed; eauto.
    - destruct (_respond_directly client d (confidence d)). discriminate. }
  unfold relayed, taken in I. split.
  - intros N1 N2.
    destruct (a_pc (answer_task s)) as [| | | |[| |]];
      try (now elim N1); try (now elim N2);
      destruct I as [_ I]; rewrite <- app_assoc in I;
      destruct (clauses_prefix _ _ _ I) as (rest & -> & _); now exists rest.
  - intros D. rewrite D in I. destruct I as [_ I]. rewrite <- app_assoc in I.
    destruct (clauses_prefix _ _ _ I) as (rest & -> & N).
    destruct rest as [|c rest]; [now rewrite app_nil_r|]. discriminate N.
Qed.

(** A turn for X29: the two clauses of the answer stream. *)
Lemma X29_answer_relay_takes_every_clause_witness :
  exists final,
    exec (answer_fetched_first ++ thinking_then_answer) (start true two_streams)
    = Some final
    /\ answer_parts (answer_task final) = [lit "Yes."; lit "It is"]
    /\ (a_pc (answer_task final) = ADone Completed ->
        answer_parts (answer_task final)
        = clauses (_generate_clauses (answer_tokens two_streams))).
Proof.
  eexists. split; [vm_compute; reflexivity|]. split; [reflexivity|].
  apply (X29_answer_relay_takes_every_clause true (lit "Why?") thoughtful
           two_streams 0%Q (start true two_streams)
           (answer_fetched_first ++ thinking_then_answer)).
  - reflexivity.
  - vm_compute. reflexivity.
  - reflexivity.
Defined.

(** ** The turn can always be brought to its end *)

Lemma producer_step_open (m m' : streamer) :
  producer_step m = Some m' -> stream_open m'.
Proof.
  unfold producer_step, stream_open. intros H.
  destruct (negb (thread_started m) || thread_finished m); [discriminate|].
  destruct (ready m) as [|clause rest].
  - destruct (token_stream m) as [|token tokens].
    + injection H as <-. cbn [thread_started thread_finished queue].
      split; [reflexivity|]. intros _.
      destruct (token_stream_fails m).
      * exists (Orchestrator.queue m ++ [Exception]).
        now rewrite <- app_assoc.
      * exists (Orchestrator.queue m
                ++ (if truthy (strip (buffer m))
                    then [Clause (strip (buffer m))] else [])).
        now rewrite <- !app_assoc.
    + destruct (_pop_ready_clauses (buffer m ++ token)).
      injection H as <-. split; [reflexivity | discriminate].
  - injection H as <-. split; [reflexivity | discriminate].
Qed.

(** Taking an item that is not the end of the stream leaves it open. *)
Lemma queue_get_open (m m' : streamer) (r : resumption) :
  queue_get m = Some (r, m') -> stream_open m -> r <> Exhausted ->
  stream_open m'.
Proof.
  intros G [S F] N.
  destruct (queue_get_conserves _ _ _ G) as (_ & _ & item & Q & R).
  unfold queue_get in G. rewrite Q in G. injection G as _ <-.
  split; [exact S|]. cbn [thread_finished queue]. intros Fin.
  destruct (F Fin) as (pre & E). rewrite Q in E.
  destruct pre as [|x pre].
  - injection E as -> _. now elim N.
  - injection E as _ ->. now exists pre.
Qed.

Lemma relay_thinking_reads_on (client : bool) (now : Q) (r : resumption)
    (st st' : thinking) (new : list event) :
  _relay_thinking client now r st = Some (st', new) ->
  reads_on st' = true ->
  r <> Exhausted /\ (reads_on st = true \/ t_pc st = TCreated).
Proof.
  intros H.
  assert (F : forall st0, reads_on (fst (fallback_loop client now st0)) = false).
  { intros st0. unfold fallback_loop, emit_line.
    destruct (_ && _); [destruct client|]; reflexivity. }
  assert (A : forall st0,
            reads_on (fst (after_emit client now false st0)) = false).
  { intros st0. unfold after_emit. cbv zeta.
    destruct (window_closed _ _); reflexivity. }
  unfold _relay_thinking in H. unfold reads_on at 2.
  destruct (t_pc st) eqn:P; destruct r; try discriminate H;
    try (stepped H; cbn [t_finally t_goto fst reads_on t_pc];
         first [discriminate | rewrite F; discriminate
               | intros Hr; split; [discriminate | now auto]]).
  - intros _. split; [discriminate | auto].
  - destruct in_stream; stepped H; [|rewrite A; discriminate].
    intros _. split; [discriminate | auto].
  - destruct in_stream; stepped H; [|rewrite F; discriminate].
    intros _. split; [discriminate | auto].
Qed.

Lemma relay_thinking_started (client : bool) (now : Q) (r : resumption)
    (st st' : thinking) (new : list event) :
  _relay_thinking client now r st = Some (st', new) ->
  t_pc st' <> TCreated /\ (t_pc st = TCreated -> r = Returns).
Proof.
  intros H.
  assert (F : forall st0, t_pc (fst (fallback_loop client now st0)) <> TCreated).
  { intros st0. unfold fallback_loop, emit_line.
    destruct (_ && _); [destruct client|]; discriminate. }
  assert (A : forall b st0,
            t_pc (fst (after_emit client now b st0)) <> TCreated).
  { intros b st0. unfold after_emit. cbv zeta.
    destruct (window_closed _ _); [destruct b|]; try apply F; discriminate. }
  unfold _relay_thinking in H.
  destruct (t_pc st) eqn:P; destruct r; try discriminate H;
    try (stepped H; split; [first [apply F | apply A | discriminate]
                           | first [reflexivity | discriminate]]).
  - destruct (window_closed now st); [stepped H; split; [apply F | discriminate]|].
    destruct (negb (_is_meaningful_thinking_cue item)); stepped H.
    + split; [congruence | discriminate].
    + unfold emit_line. destruct client; split; discriminate.
  - destruct in_stream; stepped H; split;
      first [apply F | discriminate].
Qed.

Lemma relay_answer_awaits (client : bool) (hint : option str) (flag : bool)
    (wc : nat) (r : resumption) (st st' : answering) (new : list event) :
  _relay_answer client hint flag wc r st = Some (st', new) ->
  a_pc st' <> ACreated
  /\ (awaits_clause st' = true ->
      r <> Exhausted
      /\ (awaits_clause st = true \/ (a_pc st = ACreated /\ r = Returns))).
Proof.
  intros H.
  assert (S : forall st0,
            a_pc (fst (send_answer client st0)) <> ACreated
            /\ awaits_clause (fst (send_answer client st0)) = false).
  { intros st0. unfold send_answer, show_gesture.
    destruct (full_answer_parts st0); [|destruct client];
      split; try discriminate; reflexivity. }
  unfold _relay_answer in H. unfold awaits_clause.
  destruct (a_pc st) eqn:P; destruct r; try discriminate H;
    try (stepped H; cbn [a_goto a_pc];
         split; [discriminate
                | first [discriminate
                        | intros _; split; [discriminate | now auto]]]).
  - destruct (first_clause st); stepped H; cbn [a_goto take_clause fst a_pc];
      (split; [discriminate | intros _; split; [discriminate | auto]]).
  - stepped H. destruct (S st) as [S1 S2]. split; [exact S1|].
    unfold awaits_clause in S2. rewrite S2. discriminate.
  - destruct flag; [|discriminate H]. stepped H. unfold hand_off.
    destruct (BehaviorGenerator.get_confidence_behavior _).
    cbn [take_clause fst a_pc].
    split; [discriminate | intros _; split; [discriminate | auto]].
Qed.

Lemma step_live (l : label) (s s' : system) :
  step l s = Some s' -> live s -> live s'.
Proof.
  assert (T : forall r s0,
            resume_thinking r s0 = Some s' ->
            answer_task s0 = answer_task s ->
            reasoning_model s0 = reasoning_model s ->
            live s ->
            (r <> Exhausted -> reads_on (thinking_task s0) = true ->
             stream_open (thinking_model s0)) ->
            (r = Returns -> t_pc (thinking_task s0) = TCreated ->
             stream_open (thinking_model s0)) ->
            live s').
  { clear. intros r s0 H E1 E2 [L1 L2 L3 L4] O1 O2. unfold resume_thinking in H.
    destruct (_relay_thinking _ _ _ _) as [[st new]|] eqn:R; [|discriminate].
    injection H as <-.
    destruct (relay_thinking_started _ _ _ _ _ _ R) as [N1 N2].
    constructor; cbn [thinking_task thinking_model answer_task reasoning_model];
      rewrite ?E1, ?E2; auto.
    - intros C. now elim N1.
    - intros Hr.
      destruct (relay_thinking_reads_on _ _ _ _ _ _ R Hr) as [N [Q | Q]];
        auto. }
  assert (A : forall r s0,
            resume_answer r s0 = Some s' ->
            thinking_task s0 = thinking_task s ->
            thinking_model s0 = thinking_model s ->
            live s ->
            (r <> Exhausted -> awaits_clause (answer_task s0) = true ->
             stream_open (reasoning_model s0)) ->
            (r = Returns -> a_pc (answer_task s0) = ACreated ->
             stream_open (reasoning_model s0)) ->
            live s').
  { clear. intros r s0 H E1 E2 [L1 L2 L3 L4] O1 O2. unfold resume_answer in H.
    destruct (_relay_answer _ _ _ _ _ _) as [[st new]|] eqn:R; [|discriminate].
    injection H as <-.
    destruct (relay_answer_awaits _ _ _ _ _ _ _ _ R) as [N1 N2].
    constructor; cbn [thinking_task thinking_model answer_task reasoning_model];
      rewrite ?E1, ?E2; auto.
    - intros C. now elim N1.
    - intros Hr. destruct (N2 Hr) as [N [Q | [Q Q']]]; auto. }
  assert (U : forall m,
            thread_finished m = false -> stream_open (start_thread m)).
  { clear. intros m F. split; [reflexivity|].
    cbn [start_thread thread_finished]. rewrite F. discriminate. }
  intros H L. pose proof L as [L1 L2 L3 L4].
  destruct l as [d | who | who | who | who | who];
    try destruct who; simpl in H; try discriminate H.
  - destruct (Qle_bool 0 d); [|discriminate]. injection H as <-.
    constructor; assumption.
  - (* the producer thread of the thinking stream *)
    destruct (producer_step (thinking_model s)) as [m'|] eqn:S;
      [|discriminate].
    injection H as <-. pose proof (producer_step_open _ _ S) as O.
    constructor; cbn [set_thinking_model thinking_task thinking_model
                      answer_task reasoning_model]; auto.
    intros C. destruct (L1 C) as [N _]. unfold producer_step in S.
    rewrite N in S. discriminate S.
  - destruct (producer_step (reasoning_model s)) as [m'|] eqn:S;
      [|discriminate].
    injection H as <-. pose proof (producer_step_open _ _ S) as O.
    constructor; cbn [set_reasoning_model thinking_task thinking_model
                      answer_task reasoning_model]; auto.
    intros C. destruct (L3 C) as [N _]. unfold producer_step in S.
    rewrite N in S. discriminate S.
  - (* the thinking relay takes an item *)
    destruct (t_pc (thinking_task s)) eqn:P; try discriminate.
    destruct (queue_get (thinking_model s)) as [[r m]|] eqn:G; [|discriminate].
    assert (O : stream_open (thinking_model s)).
    { apply L2. unfold reads_on. now rewrite P. }
    apply (T r _ H); auto; cbn [set_thinking_model thinking_task thinking_model].
    + intros N _. exact (queue_get_open _ _ _ G O N).
    + rewrite P. discriminate.
  - (* the answer relay takes an item *)
    destruct (a_pc (answer_task s)) eqn:P; try discriminate.
    destruct (queue_get (reasoning_model s)) as [[r m]|] eqn:G; [|discriminate].
    assert (O : stream_open (reasoning_model s)).
    { apply L4. unfold awaits_clause. now rewrite P. }
    apply (A r _ H); auto; cbn [set_reasoning_model answer_task reasoning_model].
    + intros N _. exact (queue_get_open _ _ _ G O N).
    + rewrite P. discriminate.
  - (* the thinking relay starts, or goes on *)
    destruct (t_pc (thinking_task s)) eqn:P; try discriminate.
    + apply (T Returns _ H); auto;
        cbn [set_thinking_model thinking_task thinking_model].
      * intros _ _. apply U. now destruct (L1 eq_refl).
      * intros _ _. apply U. now destruct (L1 eq_refl).
    + apply (T Returns _ H); auto. rewrite P. discriminate.
    + apply (T Returns _ H); auto. rewrite P. discriminate.
    + destruct (Qle_bool wake (clock s)); [|discriminate].
      apply (T Returns _ H); auto. rewrite P. discriminate.
  - (* the answer relay starts, or goes on *)
    destruct (a_pc (answer_task s)) eqn:P; try discriminate.
    + apply (A Returns _ H); auto;
        cbn [set_reasoning_model answer_task reasoning_model].
      * intros _ _. apply U. now destruct (L3 eq_refl).
      * intros _ _. apply U. now destruct (L3 eq_refl).
    + apply (A Returns _ H); auto. rewrite P. discriminate.
    + apply (A Returns _ H); auto. rewrite P. discriminate.
  - destruct (t_pc (thinking_task s)) eqn:P; try discriminate;
      (apply (T Raises _ H); auto; discriminate).
  - destruct (a_pc (answer_task s)) eqn:P; try discriminate;
      (apply (A Raises _ H); auto; discriminate).
  - apply (T Cancel _ H); auto; discriminate.
  - apply (A Cancel _ H); auto; discriminate.
Qed.

Lemma exec_app (a b : list label) (s : system) :
  exec (a ++ b) s
  = match exec a s with
    | Some s' => exec b s'
    | None => None
    end.
Proof.
  revert s. induction a as [|l a IH]; intros s; simpl; auto.
  destruct (step l s); auto.
Qed.

Lemma exec_live (schedule : list label) :
  forall s s', exec schedule s = Some s' -> live s -> live s'.
Proof.
  induction schedule as [|l schedule IH]; simpl; intros s s' H I.
  - now injection H as <-.
  - destruct (step l s) as [s1|] eqn:E; [|discriminate].
    eapply IH; eauto. eapply step_live; eauto.
Qed.

(** The producer thread, once started, can always step until it has
    finished. *)
Lemma producer_step_some (m : streamer) :
  thread_started m = true -> thread_finished m = false ->
  exists m', producer_step m = Some m' /\ thread_started m' = true.
Proof.
  intros S F. unfold producer_step. rewrite S, F. simpl.
  destruct (ready m); [destruct (token_stream m)|];
    try destruct (_pop_ready_clauses _); eexists; split; reflexivity.
Qed.

Lemma run_producer_add (j k : nat) (m m1 m2 : streamer) :
  run_producer j m = Some m1 -> run_producer k m1 = Some m2 ->
  run_producer (j + k) m = Some m2.
Proof.
  revert m. induction j as [|j IH]; simpl; intros m H1 H2.
  - now injection H1 as ->.
  - destruct (producer_step m) as [m'|]; [|discriminate]. now apply IH.
Qed.

Lemma producer_finishes (n : nat) :
  forall r m,
    length (token_stream m) <= n -> length (ready m) <= r ->
    thread_started m = true ->
    exists k m', run_producer k m = Some m' /\ thread_finished m' = true.
Proof.
  induction n as [|n IHn].
  - induction r as [|r IHr]; intros m Ht Hr St;
      (destruct (thread_finished m) eqn:F; [now exists 0, m|]).
    + exists 1. unfold run_producer, producer_step. rewrite St, F. simpl.
      destruct (ready m); [|simpl in Hr; lia].
      destruct (token_stream m); [|simpl in Ht; lia].
      eexists. split; reflexivity.
    + destruct (ready m) as [|c rest] eqn:R.
      * apply (IHr m); auto. rewrite R. simpl. lia.
      * destruct (IHr {| token_stream := token_stream m;
                         token_stream_fails := token_stream_fails m;
                         thread_started := true; thread_finished := false;
                         buffer := buffer m;
                         word_count := Orchestrator.word_count m;
                         ready := rest;
                         queue := Orchestrator.queue m ++ [Clause c] |})
          as (k & m' & H1 & H2); auto.
        { simpl in *. lia. }
        exists (S k), m'. split; [|exact H2].
        simpl. unfold producer_step. rewrite St, F, R. exact H1.
  - induction r as [|r IHr]; intros m Ht Hr St;
      (destruct (thread_finished m) eqn:F; [now exists 0, m|]).
    + destruct (ready m) as [|c rest] eqn:R; [|simpl in Hr; lia].
      destruct (token_stream m) as [|token tokens] eqn:T.
      * exists 1. unfold run_producer, producer_step. rewrite St, F, R, T.
        simpl. eexists. split; reflexivity.
      * destruct (_pop_ready_clauses (buffer m ++ token)) as [popped left]
          eqn:P.
        destruct (IHn (length popped)
                    {| token_stream := tokens;
                       token_stream_fails := token_stream_fails m;
                       thread_started := true; thread_finished := false;
                       buffer := left;
                       word_count := length (split (buffer m ++ token));
                       ready := popped; queue := Orchestrator.queue m |})
          as (k & m' & H1 & H2); auto.
        { simpl in *. lia. }
        exists (S k), m'. split; [|exact H2].
        simpl. unfold producer_step. rewrite St, F, R, T. simpl. rewrite P.
        exact H1.
    + destruct (ready m) as [|c rest] eqn:R.
      * apply (IHr m); auto. rewrite R. simpl. lia.
      * destruct (IHr {| token_stream := token_stream m;
                         token_stream_fails := token_stream_fails m;
                         thread_started := true; thread_finished := false;
                         buffer := buffer m;
                         word_count := Orchestrator.word_count m;
                         ready := rest;
                         queue := Orchestrator.queue m ++ [Clause c] |})
          as (k & m' & H1 & H2); auto.
        { simpl in *. lia. }
        exists (S k), m'. split; [|exact H2].
        simpl. unfold producer_step. rewrite St, F, R. exact H1.
Qed.

Lemma run_producer_open (k : nat) :
  forall m m', run_producer k m = Some m' -> stream_open m -> stream_open m'.
Proof.
  induction k as [|k IH]; simpl; intros m m' H O.
  - now injection H as <-.
  - destruct (producer_step m) as [m1|] eqn:S; [|discriminate].
    apply (IH m1); auto. eapply producer_step_open; eauto.
Qed.

Lemma set_thinking_model_same (s : system) :
  set_thinking_model (thinking_model s) s = s.
Proof. now destruct s. Qed.

Lemma set_reasoning_model_same (s : system) :
  set_reasoning_model (reasoning_model s) s = s.
Proof. now destruct s. Qed.

Lemma exec_produce_thinking (k : nat) :
  forall s m,
    run_producer k (thinking_model s) = Some m ->
    exec (repeat (Produce ThinkingRelay) k) s = Some (set_thinking_model m s).
Proof.
  induction k as [|k IH]; simpl; intros s m H.
  - injection H as <-. now rewrite set_thinking_model_same.
  - destruct (producer_step (thinking_model s)) as [m1|]; [|discriminate].
    simpl. now rewrite (IH (set_thinking_model m1 s) m H).
Qed.

Lemma exec_produce_answer (k : nat) :
  forall s m,
    run_producer k (reasoning_model s) = Some m ->
    exec (repeat (Produce AnswerRelay) k) s = Some (set_reasoning_model m s).
Proof.
  induction k as [|k IH]; simpl; intros s m H.
  - injection H as <-. now rewrite set_reasoning_model_same.
  - destruct (producer_step (reasoning_model s)) as [m1|]; [|discriminate].
    simpl. now rewrite (IH (set_reasoning_model m1 s) m H).
Qed.

Lemma undisturbed_repeat (l : label) (k : nat) :
  undisturbed l = true -> forallb undisturbed (repeat l k) = true.
Proof. intros H. induction k as [|k IH]; simpl; [|rewrite H]; auto. Qed.

(** Once the thread has finished, an open stream has an item to take. *)
Lemma finished_has_item (m : streamer) :
  stream_open m -> thread_finished m = true ->
  exists r m', queue_get m = Some (r, m')
               /\ thread_finished m' = true
               /\ length (Orchestrator.queue m')
                  < length (Orchestrator.queue m).
Proof.
  intros [S O] F. destruct (O F) as (pre & E). unfold queue_get.
  destruct (Orchestrator.queue m) as [|item rest].
  - destruct pre; discriminate E.
  - do 2 eexists. split; [reflexivity|]. simpl. split; [exact F | lia].
Qed.

(** A clock reading at or after any given time can be reached. *)
Lemma tick_to (t : Q) (s : system) :
  exists d,
    step (Tick d) s = Some (set_clock (clock s + d)%Q s)
    /\ Qle_bool t (clock s + d)%Q = true
    /\ (clock s <= clock s + d)%Q.
Proof.
  destruct (Qle_bool t (clock s)) eqn:E.
  - exists 0%Q. split; [reflexivity|]. apply Qle_bool_iff in E.
    split; [apply Qle_bool_iff|]; lra.
  - apply Qle_bool_false in E. exists (t - clock s)%Q.
    assert (P : Qle_bool 0 (t - clock s) = true) by (apply Qle_bool_iff; lra).
    simpl. rewrite P. split; [reflexivity|].
    split; [apply Qle_bool_iff|]; lra.
Qed.

(** Past the deadline, the thinking relay leaves at the next item of its
    stream. *)
Lemma next_exits (s : system) :
  live s -> t_pc (thinking_task s) = TNext ->
  Qle_bool (deadline (thinking_task s)) (clock s) = true ->
  exists schedule s',
    forallb undisturbed schedule = true
    /\ exec schedule s = Some s' /\ thinking_exited s'.
Proof.
  intros L P D.
  assert (O : stream_open (thinking_model s)).
  { apply (thinking_stream_open s L). unfold reads_on. now rewrite P. }
  destruct (producer_finishes _ _ (thinking_model s) (le_n _) (le_n _)
              (proj1 O)) as (k & m & R & F).
  pose proof (run_producer_open _ _ _ R O) as O'.
  destruct (finished_has_item m O' F) as (r & m' & G & _).
  assert (X : exists s2,
            step (Get ThinkingRelay) (set_thinking_model m s) = Some s2
            /\ thinking_exited s2).
  { cbn [step set_thinking_model thinking_task thinking_model].
    rewrite P, G. unfold resume_thinking, _relay_thinking.
    cbn [set_thinking_model thinking_task thinking_model furhat_client clock].
    rewrite P.
    destruct (queue_get_conserves _ _ _ G) as (_ & _ & item & _ & ->).
    unfold window_closed, fallback_loop. rewrite D.
    destruct item; cbn [orb negb andb t_finally];
      eexists; (split; [reflexivity|]); do 2 eexists; reflexivity. }
  destruct X as (s2 & X1 & X2).
  exists (repeat (Produce ThinkingRelay) k ++ [Get ThinkingRelay]), s2.
  split; [|split; [|exact X2]].
  - rewrite forallb_app, undisturbed_repeat; reflexivity.
  - rewrite exec_app, (exec_produce_thinking k s m R). cbn [exec].
    now rewrite X1.
Qed.

Lemma set_clock_live (now : Q) (s : system) : live s -> live (set_clock now s).
Proof. intros [L1 L2 L3 L4]. constructor; assumption. Qed.

(** The thinking relay can always be brought to its exit. *)
Lemma thinking_can_exit (s : system) :
  live s ->
  exists schedule s',
    forallb undisturbed schedule = true
    /\ exec schedule s = Some s' /\ thinking_exited s'.
Proof.
  intros L.
  assert (N : forall s1,
            live s1 -> t_pc (thinking_task s1) = TNext ->
            exists schedule s',
              forallb undisturbed schedule = true
              /\ exec schedule s1 = Some s' /\ thinking_exited s').
  { clear. intros s1 L P.
    destruct (tick_to (deadline (thinking_task s1)) s1) as (d & T1 & T2 & _).
    destruct (next_exits (set_clock (clock s1 + d)%Q s1))
      as (sch & s' & U & E & X); auto using set_clock_live.
    exists (Tick d :: sch), s'. split; [exact U|]. split; [|exact X].
    cbn [exec]. now rewrite T1. }
  destruct (t_pc (thinking_task s)) eqn:P.
  - (* not started *)
    assert (G : exists s1, step (Go ThinkingRelay) s = Some s1
                           /\ t_pc (thinking_task s1) = TNext).
    { cbn [step]. rewrite P. unfold resume_thinking, _relay_thinking.
      cbn [set_thinking_model thinking_task]. rewrite P.
      eexists. split; reflexivity. }
    destruct G as (s1 & G1 & G2).
    destruct (N s1 (step_live _ _ _ G1 L) G2) as (sch & s' & U & E & X).
    exists (Go ThinkingRelay :: sch), s'. split; [exact U|]. split; [|exact X].
    cbn [exec]. now rewrite G1.
  - now apply N.
  - (* speaking *)
    destruct (tick_to (deadline (thinking_task s)) s) as (d & T1 & T2 & _).
    assert (G : exists s2,
              exec [Go ThinkingRelay; Go ThinkingRelay]
                (set_clock (clock s + d)%Q s) = Some s2
              /\ thinking_exited s2).
    { cbn [exec step set_clock thinking_task clock]. rewrite P.
      unfold resume_thinking at 1, _relay_thinking at 1.
      cbn [set_clock thinking_task clock furhat_client]. rewrite P.
      cbn [step thinking_task t_goto t_pc].
      unfold resume_thinking, _relay_thinking.
      cbn [thinking_task clock furhat_client t_goto t_pc].
      unfold after_emit, window_closed, fallback_loop.
      cbn [t_goto deadline emitted]. rewrite T2.
      destruct in_stream; cbn [orb negb andb t_finally];
        eexists; (split; [reflexivity|]); do 2 eexists; reflexivity. }
    destruct G as (s2 & G1 & G2).
    exists [Tick d; Go ThinkingRelay; Go ThinkingRelay], s2.
    split; [reflexivity|]. split; [|exact G2].
    change (exec [Tick d; Go ThinkingRelay; Go ThinkingRelay] s)
      with (match step (Tick d) s with
            | Some s1 => exec [Go ThinkingRelay; Go ThinkingRelay] s1
            | None => None
            end).
    now rewrite T1.
  - (* showing the behaviour *)
    destruct (tick_to (deadline (thinking_task s)) s) as (d & T1 & T2 & _).
    assert (G : exists s2,
              exec [Go ThinkingRelay] (set_clock (clock s + d)%Q s) = Some s2
              /\ thinking_exited s2).
    { cbn [exec step set_clock thinking_task clock]. rewrite P.
      unfold resume_thinking, _relay_thinking.
      cbn [set_clock thinking_task clock furhat_client]. rewrite P.
      unfold after_emit, window_closed, fallback_loop.
      cbn [deadline emitted]. rewrite T2.
      destruct in_stream; cbn [orb negb andb t_finally];
        eexists; (split; [reflexivity|]); do 2 eexists; reflexivity. }
    destruct G as (s2 & G1 & G2).
    exists [Tick d; Go ThinkingRelay], s2.
    split; [reflexivity|]. split; [|exact G2].
    change (exec [Tick d; Go ThinkingRelay] s)
      with (match step (Tick d) s with
            | Some s1 => exec [Go ThinkingRelay] s1
            | None => None
            end).
    now rewrite T1.
  - (* pausing *)
    destruct (tick_to (deadline (thinking_task s)) s) as (d & T1 & T2 & _).
    destruct (tick_to wake (set_clock (clock s + d)%Q s))
      as (d' & T1' & T2' & T3').
    cbn [set_clock clock] in T1', T2', T3'.
    set (s2 := set_clock (clock s + d + d')%Q (set_clock (clock s + d)%Q s))
      in *.
    assert (D2 : Qle_bool (deadline (thinking_task s2)) (clock s2) = true).
    { apply Qle_bool_iff. apply Qle_bool_iff in T2. unfold s2.
      cbn [set_clock thinking_task clock]. lra. }
    assert (L2 : live s2) by (unfold s2; auto using set_clock_live).
    assert (G : exists sch s3,
              forallb undisturbed sch = true
              /\ exec (Go ThinkingRelay :: sch) s2 = Some s3
              /\ thinking_exited s3).
    { destruct in_stream.
      - assert (G : exists s3, step (Go ThinkingRelay) s2 = Some s3
                               /\ t_pc (thinking_task s3) = TNext
                               /\ deadline (thinking_task s3)
                                  = deadline (thinking_task s2)
                               /\ clock s3 = clock s2).
        { unfold s2 at 1. cbn [step set_clock thinking_task clock].
          rewrite P, T2'. unfold resume_thinking, _relay_thinking.
          cbn [set_clock thinking_task clock furhat_client]. rewrite P.
          eexists. split; [reflexivity|]. repeat split. }
        destruct G as (s3 & G1 & G2 & G3 & G4).
        destruct (next_exits s3) as (sch & s4 & U & E & X); auto.
        + eapply step_live; eauto.
        + now rewrite G3, G4.
        + exists sch, s4. split; [exact U|]. split; [|exact X].
          cbn [exec]. now rewrite G1.
      - exists [].
        unfold s2 at 1. cbn [exec step set_clock thinking_task clock].
        rewrite P, T2'. unfold resume_thinking, _relay_thinking.
        cbn [set_clock thinking_task clock furhat_client]. rewrite P.
        unfold fallback_loop.
        assert (D3 : Qle_bool (deadline (thinking_task s))
                       (clock s + d + d') = true) by exact D2.
        rewrite D3. cbn [negb andb t_finally].
        eexists. split; [reflexivity|]. split; [reflexivity|].
        do 2 eexists. reflexivity. }
    destruct G as (sch & s3 & U & E & X).
    exists (Tick d :: Tick d' :: Go ThinkingRelay :: sch), s3.
    split; [exact U|]. split; [|exact X].
    change (exec (Tick d :: Tick d' :: Go ThinkingRelay :: sch) s)
      with (match step (Tick d) s with
            | Some s1 =>
                match step (Tick d') s1 with
                | Some s2 => exec (Go ThinkingRelay :: sch) s2
                | None => None
                end
            | None => None
            end).
    rewrite T1, T1'. exact E.
  - exists [], s. split; [reflexivity|]. split; [reflexivity|].
    do 2 eexists. exact P.
Qed.

(** What a step of the answer relay leaves as it is. *)
Lemma resume_answer_leaves (r : resumption) (s s' : system) :
  resume_answer r s = Some s' ->
  thinking_task s' = thinking_task s
  /\ reasoning_model s' = reasoning_model s
  /\ thinking_window_done s' = thinking_window_done s.
Proof.
  unfold resume_answer.
  destruct (_relay_answer _ _ _ _ _ _) as [[st new]|] eqn:R; [|discriminate].
  intros H. injection H as <-.
  cbn [thinking_task reasoning_model thinking_window_done].
  repeat split.
  assert (Q : forall evs mode,
            (forall e, In e evs -> e <> BarrierSet /\ e <> BarrierClear) ->
            barrier_after mode evs = mode).
  { clear. induction evs as [|e evs IH]; intros mode H; [reflexivity|].
    simpl. destruct (H e (or_introl eq_refl)) as [N1 N2].
    destruct e; try (apply IH; intros; apply H; now right);
      [now elim N2 | now elim N1]. }
  apply Q. clear Q. intros e Hin. unfold _relay_answer in R.
  assert (G : forall st0, In e (snd (show_gesture st0)) ->
                          e <> BarrierSet /\ e <> BarrierClear).
  { intros st0. unfold show_gesture.
    destruct (truthy _); simpl; [|tauto].
    intros [<- | []]. split; discriminate. }
  destruct (a_pc (answer_task s)); destruct r; try discriminate R;
    try (stepped R; first [now destruct Hin | now apply (G _ Hin)]).
  - destruct (first_clause (answer_task s)); stepped R.
    + destruct Hin.
    + destruct Hin as [<- | []]. split; discriminate.
  - stepped R. unfold send_answer in Hin.
    destruct (full_answer_parts (answer_task s)); [now apply (G _ Hin)|].
    destruct (furhat_client s); [|now apply (G _ Hin)].
    destruct Hin as [<- | []]. split; discriminate.
  - destruct (thinking_window_done s); [|discriminate R]. stepped R.
    unfold hand_off in Hin.
    destruct (BehaviorGenerator.get_confidence_behavior _).
    destruct Hin as [<- | [<- | []]]; split; discriminate.
Qed.

(** The answer relay takes whatever its stream gives. *)
Lemma resume_answer_next (r : resumption) (s : system) :
  a_pc (answer_task s) = ANext -> r <> Returns -> r <> Cancel ->
  exists s',
    resume_answer r s = Some s'
    /\ match r with
       | Yields clause =>
           a_pc (answer_task s') = ANext
           \/ a_pc (answer_task s') = AWait clause
       | Exhausted =>
           a_pc (answer_task s') = ASpeak
           \/ a_pc (answer_task s') = ADone Completed
       | _ => a_pc (answer_task s') = ADone Failed
       end.
Proof.
  intros P N1 N2. unfold resume_answer, _relay_answer. rewrite P.
  destruct r; try (now elim N1); try (now elim N2).
  - destruct (first_clause (answer_task s));
      eexists; (split; [reflexivity|]); cbn [answer_task]; auto.
  - unfold send_answer, show_gesture.
    destruct (full_answer_parts (answer_task s)); [|destruct (furhat_client s)];
      eexists; (split; [reflexivity|]); cbn [answer_task fst a_goto a_pc];
      auto.
  - eexists. split; [reflexivity|]. reflexivity.
Qed.

(** With the barrier set, the answer relay goes on from where it waits. *)
Lemma resume_answer_go (s : system) :
  thinking_window_done s = true ->
  match a_pc (answer_task s) with
  | ACreated | AWait _ =>
      exists s', resume_answer Returns s = Some s'
                 /\ a_pc (answer_task s') = ANext
  | ASpeak =>
      exists s', resume_answer Returns s = Some s'
                 /\ a_pc (answer_task s') = ADone Completed
  | _ => True
  end.
Proof.
  intros B. unfold resume_answer, _relay_answer. rewrite B.
  destruct (a_pc (answer_task s)); auto.
  - eexists. split; reflexivity.
  - unfold hand_off.
    destruct (BehaviorGenerator.get_confidence_behavior _).
    eexists. split; reflexivity.
  - eexists. split; reflexivity.
Qed.

(** Once its producer thread has finished, the answer relay can be brought
    to its end by taking the items of the queue one by one. *)
Lemma answer_drains (n : nat) :
  forall s,
    length (Orchestrator.queue (reasoning_model s)) <= n ->
    live s -> thinking_exited s -> thinking_window_done s = true ->
    thread_finished (reasoning_model s) = true ->
    a_pc (answer_task s) = ANext ->
    exists schedule s',
      forallb undisturbed schedule = true
      /\ exec schedule s = Some s' /\ turn_over s'.
Proof.
  induction n as [|n IH]; intros s Hn L X B F P;
    (assert (O : stream_open (reasoning_model s))
       by (apply (answer_stream_open s L); unfold awaits_clause;
           now rewrite P));
    destruct (finished_has_item _ O F) as (r & m & G & F' & Hlen);
    [lia|].
  destruct (queue_get_conserves _ _ _ G) as (_ & _ & item & _ & R).
  assert (N : r <> Returns /\ r <> Cancel)
    by (subst r; destruct item; split; discriminate).
  destruct (resume_answer_next r (set_reasoning_model m s) P (proj1 N)
              (proj2 N)) as (s1 & R1 & P1).
  assert (S1 : step (Get AnswerRelay) s = Some s1)
    by (cbn [step]; now rewrite P, G).
  destruct (resume_answer_leaves _ _ _ R1) as (E1 & E2 & E3).
  cbn [set_reasoning_model thinking_task reasoning_model thinking_window_done]
    in E1, E2, E3.
  pose proof (step_live _ _ _ S1 L) as L1.
  assert (X1 : thinking_exited s1) by (unfold thinking_exited; now rewrite E1).
  assert (B1 : thinking_window_done s1 = true) by congruence.
  assert (D : forall s2,
            live s2 -> thinking_task s2 = thinking_task s ->
            thinking_window_done s2 = true -> reasoning_model s2 = m ->
            a_pc (answer_task s2) = ANext ->
            exists schedule s',
              forallb undisturbed schedule = true
              /\ exec schedule s2 = Some s' /\ turn_over s').
  { intros s2 L2 T2 B2 M2 P2. apply IH; auto.
    - rewrite M2. lia.
    - unfold thinking_exited. now rewrite T2.
    - now rewrite M2. }
  assert (W : forall clause,
            a_pc (answer_task s1) = AWait clause ->
            exists schedule s',
              forallb undisturbed schedule = true
              /\ exec schedule s1 = Some s' /\ turn_over s').
  { intros clause P2. pose proof (resume_answer_go s1 B1) as Go.
    rewrite P2 in Go. destruct Go as (s2 & R2 & P3).
    assert (S2 : step (Go AnswerRelay) s1 = Some s2)
      by (cbn [step]; now rewrite P2).
    destruct (resume_answer_leaves _ _ _ R2) as (E4 & E5 & E6).
    destruct (D s2) as (sch & s' & U & E & T); auto; try congruence.
    - eapply step_live; eauto.
    - exists (Go AnswerRelay :: sch), s'. split; [exact U|].
      split; [|exact T]. cbn [exec]. now rewrite S2. }
  assert (Z : forall o,
            a_pc (answer_task s1) = ADone o ->
            exists schedule s',
              forallb undisturbed schedule = true
              /\ exec schedule s1 = Some s' /\ turn_over s').
  { intros o P2. exists [], s1. split; [reflexivity|].
    split; [reflexivity|]. split; [exact X1 | now exists o]. }
  assert (V : a_pc (answer_task s1) = ASpeak ->
              exists schedule s',
                forallb undisturbed schedule = true
                /\ exec schedule s1 = Some s' /\ turn_over s').
  { intros P2. pose proof (resume_answer_go s1 B1) as Go.
    rewrite P2 in Go. destruct Go as (s2 & R2 & P3).
    assert (S2 : step (Go AnswerRelay) s1 = Some s2)
      by (cbn [step]; now rewrite P2).
    destruct (resume_answer_leaves _ _ _ R2) as (E4 & E5 & E6).
    exists [Go AnswerRelay], s2. split; [reflexivity|]. split.
    - cbn [exec]. now rewrite S2.
    - split; [|now exists Completed].
      unfold thinking_exited. rewrite E4. exact X1. }
  assert (Y : exists schedule s',
            forallb undisturbed schedule = true
            /\ exec schedule s1 = Some s' /\ turn_over s').
  { destruct r; try (now elim (proj1 N)); try (now elim (proj2 N)).
    - destruct P1 as [P1 | P1]; [apply D | apply (W item0)]; auto.
    - destruct P1 as [P1 | P1]; [apply V | apply (Z Completed)]; auto.
    - apply (Z Failed); auto. }
  destruct Y as (sch & s' & U & E & T).
  exists (Get AnswerRelay :: sch), s'. split; [exact U|]. split; [|exact T].
  cbn [exec]. now rewrite S1.
Qed.

(** With the thinking relay gone, the answer relay can be brought to its
    end. *)
Lemma answer_can_return (s : system) :
  live s -> thinking_exited s -> thinking_window_done s = true ->
  exists schedule s',
    forallb undisturbed schedule = true
    /\ exec schedule s = Some s' /\ turn_over s'.
Proof.
  intros L X B.
  assert (N : forall s1,
            live s1 -> thinking_task s1 = thinking_task s ->
            thinking_window_done s1 = true ->
            a_pc (answer_task s1) = ANext ->
            exists schedule s',
              forallb undisturbed schedule = true
              /\ exec schedule s1 = Some s' /\ turn_over s').
  { intros s1 L1 T1 B1 P1.
    assert (O : stream_open (reasoning_model s1))
      by (apply (answer_stream_open s1 L1); unfold awaits_clause;
          now rewrite P1).
    destruct (producer_finishes _ _ (reasoning_model s1) (le_n _) (le_n _)
                (proj1 O)) as (k & m & R & F).
    pose proof (exec_produce_answer k s1 m R) as E1.
    destruct (answer_drains _ (set_reasoning_model m s1) (le_n _))
      as (sch & s' & U & E & T); auto.
    - eapply exec_live; eauto.
    - unfold thinking_exited. cbn [set_reasoning_model thinking_task].
      rewrite T1. exact X.
    - exists (repeat (Produce AnswerRelay) k ++ sch), s'.
      split; [|split; [|exact T]].
      + rewrite forallb_app, undisturbed_repeat; auto.
      + now rewrite exec_app, E1. }
  assert (G : forall s0 s1,
            thinking_task s0 = thinking_task s ->
            thinking_window_done s0 = true ->
            step (Go AnswerRelay) s = Some s1 ->
            resume_answer Returns s0 = Some s1 ->
            a_pc (answer_task s1) = ANext ->
            exists schedule s',
              forallb undisturbed schedule = true
              /\ exec schedule s = Some s' /\ turn_over s').
  { intros s0 s1 T0 B0 S1 R1 P1.
    destruct (resume_answer_leaves _ _ _ R1) as (E1 & E2 & E3).
    destruct (N s1) as (sch & s' & U & E & T); auto; try congruence.
    - eapply step_live; eauto.
    - exists (Go AnswerRelay :: sch), s'. split; [exact U|].
      split; [|exact T]. cbn [exec]. now rewrite S1. }
  destruct (a_pc (answer_task s)) eqn:P.
  - (* not started *)
    pose proof (resume_answer_go
                  (set_reasoning_model (start_thread (reasoning_model s)) s) B)
      as Go.
    cbn [set_reasoning_model answer_task] in Go. rewrite P in Go.
    destruct Go as (s1 & R1 & P1).
    apply (G (set_reasoning_model (start_thread (reasoning_model s)) s) s1
             eq_refl B); [cbn [step]; now rewrite P | exact R1 | exact P1].
  - now apply N.
  - (* waiting at the barrier *)
    pose proof (resume_answer_go s B) as Go. rewrite P in Go.
    destruct Go as (s1 & R1 & P1).
    apply (G s s1 eq_refl B); auto. cbn [step]. now rewrite P.
  - (* speaking *)
    pose proof (resume_answer_go s B) as Go. rewrite P in Go.
    destruct Go as (s1 & R1 & P1).
    destruct (resume_answer_leaves _ _ _ R1) as (E1 & E2 & E3).
    exists [Go AnswerRelay], s1. split; [reflexivity|]. split.
    + cbn [exec step]. now rewrite P, R1.
    + split; [|now exists Completed].
      unfold thinking_exited. rewrite E1. exact X.
  - exists [], s. split; [reflexivity|]. split; [reflexivity|].
    split; [exact X | now exists o].
Qed.

Lemma spawn_live (client : bool) (question : str) (hint : option str)
    (llm : completions) (now : Q) :
  live (spawn client question hint llm now).
Proof. constructor; simpl; auto; discriminate. Qed.

(** X30: a ThinkingAndAnswering turn cannot get stuck.  From every state
    that a schedule leads to, there is a way on, in which nothing fails
    and nothing is cancelled, to a state where the thinking relay has
    exited and the answer relay has left: the clock passes the deadline,
    the producer threads run to their end, and each relay takes what its
    queue holds; the answer relay, which waits for the barrier, is never
    left waiting, since the thinking relay never waits for it. *)
Theorem X30_turn_can_always_be_completed
    (client : bool) (question : str) (d : decision) (llm : completions)
    (now : Q) (s0 : system) (schedule : list label) (s : system) :
  run client question d llm now = ThinkingAndAnswering s0 ->
  exec schedule s0 = Some s ->
  exists more s',
    forallb undisturbed more = true
    /\ exec more s = Some s' /\ turn_over s'.
Proof.
  intros R E.
  assert (L0 : live s0).
  { revert R. unfold run. destruct (need_thinking d); simpl.
    - intros R. injection R as <-. apply spawn_live.
    - destruct (_respond_directly client d (confidence d)). discriminate. }
  pose proof (exec_live _ _ _ E L0) as L.
  destruct (thinking_can_exit s L) as (sch1 & s1 & U1 & E1 & X1).
  assert (E01 : exec (schedule ++ sch1) s0 = Some s1)
    by now rewrite exec_app, E.
  assert (B1 : thinking_window_done s1 = true).
  { destruct (run_invariant _ _ _ _ _ _ _ _ R E01) as [[_ I2 _ _ _ _] _ _ _].
    destruct X1 as (o & t & P). rewrite P in I2. now destruct I2. }
  destruct (answer_can_return s1 (exec_live _ _ _ E1 L) X1 B1)
    as (sch2 & s2 & U2 & E2 & T).
  exists (sch1 ++ sch2), s2. split; [|split; [|exact T]].
  - now rewrite forallb_app, U1, U2.
  - now rewrite exec_app, E1.
Qed.

(** A turn for X30: the answer relay holds its first clause while the
    thinking relay has not yet read anything; the turn can go on to its
    end. *)
Lemma X30_turn_can_always_be_completed_witness :
  exists waiting,
    exec answer_fetched_first (start true two_streams) = Some waiting
    /\ step (Go AnswerRelay) waiting = None
    /\ exists more s',
         forallb undisturbed more = true
         /\ exec more waiting = Some s' /\ turn_over s'.
Proof.
  eexists. split; [vm_compute; reflexivity|].
  split; [vm_compute; reflexivity|].
  apply (X30_turn_can_always_be_completed true (lit "Why?") thoughtful
           two_streams 0%Q (start true two_streams) answer_fetched_first).
  - reflexivity.
  - vm_compute. reflexivity.
Defined.
